(** * stdlib-js/net: port hunting and the disposable HTTP server

    A shallow embedding of the event handlers of [@stdlib/net/http-server]
    ([lib/main.js], in the two variants found in the sources) and of
    [@stdlib/net/disposable-http-server] ([lib/main.js]).

    JavaScript closures become records of their captured variables, event
    handlers become functions from a state to a completion and a new state,
    and the host platform (Node's [http], [Buffer], [process.nextTick],
    timers) is an explicit environment that delivers events. *)

From Stdlib Require Import ZArith Lia.
From Stdlib.Strings Require Import Byte.
From stdpp Require Import base option list strings pretty gmap.

Set Default Proof Using "Type".

(** ** Values shared by both packages *)

(** A JavaScript error object.  Handlers only ever inspect [code], which
    system errors carry and the errors the packages construct do not. *)
Record JsError := mkError {
  name : string;
  code : option string;
  message : string
}.

Definition TypeError (message : string) : JsError :=
  mkError "TypeError" None message.

Definition SystemError (code message : string) : JsError :=
  mkError "Error" (Some code) message.

(** How the evaluation of a handler body ends. *)
Inductive Completion :=
| Normal
| Throw (e : JsError).

(** ** [@stdlib/net/http-server] *)

Module HttpServer.

(** Values that reach the parameters [done], [options] and
    [requestListener].  A function is identified by a number, an options
    object by the fields the package reads and by its remaining keys;
    [isFunction] holds of [VFunction] only and [isObject] of [VObject]
    only. *)
Record Options := mkOptions {
  opt_port : option Z;
  opt_maxport : option Z;
  opt_hostname : option string;
  opt_address : option string;
  opt_extra : list (string * string)
}.

Inductive Value :=
| VFunction (f : nat)
| VObject (o : Options)
| VOther (repr : string).

Definition format (v : Value) : string :=
  match v with
  | VFunction _ => "function"
  | VObject _ => "[object Object]"
  | VOther r => r
  end.

(** Modelled from the spec: [defaults.json] is not among the sources; the
    documented defaults are port [0] and address [127.0.0.1]. *)
Definition DEFAULTS_port : Z := 0.
Definition DEFAULTS_address : string := "127.0.0.1".

Definition EXCLUDE_OPTIONS : list string :=
  ["port"; "maxport"; "hostname"; "address"].

(** Modelled from the spec: [validate.js] is not among the sources.  An
    options object whose fields have the documented types is copied to
    [opts]; any other value is rejected with a type error. *)
Definition validate (options : Value) : JsError + Options :=
  match options with
  | VObject o => inr o
  | v => inl (TypeError
                ("invalid argument. Options argument must be an object. Value: `"
                 +:+ format v +:+ "`."))
  end.

Definition omit (o : Options) (keys : list string) : list (string * string) :=
  filter (fun kv => bool_decide (kv.1 ∉ keys)) (opt_extra o).

(** A non-empty string is truthy. *)
Definition truthy_string (s : option string) : bool :=
  match s with
  | Some s => negb (String.eqb s EmptyString)
  | None => false
  end.

(** The variables captured by the closure [httpServer] that [factory]
    returns.  [port] is declared in [factory] and assigned by
    [errorListener]. *)
Record Closure := mkClosure {
  requestListener : option nat;
  sopts : list (string * string);
  hostname : string;
  port : Z;
  max : Z
}.

Definition empty_opts : Options := mkOptions None None None None [].

(** [factory()]: resolution of [port], [max] and [hostname] from the
    validated options (lines 125-148 of the first variant, 331-354 of the
    second). *)
Definition resolve (listener : option nat) (flg : bool) (options opts : Options)
  : Closure :=
  let port := match opt_port opts with None => DEFAULTS_port | Some p => p end in
  let max := match opt_maxport opts with None => port | Some m => m end in
  let hostname :=
    if truthy_string (opt_hostname opts) then default EmptyString (opt_hostname opts)
    else if truthy_string (opt_address opts) then default EmptyString (opt_address opts)
    else DEFAULTS_address in
  mkClosure listener (if flg then omit options EXCLUDE_OPTIONS else []) hostname port max.

Definition factory (args : list Value) : JsError + Closure :=
  match args with
  | [] => inr (resolve None false empty_opts empty_opts)
  | [a0] =>
      match a0 with
      | VFunction f => inr (resolve (Some f) false empty_opts empty_opts)
      | _ =>
          match validate a0 with
          | inl err => inl err
          | inr opts =>
              inr (resolve None true
                     (match a0 with VObject o => o | _ => empty_opts end) opts)
          end
      end
  | a0 :: a1 :: _ =>
      match a1 with
      | VFunction f =>
          match validate a0 with
          | inl err => inl err
          | inr opts =>
              inr (resolve (Some f) true
                     (match a0 with VObject o => o | _ => empty_opts end) opts)
          end
      | _ => inl (TypeError
                    ("invalid argument. Request listener must be a function. Value: `"
                     +:+ format a1 +:+ "`."))
      end
  end.

(** What a handler asks of the platform or of its caller.  [Listen]
    records the call of [server.listen]; what the platform throws from the
    call itself (for a port above 65535, or on a server that is already
    listening) is not part of the effect. *)
Inductive Effect :=
| CreateServer (server : nat) (options : option (list (string * string)))
    (listener : option nat)
| Listen (server : nat) (port : Z) (hostname : string)
| Callback (f : nat) (error : option JsError) (server : nat).

(** A server created by one invocation of [httpServer]: the callback its
    [onListen] closes over, and whether the listener registered with
    [server.once( 'listening', onListen )] is still attached. *)
Record Server := mkServer {
  cb : nat;
  listening_once : bool
}.

Record State := mkState {
  clo : Closure;
  servers : gmap nat Server;
  next_server : nat
}.

Definition set_port (p : Z) (st : State) : State :=
  let c := clo st in
  mkState (mkClosure (requestListener c) (sopts c) (hostname c) p (max c))
    (servers st) (next_server st).

Definition init (c : Closure) : State := mkState c ∅ 0.

(** The result of running a handler. *)
Record Result := mkResult {
  completion : Completion;
  state : State;
  effects : list Effect
}.

Section Handlers.

(** [process.version] decides whether [http.createServer] accepts an
    options object. *)
Variable SUPPORTS_OPTIONS : bool.

Definition createServer (st : State) (opts : list (string * string)) : Effect :=
  match requestListener (clo st) with
  | Some l =>
      if SUPPORTS_OPTIONS
      then CreateServer (next_server st) (Some opts) (Some l)
      else CreateServer (next_server st) None (Some l)
  | None =>
      if SUPPORTS_OPTIONS
      then CreateServer (next_server st) (Some opts) None
      else CreateServer (next_server st) None None
  end.

(** The tail shared by both variants of [httpServer]: create the server,
    attach [errorListener] and [onListen], and listen on the current
    [port]. *)
Definition start (st : State) (opts : list (string * string)) (f : nat) : Result :=
  let server := next_server st in
  mkResult Normal
    (mkState (clo st) (<[server := mkServer f true]> (servers st)) (S server))
    [createServer st opts; Listen server (port (clo st)) (hostname (clo st))].

Definition callback_error (v : Value) : JsError :=
  TypeError
    ("invalid argument. Callback argument must be a function. Value: `"
     +:+ format v +:+ "`.").

(** [httpServer( done )], first variant (lines 167-189). *)
Definition httpServer (done : Value) (st : State) : Result :=
  match done with
  | VFunction f => start st (sopts (clo st)) f
  | v => mkResult (Throw (callback_error v)) st []
  end.

(** [httpServer( [options,] done )], second variant (lines 374-409). *)
Definition httpServer2 (args : list Value) (st : State) : Result :=
  match args with
  | [] => mkResult (Throw (callback_error (VOther "undefined"))) st []
  | [options] =>
      match options with
      | VFunction f => start st [] f
      | v => mkResult (Throw (callback_error v)) st []
      end
  | options :: done :: _ =>
      match options with
      | VObject o =>
          match done with
          | VFunction f => start st (opt_extra o) f
          | v => mkResult (Throw (callback_error v)) st []
          end
      | v => mkResult
               (Throw (TypeError
                  ("invalid argument. Options argument must be an object. Value: `"
                   +:+ format v +:+ "`."))) st []
      end
  end.

End Handlers.

(** [errorListener( error )] of the server [server] (lines 197-208 and
    418-429). *)
Definition errorListener (server : nat) (error : JsError) (st : State) : Result :=
  if bool_decide (code error = Some "EADDRINUSE") then
    let st1 := set_port (port (clo st) + 1) st in
    if (port (clo st1) <=? max (clo st1))%Z then
      mkResult Normal st1 [Listen server (port (clo st1)) (hostname (clo st1))]
    else mkResult (Throw error) st1 []
  else mkResult (Throw error) st [].

(** [onListen()] of the server [server] (lines 215-219 and 436-440). *)
Definition onListen (server : nat) (f : nat) (st : State) : Result :=
  mkResult Normal st [Callback f None server].

(** Events the platform delivers to a server. *)
Inductive Event :=
| EvListening (server : nat)
| EvError (server : nat) (error : JsError).

(** Delivery of an event to the listeners attached by [httpServer]:
    [errorListener] stays attached ([server.on]), [onListen] is detached
    before it runs ([server.once]). *)
Definition emit (ev : Event) (st : State) : Result :=
  match ev with
  | EvListening server =>
      match servers st !! server with
      | Some (mkServer f true) =>
          onListen server f
            (mkState (clo st) (<[server := mkServer f false]> (servers st))
               (next_server st))
      | _ => mkResult Normal st []
      end
  | EvError server error =>
      match servers st !! server with
      | Some _ => errorListener server error st
      | None => mkResult Normal st []
      end
  end.

(** *** The platform as an oracle on ports

    For one invocation of the bind procedure the platform answers each
    [server.listen] call either with a ['listening'] event or with an
    ['error'] event. *)

Inductive ListenResult :=
| Free
| Fails (e : JsError).

Inductive Outcome :=
| Bound (server : nat)
| Failed (e : JsError)
| Stalled
| OutOfFuel.

Record Run := mkRun {
  outcome : Outcome;
  final : State;
  trace : list Effect
}.

(** The port of the last [listen] call on [server] among [effs]. *)
Definition listening_on (server : nat) (effs : list Effect) : option Z :=
  last (omap (fun e =>
                match e with
                | Listen s p _ => if decide (s = server) then Some p else None
                | _ => None
                end) effs).

Definition answer (plat : Z → ListenResult) (server : nat) (p : Z) : Event :=
  match plat p with
  | Free => EvListening server
  | Fails e => EvError server e
  end.

(** [hunt fuel plat server p st]: a [listen] call on port [p] is outstanding;
    the platform answers, the attached listener runs, and the hunt goes on
    for as long as the listener issues a further [listen]. *)
Fixpoint hunt (fuel : nat) (plat : Z → ListenResult) (server : nat) (p : Z)
    (st : State) : Run :=
  let r := emit (answer plat server p) st in
  match completion r with
  | Throw e => mkRun (Failed e) (state r) (effects r)
  | Normal =>
      match plat p with
      | Free => mkRun (Bound server) (state r) (effects r)
      | Fails _ =>
          match listening_on server (effects r) with
          | None => mkRun Stalled (state r) (effects r)
          | Some p' =>
              match fuel with
              | O => mkRun OutOfFuel (state r) (effects r)
              | S fuel' =>
                  let run := hunt fuel' plat server p' (state r) in
                  mkRun (outcome run) (final run) (effects r ++ trace run)
              end
          end
      end
  end.

(** Runs an invocation whose synchronous part gave [r] to its end. *)
Definition drive (plat : Z → ListenResult) (server : nat) (fuel : nat)
    (r : Result) : Run :=
  match completion r with
  | Throw e => mkRun (Failed e) (state r) (effects r)
  | Normal =>
      match listening_on server (effects r) with
      | None => mkRun Stalled (state r) (effects r)
      | Some p =>
          let run := hunt fuel plat server p (state r) in
          mkRun (outcome run) (final run) (effects r ++ trace run)
      end
  end.

(** An invocation of the bind procedure of either variant. *)
Inductive Invocation :=
| Call1 (done : Value)
| Call2 (args : list Value).

Definition invoke (SUPPORTS_OPTIONS : bool) (inv : Invocation) (st : State)
  : Result :=
  match inv with
  | Call1 done => httpServer SUPPORTS_OPTIONS done st
  | Call2 args => httpServer2 SUPPORTS_OPTIONS args st
  end.

(** The number of retries left before [port] passes [max]. *)
Definition retries_left (st : State) : nat :=
  Z.to_nat (max (clo st) - port (clo st)).

(** The bind procedure run to its end against the platform [plat]. *)
Definition bind (SUPPORTS_OPTIONS : bool) (plat : Z → ListenResult)
    (inv : Invocation) (st : State) : Run :=
  drive plat (next_server st) (retries_left st) (invoke SUPPORTS_OPTIONS inv st).

(** The ports of the [listen] calls of a trace, in order. *)
Definition attempts (effs : list Effect) : list Z :=
  omap (fun e => match e with Listen _ p _ => Some p | _ => None end) effs.

(** The completion callbacks invoked in a trace, in order. *)
Definition callbacks (effs : list Effect) : list (nat * option JsError * nat) :=
  omap (fun e => match e with Callback f err s => Some (f, err, s) | _ => None end)
    effs.

(** Delivery of a sequence of events, whatever the handlers throw. *)
Fixpoint deliver (evs : list Event) (st : State) : State * list Effect :=
  match evs with
  | [] => (st, [])
  | ev :: evs' =>
      let r := emit ev st in
      let '(st', effs) := deliver evs' (state r) in
      (st', effects r ++ effs)
  end.

End HttpServer.

(** ** The platform's [Buffer]

    [@stdlib/buffer/ctor] is Node's [Buffer] and [@stdlib/buffer/from-string]
    is [Buffer.from( str )].  A JavaScript string is its sequence of UTF-16
    code units; a buffer is its sequence of bytes.  The default encoding is
    UTF-8 throughout. *)

Module Buffer.

Local Open Scope Z_scope.

Definition val (b : byte) : Z := Z.of_N (Byte.to_N b).

Definition byte_of (z : Z) : byte := default x00 (Byte.of_N (Z.to_N z)).

Definition between (lo x hi : Z) : bool := (lo <=? x) && (x <=? hi).

Definition is_high (u : Z) : bool := between 0xD800 u 0xDBFF.
Definition is_low (u : Z) : bool := between 0xDC00 u 0xDFFF.

(** U+FFFD, which stands for every ill-formed sequence. *)
Definition REPLACEMENT : Z := 0xFFFD.

(** [Buffer.byteLength( string )]: the number of bytes of the UTF-8
    encoding of a string; a surrogate without its partner counts as
    U+FFFD. *)
Fixpoint byteLength (s : list Z) : Z :=
  match s with
  | [] => 0
  | u :: s' =>
      if u <? 0x80 then 1 + byteLength s'
      else if u <? 0x800 then 2 + byteLength s'
      else if is_high u then
        match s' with
        | v :: s'' => if is_low v then 4 + byteLength s'' else 3 + byteLength s'
        | [] => 3
        end
      else 3 + byteLength s'
  end.

Definition encode3 (u : Z) : list byte :=
  [byte_of (0xE0 + u / 0x1000); byte_of (0x80 + (u / 0x40) mod 0x40);
   byte_of (0x80 + u mod 0x40)].

Definition encode4 (cp : Z) : list byte :=
  [byte_of (0xF0 + cp / 0x40000); byte_of (0x80 + (cp / 0x1000) mod 0x40);
   byte_of (0x80 + (cp / 0x40) mod 0x40); byte_of (0x80 + cp mod 0x40)].

(** [Buffer.from( string )], that is [string2buffer]. *)
Fixpoint from_string (s : list Z) : list byte :=
  match s with
  | [] => []
  | u :: s' =>
      if u <? 0x80 then byte_of u :: from_string s'
      else if u <? 0x800 then
        byte_of (0xC0 + u / 0x40) :: byte_of (0x80 + u mod 0x40) :: from_string s'
      else if is_high u then
        match s' with
        | v :: s'' =>
            if is_low v
            then encode4 (0x10000 + (u - 0xD800) * 0x400 + (v - 0xDC00))
                   ++ from_string s''
            else encode3 REPLACEMENT ++ from_string s'
        | [] => encode3 REPLACEMENT
        end
      else if is_low u then encode3 REPLACEMENT ++ from_string s'
      else encode3 u ++ from_string s'
  end.

(** The code units of a code point. *)
Definition units (cp : Z) : list Z :=
  if cp <? 0x10000 then [cp]
  else [0xD800 + (cp - 0x10000) / 0x400; 0xDC00 + (cp - 0x10000) mod 0x400].

(** The bounds of the second byte, which exclude overlong forms,
    surrogates and code points above U+10FFFF. *)
Definition lower (x0 : Z) : Z :=
  if x0 =? 0xE0 then 0xA0 else if x0 =? 0xF0 then 0x90 else 0x80.
Definition upper (x0 : Z) : Z :=
  if x0 =? 0xED then 0x9F else if x0 =? 0xF4 then 0x8F else 0xBF.

(** [buf.toString()]: UTF-8 decoding; every maximal ill-formed part
    becomes U+FFFD and decoding resumes at the offending byte. *)
Fixpoint toString (b : list byte) : list Z :=
  match b with
  | [] => []
  | b0 :: r1 =>
      let x0 := val b0 in
      if x0 <=? 0x7F then x0 :: toString r1
      else if between 0xC2 x0 0xDF then
        match r1 with
        | [] => [REPLACEMENT]
        | b1 :: r2 =>
            if between 0x80 (val b1) 0xBF
            then units ((x0 - 0xC0) * 0x40 + (val b1 - 0x80)) ++ toString r2
            else REPLACEMENT :: toString r1
        end
      else if between 0xE0 x0 0xEF then
        match r1 with
        | [] => [REPLACEMENT]
        | b1 :: r2 =>
            if between (lower x0) (val b1) (upper x0) then
              match r2 with
              | [] => [REPLACEMENT]
              | b2 :: r3 =>
                  if between 0x80 (val b2) 0xBF
                  then units (((x0 - 0xE0) * 0x40 + (val b1 - 0x80)) * 0x40
                              + (val b2 - 0x80)) ++ toString r3
                  else REPLACEMENT :: toString r2
              end
            else REPLACEMENT :: toString r1
        end
      else if between 0xF0 x0 0xF4 then
        match r1 with
        | [] => [REPLACEMENT]
        | b1 :: r2 =>
            if between (lower x0) (val b1) (upper x0) then
              match r2 with
              | [] => [REPLACEMENT]
              | b2 :: r3 =>
                  if between 0x80 (val b2) 0xBF then
                    match r3 with
                    | [] => [REPLACEMENT]
                    | b3 :: r4 =>
                        if between 0x80 (val b3) 0xBF
                        then units ((((x0 - 0xF0) * 0x40 + (val b1 - 0x80)) * 0x40
                                     + (val b2 - 0x80)) * 0x40 + (val b3 - 0x80))
                               ++ toString r4
                        else REPLACEMENT :: toString r3
                    end
                  else REPLACEMENT :: toString r2
              end
            else REPLACEMENT :: toString r1
        end
      else REPLACEMENT :: toString r1
  end.

(** Whether a buffer is well-formed UTF-8, by the same cases. *)
Fixpoint well_formed (b : list byte) : bool :=
  match b with
  | [] => true
  | b0 :: r1 =>
      let x0 := val b0 in
      if x0 <=? 0x7F then well_formed r1
      else if between 0xC2 x0 0xDF then
        match r1 with
        | b1 :: r2 => between 0x80 (val b1) 0xBF && well_formed r2
        | [] => false
        end
      else if between 0xE0 x0 0xEF then
        match r1 with
        | b1 :: b2 :: r3 =>
            between (lower x0) (val b1) (upper x0)
            && between 0x80 (val b2) 0xBF && well_formed r3
        | _ => false
        end
      else if between 0xF0 x0 0xF4 then
        match r1 with
        | b1 :: b2 :: b3 :: r4 =>
            between (lower x0) (val b1) (upper x0)
            && between 0x80 (val b2) 0xBF && between 0x80 (val b3) 0xBF
            && well_formed r4
        | _ => false
        end
      else false
  end.

(** The code units of a string of ASCII characters. *)
Definition ascii (s : string) : list Z := val <$> String.list_byte_of_string s.

End Buffer.

(** ** [@stdlib/net/disposable-http-server] *)

Module Disposable.

(** A value of [options.html] or [options.javascript]. *)
Inductive Content :=
| Undefined
| Str (s : list Z)
| Buf (b : list byte).

Definition truthy (c : Content) : bool :=
  match c with
  | Undefined => false
  | Str [] => false
  | Str (_ :: _) => true
  | Buf _ => true
  end.

Definition isString (c : Content) : bool :=
  match c with Str _ => true | _ => false end.

Definition string2buffer (c : Content) : Content :=
  match c with
  | Str s => Buf (Buffer.from_string s)
  | c => c
  end.

(** [Buffer.byteLength( value )]: a string counts its UTF-8 bytes and a
    buffer its bytes.  [undefined] reaches it only through the first branch
    of [byteLength], which is taken before Node.js 6; those releases
    convert a value that is not a string to one, so [undefined] counts the
    9 bytes of ['undefined']. *)
Definition Buffer_byteLength (v : Content) : JsError + Z :=
  match v with
  | Str s => inr (Buffer.byteLength s)
  | Buf b => inr (Z.of_nat (length b))
  | Undefined => inr 9%Z
  end.

(** [value.toString()]. *)
Definition toString (v : Content) : JsError + list Z :=
  match v with
  | Str s => inr s
  | Buf b => inr (Buffer.toString b)
  | Undefined =>
      inl (TypeError "Cannot read properties of undefined (reading 'toString')")
  end.

Inductive HeaderValue :=
| HString (s : string)
| HNumber (n : Z).

Inductive Listener := OnFinish.

(** A request together with its response object. *)
Record Response := mkResponse {
  url : string;
  statusCode : Z;
  headers : list (string * HeaderValue);
  body : Content;
  ended : bool;
  finish_once : list Listener;
  finished : bool
}.

Definition fresh_response (url : string) : Response :=
  mkResponse url 200 [] Undefined false [] false.

Inductive Sender := SendHTML | SendJavaScript.

(** The closure [next] that [onTick( fcn )] returns for one exchange. *)
Inductive Task := Next (fcn : Sender) (response : nat).

Inductive Timer := DestroyConnections (ms : Z).

(** The variables of one call of [httpServer], followed by the objects the
    platform holds for it: the exchanges in the order of their arrival (a
    response is named by its position), the queue of [nextTick] and the
    timers. *)
Record State := mkState {
  opts_html : Content;
  opts_javascript : Content;
  opts_open : bool;
  clbk : option nat;
  isClosing : bool;
  server : option nat;
  connections : gmap string nat;
  responses : list Response;
  ticks : list Task;
  timers : list Timer
}.

Inductive Effect :=
| Boot
| ListenConnections (server : nat)
| OpenURL (address : string) (port : Z)
| Clbk (f : option nat) (server : nat)
| NextTick (t : Task)
| End (response : nat)
| Close (server : nat)
| SetTimeout (t : Timer)
| Destroy (key : string) (socket : nat).

Record Result := mkResult {
  completion : Completion;
  state : State;
  effects : list Effect
}.

(** Sequencing: a throw cuts the rest short. *)
Definition andThen (r : Result) (k : State → Result) : Result :=
  match completion r with
  | Throw _ => r
  | Normal =>
      let r' := k (state r) in
      mkResult (completion r') (state r') (effects r ++ effects r')
  end.

Definition set_isClosing (b : bool) (st : State) : State :=
  mkState (opts_html st) (opts_javascript st) (opts_open st) (clbk st) b
    (server st) (connections st) (responses st) (ticks st) (timers st).

Definition set_server (s : nat) (st : State) : State :=
  mkState (opts_html st) (opts_javascript st) (opts_open st) (clbk st)
    (isClosing st) (Some s) (connections st) (responses st) (ticks st)
    (timers st).

Definition set_connections (c : gmap string nat) (st : State) : State :=
  mkState (opts_html st) (opts_javascript st) (opts_open st) (clbk st)
    (isClosing st) (server st) c (responses st) (ticks st) (timers st).

Definition set_responses (l : list Response) (st : State) : State :=
  mkState (opts_html st) (opts_javascript st) (opts_open st) (clbk st)
    (isClosing st) (server st) (connections st) l (ticks st) (timers st).

Definition set_ticks (q : list Task) (st : State) : State :=
  mkState (opts_html st) (opts_javascript st) (opts_open st) (clbk st)
    (isClosing st) (server st) (connections st) (responses st) q (timers st).

Definition set_timers (t : list Timer) (st : State) : State :=
  mkState (opts_html st) (opts_javascript st) (opts_open st) (clbk st)
    (isClosing st) (server st) (connections st) (responses st) (ticks st) t.

Definition update (response : nat) (f : Response → Response) (st : State) : State :=
  set_responses (alter f response (responses st)) st.

(** [response.statusCode = code]. *)
Definition set_statusCode (code : Z) (r : Response) : Response :=
  mkResponse (url r) code (headers r) (body r) (ended r) (finish_once r) (finished r).

(** [response.setHeader( name, value )]. *)
Definition setHeader (name : string) (value : HeaderValue) (r : Response) : Response :=
  mkResponse (url r) (statusCode r)
    ((name, value) :: filter (λ h, h.1 ≠ name) (headers r))
    (body r) (ended r) (finish_once r) (finished r).

(** [response.end( data )]. *)
Definition end_with (data : Content) (r : Response) : Response :=
  mkResponse (url r) (statusCode r) (headers r) data true (finish_once r) (finished r).

(** [response.once( 'finish', listener )]. *)
Definition once_finish (l : Listener) (r : Response) : Response :=
  mkResponse (url r) (statusCode r) (headers r) (body r) (ended r)
    (finish_once r ++ [l]) (finished r).

(** The listeners of ['finish'] are detached as the event is emitted. *)
Definition mark_finished (r : Response) : Response :=
  mkResponse (url r) (statusCode r) (headers r) (body r) (ended r) [] true.

(** [notFound( request, response )] *)
Definition notFound (response : nat) (st : State) : Result :=
  mkResult Normal
    (update response (end_with Undefined)
       (update response (set_statusCode 404) st))
    [End response].

(** [unavailable( request, response )] *)
Definition unavailable (response : nat) (st : State) : Result :=
  mkResult Normal
    (update response (end_with Undefined)
       (update response (set_statusCode 503) st))
    [End response].

(** [nextTick( onTick( fcn ) )] within the listener of one exchange. *)
Definition nextTick (t : Task) (st : State) : State :=
  set_ticks (ticks st ++ [t]) st.

Definition onTick (fcn : Sender) (response : nat) : Task := Next fcn response.

(** [requestListener( request, response )] *)
Definition requestListener (request_url : string) (response : nat) (st : State)
  : Result :=
  if isClosing st then unavailable response st
  else if String.eqb request_url "/bundle.js" then
    let t := onTick SendJavaScript response in
    mkResult Normal (update response (once_finish OnFinish) (nextTick t st))
      [NextTick t]
  else if negb (String.eqb request_url "/")
          && negb (String.eqb request_url "/index.html") then
    notFound response st
  else
    let t := onTick SendHTML response in
    let st1 := nextTick t st in
    if negb (truthy (opts_javascript st))
    then mkResult Normal (update response (once_finish OnFinish) st1) [NextTick t]
    else mkResult Normal st1 [NextTick t].

(** [onFinish()] *)
Definition onFinish (st : State) : Result :=
  let st1 := set_isClosing true st in
  match server st1 with
  | None =>
      mkResult
        (Throw (TypeError "Cannot read properties of undefined (reading 'close')"))
        st1 []
  | Some s =>
      let t := DestroyConnections 5000 in
      mkResult Normal (set_timers (timers st1 ++ [t]) st1) [Close s; SetTimeout t]
  end.

(** [destroyConnections()] *)
Definition destroyConnections (st : State) : Result :=
  mkResult Normal st
    ((λ kv, Destroy kv.1 kv.2) <$> map_to_list (connections st)).

(** [onConnection( socket )], with [key] the remote address and port. *)
Definition onConnection (remoteAddress : string) (remotePort : Z) (socket : nat)
    (st : State) : Result :=
  let key := remoteAddress +:+ ":" +:+ pretty remotePort in
  mkResult Normal (set_connections (<[key := socket]> (connections st)) st) [].

(** The [onClose] of a socket, which closes over [key]. *)
Definition onSocketClose (key : string) (st : State) : Result :=
  mkResult Normal (set_connections (delete key (connections st)) st) [].

(** The [onClose] of the server only logs. *)
Definition onClose (st : State) : Result := mkResult Normal st [].

(** [onServer( error, _server )]; [address] and [port] are what
    [server.address()] returns. *)
Definition onServer (error : option JsError) (_server : nat) (address : string)
    (port : Z) (st : State) : Result :=
  match error with
  | Some e => mkResult (Throw e) st []
  | None =>
      mkResult Normal (set_server _server st)
        (ListenConnections _server
           :: (if opts_open st then [OpenURL address port] else [])
           ++ [Clbk (clbk st) _server])
  end.

Section Node.

(** [SUPPORTS_BUFFER] is whether the major version of Node.js is below 6;
    it is [false] on every release from 6 on. *)
Variable SUPPORTS_BUFFER : bool.

(** [byteLength( str )] *)
Definition byteLength (str : Content) : JsError + Z :=
  if SUPPORTS_BUFFER then Buffer_byteLength str
  else
    match toString str with
    | inl e => inl e
    | inr s => Buffer_byteLength (Str s)
    end.

(** The body shared by [sendHTML] and [sendJavaScript]. *)
Definition send (type : string) (content : Content) (response : nat)
    (st : State) : Result :=
  let st1 := update response (set_statusCode 200) st in
  let st2 := update response (setHeader "Content-Type" (HString type)) st1 in
  match byteLength content with
  | inl e => mkResult (Throw e) st2 []
  | inr n =>
      let st3 := update response (setHeader "Content-Length" (HNumber n)) st2 in
      mkResult Normal (update response (end_with content) st3) [End response]
  end.

(** [sendHTML( request, response )] *)
Definition sendHTML (response : nat) (st : State) : Result :=
  send "text/html" (opts_html st) response st.

(** [sendJavaScript( request, response )] *)
Definition sendJavaScript (response : nat) (st : State) : Result :=
  send "text/javascript" (opts_javascript st) response st.

(** [next()] *)
Definition next (t : Task) (st : State) : Result :=
  match t with
  | Next SendHTML response => sendHTML response st
  | Next SendJavaScript response => sendJavaScript response st
  end.

(** What the platform delivers to one disposable server. *)
Inductive Event :=
| EvServer (error : option JsError) (server : nat) (address : string) (port : Z)
| EvConnection (remoteAddress : string) (remotePort : Z) (socket : nat)
| EvSocketClose (key : string)
| EvRequest (url : string)
| EvTick
| EvFinish (response : nat)
| EvTimeout
| EvClose.

Definition run_listener (l : Listener) (st : State) : Result :=
  match l with OnFinish => onFinish st end.

Fixpoint run_listeners (ls : list Listener) (st : State) : Result :=
  match ls with
  | [] => mkResult Normal st []
  | l :: ls' => andThen (run_listener l st) (run_listeners ls')
  end.

(** One turn of the event loop.  ['finish'] is emitted once, after the
    response was ended; a tick runs the oldest queued task; a timeout fires
    the oldest timer. *)
Definition step (ev : Event) (st : State) : Result :=
  match ev with
  | EvServer error s address port => onServer error s address port st
  | EvConnection a p socket => onConnection a p socket st
  | EvSocketClose key => onSocketClose key st
  | EvRequest url =>
      let response := length (responses st) in
      requestListener url response
        (set_responses (responses st ++ [fresh_response url]) st)
  | EvTick =>
      match ticks st with
      | [] => mkResult Normal st []
      | t :: q => next t (set_ticks q st)
      end
  | EvFinish response =>
      match responses st !! response with
      | Some r =>
          if ended r && negb (finished r)
          then run_listeners (finish_once r) (update response mark_finished st)
          else mkResult Normal st []
      | None => mkResult Normal st []
      end
  | EvTimeout =>
      match timers st with
      | [] => mkResult Normal st []
      | DestroyConnections _ :: q => destroyConnections (set_timers q st)
      end
  | EvClose => onClose st
  end.

(** A sequence of turns; a throw ends its turn only. *)
Fixpoint run (evs : list Event) (st : State) : State * list Effect :=
  match evs with
  | [] => (st, [])
  | ev :: evs' =>
      let r := step ev st in
      let '(st', effs) := run evs' (state r) in
      (st', effects r ++ effs)
  end.

End Node.

(** Modelled from the spec: [validate.js] is not among the sources.  The
    options that passed it: [html] and [javascript] are each absent, a
    string or a buffer, and [open] is a boolean.  The server options, which
    [opts.js] extracts for the bind procedure, are left out. *)
Record Options := mkOptions {
  html : Content;
  javascript : Content;
  open : bool
}.

(** The optional second argument of [httpServer]. *)
Inductive Argument :=
| Absent
| Function (f : nat)
| NotFunction (repr : string).

(** [httpServer( options, clbk )] up to [connections = createStore()];
    [boilerplate] is the content of [static/index.html].  The callback is
    [None] when the caller passed none ([noop]). *)
Definition httpServer (boilerplate : list byte) (options : Options)
    (clbk : Argument) : JsError + State * list Effect :=
  match clbk with
  | NotFunction repr =>
      inl (TypeError
             ("invalid argument. Callback argument must be a function. Value: `"
              +:+ repr +:+ "`."))
  | _ =>
      let html1 :=
        if truthy (html options) && isString (html options)
        then string2buffer (html options) else html options in
      let javascript1 :=
        if truthy (javascript options) && isString (javascript options)
        then string2buffer (javascript options) else javascript options in
      let html2 := if negb (truthy html1) then Buf boilerplate else html1 in
      inr (mkState html2 javascript1 (open options)
             (match clbk with Function f => Some f | _ => None end)
             false None ∅ [] [] [],
           [Boot])
  end.

(** The life of a server once [boot] has called back: [httpServer]
    returned, the platform bound [server] on [address] and [port], and [evs]
    were delivered since.  The result is the state reached and everything
    the handlers did on the way. *)
Definition lifetime (SUPPORTS_BUFFER : bool) (boilerplate : list byte)
    (options : Options) (clbk : Argument) (server : nat) (address : string)
    (port : Z) (evs : list Event) : option (State * list Effect) :=
  match httpServer boilerplate options clbk with
  | inl _ => None
  | inr (st, effs) =>
      let '(st', effs') :=
        run SUPPORTS_BUFFER (EvServer None server address port :: evs) st in
      Some (st', effs ++ effs')
  end.

End Disposable.

(** * Properties of the platform's UTF-8 primitives *)

Module BufferSpec.
Import Buffer.
Local Open Scope Z_scope.

Lemma val_bounded b : 0 <= val b <= 255.
Proof. unfold val. pose proof (Byte.to_N_bounded b). lia. Qed.

Lemma val_byte_of z : 0 <= z <= 255 → val (byte_of z) = z.
Proof.
  intros Hz. unfold val, byte_of.
  destruct (Byte.of_N (Z.to_N z)) as [b|] eqn:E; simpl.
  - apply Byte.to_of_N in E. lia.
  - apply Byte.of_N_None_iff in E. lia.
Qed.

(** The bytes of a code point of each size, as [Buffer.byteLength] counts its
    code units. *)
Lemma byteLength_units2 cp s :
  0x80 <= cp <= 0x7FF → byteLength (units cp ++ s) = 2 + byteLength s.
Proof.
  intros H. unfold units. rewrite (proj2 (Z.ltb_lt _ _)) by lia. simpl.
  rewrite (proj2 (Z.ltb_ge _ _)) by lia. by rewrite (proj2 (Z.ltb_lt _ _)) by lia.
Qed.

Lemma byteLength_units3 cp s :
  0x800 <= cp <= 0xFFFF → ¬ 0xD800 <= cp <= 0xDFFF →
  byteLength (units cp ++ s) = 3 + byteLength s.
Proof.
  intros H Hs. unfold units. rewrite (proj2 (Z.ltb_lt _ _)) by lia. simpl.
  rewrite !(proj2 (Z.ltb_ge _ _)) by lia.
  unfold is_high, between.
  destruct (Z.leb_spec 0xD800 cp), (Z.leb_spec cp 0xDBFF); simpl; try done; lia.
Qed.

Lemma byteLength_units4 cp s :
  0x10000 <= cp <= 0x10FFFF → byteLength (units cp ++ s) = 4 + byteLength s.
Proof.
  intros H. unfold units. rewrite (proj2 (Z.ltb_ge _ _)) by lia. simpl.
  set (hi := 0xD800 + (cp - 0x10000) / 0x400).
  set (lo := 0xDC00 + (cp - 0x10000) mod 0x400).
  assert (0xD800 <= hi <= 0xDBFF) by (subst hi; Z.div_mod_to_equations; lia).
  assert (0xDC00 <= lo <= 0xDFFF) by (subst lo; Z.div_mod_to_equations; lia).
  rewrite !(proj2 (Z.ltb_ge _ _)) by lia.
  unfold is_high, is_low, between.
  rewrite !(proj2 (Z.leb_le _ _)) by lia. done.
Qed.

Lemma between_spec lo x hi : between lo x hi = true ↔ lo <= x <= hi.
Proof. unfold between. rewrite andb_true_iff, !Z.leb_le. done. Qed.

Lemma between_false lo x hi : between lo x hi = false ↔ ¬ lo <= x <= hi.
Proof. rewrite <- between_spec. by destruct (between lo x hi). Qed.

Lemma lower_upper x0 :
  0xE0 <= x0 <= 0xF4 →
  (x0 = 0xE0 ∧ lower x0 = 0xA0 ∧ upper x0 = 0xBF)
  ∨ (x0 = 0xED ∧ lower x0 = 0x80 ∧ upper x0 = 0x9F)
  ∨ (x0 = 0xF0 ∧ lower x0 = 0x90 ∧ upper x0 = 0xBF)
  ∨ (x0 = 0xF4 ∧ lower x0 = 0x80 ∧ upper x0 = 0x8F)
  ∨ (x0 ≠ 0xE0 ∧ x0 ≠ 0xED ∧ x0 ≠ 0xF0 ∧ x0 ≠ 0xF4
     ∧ lower x0 = 0x80 ∧ upper x0 = 0xBF).
Proof.
  intros H. unfold lower, upper.
  destruct (Z.eqb_spec x0 0xE0), (Z.eqb_spec x0 0xF0), (Z.eqb_spec x0 0xED),
    (Z.eqb_spec x0 0xF4); subst; try lia; auto 10.
Qed.

(** On a well-formed buffer, decoding and counting the bytes of the
    result gives back the number of bytes of the buffer. *)
Lemma byteLength_toString_le n : ∀ b,
  (length b ≤ n)%nat → well_formed b = true →
  byteLength (toString b) = Z.of_nat (length b).
Proof.
  induction n as [|n IH]; intros [|b0 r1] Hn Hw; simpl in Hn; try done; try lia.
  pose proof (val_bounded b0) as H0.
  cbn [toString well_formed] in *. cbn zeta in *.
  destruct (Z.leb_spec (val b0) 0x7F) as [H7|H7].
  { cbn [byteLength]. rewrite (proj2 (Z.ltb_lt _ _)) by lia.
    rewrite IH by (done || lia). cbn [length]. lia. }
  destruct (between 0xC2 (val b0) 0xDF) eqn:H2.
  { apply between_spec in H2.
    destruct r1 as [|b1 r2]; [done|].
    apply andb_true_iff in Hw as [H1 Hw]. rewrite H1.
    apply between_spec in H1.
    rewrite byteLength_units2 by lia.
    rewrite IH by (done || simpl in *; lia). cbn [length]. lia. }
  destruct (between 0xE0 (val b0) 0xEF) eqn:H3.
  { apply between_spec in H3.
    destruct r1 as [|b1 [|b2 r3]]; [done..|].
    apply andb_true_iff in Hw as [Hw Hw3]. apply andb_true_iff in Hw as [H1 Hb2].
    rewrite H1, Hb2. apply between_spec in H1, Hb2.
    rewrite byteLength_units3.
    - rewrite IH by (done || simpl in *; lia). cbn [length]. lia.
    - destruct (lower_upper (val b0)) as [H|[H|[H|[H|H]]]]; lia.
    - destruct (lower_upper (val b0)) as [H|[H|[H|[H|H]]]]; lia. }
  destruct (between 0xF0 (val b0) 0xF4) eqn:H4; [|done].
  apply between_spec in H4.
  destruct r1 as [|b1 [|b2 [|b3 r4]]]; [done..|].
  apply andb_true_iff in Hw as [Hw Hw4]. apply andb_true_iff in Hw as [Hw Hb3].
  apply andb_true_iff in Hw as [H1 Hb2].
  rewrite H1, Hb2, Hb3. apply between_spec in H1, Hb2, Hb3.
  rewrite byteLength_units4.
  - rewrite IH by (done || simpl in *; lia). cbn [length]. lia.
  - destruct (lower_upper (val b0)) as [H|[H|[H|[H|H]]]]; lia.
Qed.

Lemma byteLength_toString b :
  well_formed b = true → byteLength (toString b) = Z.of_nat (length b).
Proof. by apply (byteLength_toString_le (length b)). Qed.

(** Settles comparisons of byte values; quotients by constants are
    replaced by their defining equations first. *)
Local Ltac zlia := Z.div_mod_to_equations; lia.

Local Ltac decide_between :=
  repeat match goal with
    | |- context [between ?a ?b ?c] =>
        first [ rewrite (proj2 (between_spec a b c)) by zlia
              | rewrite (proj2 (between_false a b c)) by zlia ]
    | |- context [?a <=? ?b] =>
        first [ rewrite (proj2 (Z.leb_le a b)) by zlia
              | rewrite (proj2 (Z.leb_gt a b)) by zlia ]
    end.

Lemma well_formed_1 x r :
  0 <= x <= 0x7F → well_formed (byte_of x :: r) = well_formed r.
Proof.
  intros H. cbn [well_formed]. cbn zeta. rewrite val_byte_of by lia.
  by decide_between.
Qed.

Lemma well_formed_2 u r :
  0x80 <= u <= 0x7FF →
  well_formed (byte_of (0xC0 + u / 0x40) :: byte_of (0x80 + u mod 0x40) :: r)
  = well_formed r.
Proof.
  intros H. cbn [well_formed]. cbn zeta. rewrite !val_byte_of by zlia.
  by decide_between.
Qed.

Lemma well_formed_3 u r :
  0x800 <= u <= 0xFFFF → ¬ 0xD800 <= u <= 0xDFFF →
  well_formed (encode3 u ++ r) = well_formed r.
Proof.
  intros H Hs. unfold encode3. cbn [app well_formed]. cbn zeta.
  rewrite !val_byte_of by zlia.
  set (x0 := 0xE0 + u / 0x1000).
  assert (0xE0 <= x0 <= 0xEF) as Hx0 by (subst x0; zlia).
  destruct (lower_upper x0) as [H'|[H'|[H'|[H'|H']]]]; [lia|..];
    destruct H' as (? & H'); repeat (destruct H' as (? & H'));
    try match goal with Hl : lower x0 = _ |- _ => rewrite Hl end; rewrite H';
    subst x0; by decide_between.
Qed.

Lemma well_formed_4 cp r :
  0x10000 <= cp <= 0x10FFFF →
  well_formed (encode4 cp ++ r) = well_formed r.
Proof.
  intros H. unfold encode4. cbn [app well_formed]. cbn zeta.
  rewrite !val_byte_of by zlia.
  set (x0 := 0xF0 + cp / 0x40000).
  assert (0xF0 <= x0 <= 0xF4) as Hx0 by (subst x0; zlia).
  destruct (lower_upper x0) as [H'|[H'|[H'|[H'|H']]]]; [lia|..];
    destruct H' as (? & H'); repeat (destruct H' as (? & H'));
    try match goal with Hl : lower x0 = _ |- _ => rewrite Hl end; rewrite H';
    subst x0; by decide_between.
Qed.

Lemma encode3_REPLACEMENT r :
  well_formed (encode3 REPLACEMENT ++ r) = well_formed r.
Proof. apply well_formed_3; unfold REPLACEMENT; lia. Qed.

(** A JavaScript string: 16-bit code units. *)
Definition code_units (s : list Z) : Prop := Forall (λ u, 0 <= u <= 0xFFFF) s.

(** [Buffer.from( string )] is well-formed UTF-8. *)
Lemma well_formed_from_string_le n : ∀ s,
  (length s ≤ n)%nat → code_units s → well_formed (from_string s) = true.
Proof.
  induction n as [|n IH]; intros [|u s] Hn Hs; simpl in Hn; try done; try lia.
  apply Forall_cons in Hs as [Hu Hs].
  cbn [from_string].
  destruct (Z.ltb_spec u 0x80).
  { rewrite well_formed_1 by lia. apply IH; [lia|done]. }
  destruct (Z.ltb_spec u 0x800).
  { rewrite well_formed_2 by lia. apply IH; [lia|done]. }
  destruct (is_high u) eqn:Hh.
  { apply between_spec in Hh.
    destruct s as [|v s]; [by rewrite <- (app_nil_r (encode3 _)), encode3_REPLACEMENT|].
    apply Forall_cons in Hs as [Hv Hs'].
    destruct (is_low v) eqn:Hl.
    - apply between_spec in Hl. rewrite well_formed_4 by lia.
      apply IH; [simpl in Hn; lia|done].
    - rewrite encode3_REPLACEMENT. apply IH; [lia|by constructor]. }
  apply between_false in Hh.
  destruct (is_low u) eqn:Hl.
  { rewrite encode3_REPLACEMENT. apply IH; [lia|done]. }
  apply between_false in Hl.
  rewrite well_formed_3 by lia. apply IH; [lia|done].
Qed.

Lemma well_formed_from_string s :
  code_units s → well_formed (from_string s) = true.
Proof. by apply (well_formed_from_string_le (length s)). Qed.

(** [Buffer.byteLength( string )] is the length of [Buffer.from( string )]. *)
Lemma byteLength_from_string_le n : ∀ s,
  (length s ≤ n)%nat → byteLength s = Z.of_nat (length (from_string s)).
Proof.
  induction n as [|n IH]; intros [|u s] Hn; simpl in Hn; try done; try lia.
  cbn [from_string byteLength].
  destruct (u <? 0x80). { cbn [length]. rewrite IH by lia. lia. }
  destruct (u <? 0x800). { cbn [length]. rewrite IH by lia. lia. }
  destruct (is_high u).
  { destruct s as [|v s]; [done|].
    destruct (is_low v); rewrite length_app; cbn [length encode3 encode4].
    - rewrite IH by (simpl in Hn; lia). lia.
    - rewrite IH by lia. lia. }
  destruct (is_low u); rewrite length_app; cbn [length encode3];
    rewrite IH by lia; lia.
Qed.

Lemma byteLength_from_string s :
  byteLength s = Z.of_nat (length (from_string s)).
Proof. by apply (byteLength_from_string_le (length s)). Qed.
End BufferSpec.

(** * Properties of the port-hunting bind procedure *)

Module HttpServerSpec.
Import HttpServer.

Local Open Scope Z_scope.
Local Coercion Z.of_nat : nat >-> Z.

(** The callback an invocation passes validation with, if any. *)
Definition callback_of (inv : Invocation) : option nat :=
  match inv with
  | Call1 (VFunction f) => Some f
  | Call2 [VFunction f] => Some f
  | Call2 (VObject _ :: VFunction f :: _) => Some f
  | _ => None
  end.

Definition in_use (r : ListenResult) : bool :=
  match r with
  | Fails e => bool_decide (code e = Some "EADDRINUSE")
  | Free => false
  end.

Definition registered (f : nat) (server : nat) (st : State) : Prop :=
  servers st !! server = Some (mkServer f true).

(** The state an accepted invocation leaves behind it. *)
Definition started (f : nat) (st : State) : State :=
  mkState (clo st) (<[next_server st := mkServer f true]> (servers st))
    (S (next_server st)).

Definition bound_state (server f : nat) (st : State) : State :=
  mkState (clo st) (<[server := mkServer f false]> (servers st)) (next_server st).

Lemma invoke_valid SO inv st f :
  callback_of inv = Some f →
  ∃ opts, invoke SO inv st = start SO st opts f.
Proof.
  destruct inv as [[]|[|[] [|[] ?]]]; simpl; intros; simplify_eq; eauto.
Qed.

Lemma invoke_invalid SO inv st :
  callback_of inv = None →
  ∃ e, invoke SO inv st = mkResult (Throw e) st [].
Proof.
  destruct inv as [[]|[|[] [|[] ?]]]; simpl; intros; simplify_eq; eauto.
Qed.

Lemma listening_on_singleton server p h :
  listening_on server [Listen server p h] = Some p.
Proof. unfold listening_on. simpl. by rewrite decide_True. Qed.

Lemma listening_on_start SO st opts f :
  listening_on (next_server st) (effects (start SO st opts f))
  = Some (port (clo st)).
Proof.
  unfold listening_on, start, createServer. simpl.
  destruct (requestListener (clo st)), SO; simpl; by rewrite decide_True.
Qed.

Lemma attempts_start SO st opts f :
  attempts (effects (start SO st opts f)) = [port (clo st)].
Proof.
  unfold start, createServer. simpl.
  by destruct (requestListener (clo st)), SO.
Qed.

Lemma callbacks_start SO st opts f :
  callbacks (effects (start SO st opts f)) = [].
Proof.
  unfold start, createServer. simpl.
  by destruct (requestListener (clo st)), SO.
Qed.

Lemma registered_start SO st opts f :
  registered f (next_server st) (state (start SO st opts f)).
Proof. unfold registered. simpl. by rewrite lookup_insert_eq. Qed.

(** One answer of the platform, by cases. *)

Lemma hunt_free fuel plat server p st f :
  registered f server st → plat p = Free →
  hunt fuel plat server p st
  = mkRun (Bound server) (bound_state server f st) [Callback f None server].
Proof.
  unfold registered. intros Hs Hp.
  destruct fuel; simpl; unfold answer; rewrite Hp; simpl; rewrite Hs; simpl;
    by rewrite ?Hp.
Qed.

Lemma hunt_other fuel plat server p st f e :
  registered f server st → plat p = Fails e →
  bool_decide (code e = Some "EADDRINUSE") = false →
  hunt fuel plat server p st = mkRun (Failed e) st [].
Proof.
  unfold registered. intros Hs Hp He.
  destruct fuel; simpl; unfold answer; rewrite Hp; simpl; rewrite Hs;
    unfold errorListener; by rewrite He.
Qed.

Lemma hunt_ceiling fuel plat server p st f e :
  registered f server st → plat p = Fails e →
  bool_decide (code e = Some "EADDRINUSE") = true →
  max (clo st) < port (clo st) + 1 →
  hunt fuel plat server p st
  = mkRun (Failed e) (set_port (port (clo st) + 1) st) [].
Proof.
  unfold registered. intros Hs Hp He Hm.
  apply Z.leb_gt in Hm.
  destruct fuel; simpl; unfold answer; rewrite Hp; simpl; rewrite Hs;
    unfold errorListener; rewrite He; simpl; by rewrite Hm.
Qed.

Lemma hunt_retry fuel plat server p st f e :
  registered f server st → plat p = Fails e →
  bool_decide (code e = Some "EADDRINUSE") = true →
  port (clo st) + 1 <= max (clo st) →
  let st1 := set_port (port (clo st) + 1) st in
  let run := hunt fuel plat server (port (clo st) + 1) st1 in
  hunt (S fuel) plat server p st
  = mkRun (outcome run) (final run)
      (Listen server (port (clo st) + 1) (hostname (clo st)) :: trace run).
Proof.
  unfold registered. intros Hs Hp He Hm.
  apply Z.leb_le in Hm.
  simpl. unfold answer. rewrite Hp. simpl. rewrite Hs.
  unfold errorListener. rewrite He. simpl. rewrite Hm. simpl.
  by rewrite ?Hp, listening_on_singleton.
Qed.

(** What [set_port] leaves alone. *)

Lemma set_port_port p st : port (clo (set_port p st)) = p.
Proof. done. Qed.

Lemma set_port_max p st : max (clo (set_port p st)) = max (clo st).
Proof. done. Qed.

Lemma set_port_hostname p st : hostname (clo (set_port p st)) = hostname (clo st).
Proof. done. Qed.

Lemma set_port_registered p f server st :
  registered f server st → registered f server (set_port p st).
Proof. done. Qed.

Lemma retries_left_S st :
  port (clo st) + 1 <= max (clo st) →
  retries_left st = S (retries_left (set_port (port (clo st) + 1) st)).
Proof. unfold retries_left. simpl. lia. Qed.

(** The shape of every hunt: [k] consecutive occupied ports are passed, and
    the answer on the next one decides the outcome. *)
Inductive HuntEnd (plat : Z → ListenResult) (server f : nat) (st : State)
    (k : nat) (run : Run) : Prop :=
| EndBound :
    plat (port (clo st) + k) = Free →
    outcome run = Bound server →
    port (clo (final run)) = port (clo st) + k →
    servers (final run) = <[server := mkServer f false]> (servers st) →
    callbacks (trace run) = [(f, None, server)] →
    HuntEnd plat server f st k run
| EndOther e :
    plat (port (clo st) + k) = Fails e →
    bool_decide (code e = Some "EADDRINUSE") = false →
    outcome run = Failed e →
    port (clo (final run)) = port (clo st) + k →
    servers (final run) = servers st →
    callbacks (trace run) = [] →
    HuntEnd plat server f st k run
| EndCeiling e :
    plat (port (clo st) + k) = Fails e →
    bool_decide (code e = Some "EADDRINUSE") = true →
    max (clo st) <= port (clo st) + k →
    outcome run = Failed e →
    port (clo (final run)) = port (clo st) + k + 1 →
    servers (final run) = servers st →
    callbacks (trace run) = [] →
    HuntEnd plat server f st k run.

(** Closes the case of a hunt that ends on its first answer. *)
Local Ltac hunt_stop c :=
  exists 0%nat; simpl; split_and!;
  [ done | intros; lia | by left | done | done
  | eapply c; simpl; rewrite ?Z.add_0_r; (done || lia) ].

Lemma hunt_shape plat server f fuel : ∀ st,
  registered f server st →
  (retries_left st ≤ fuel)%nat →
  let run := hunt fuel plat server (port (clo st)) st in
  ∃ k : nat,
    attempts (trace run) = seqZ (port (clo st) + 1) k
    ∧ (∀ p, port (clo st) <= p < port (clo st) + k → in_use (plat p) = true)
    ∧ (k = 0%nat ∨ port (clo st) + k <= max (clo st))
    ∧ max (clo (final run)) = max (clo st)
    ∧ next_server (final run) = next_server st
    ∧ HuntEnd plat server f st k run.
Proof.
  induction fuel as [|fuel IH]; intros st Hreg Hfuel run; subst run.
  - destruct (plat (port (clo st))) as [|e] eqn:Hp.
    { rewrite (hunt_free _ _ _ _ _ f) by done. hunt_stop EndBound. }
    destruct (bool_decide (code e = Some "EADDRINUSE")) eqn:He.
    + destruct (Z_le_gt_dec (port (clo st) + 1) (max (clo st))) as [Hm|Hm].
      { unfold retries_left in Hfuel. lia. }
      rewrite (hunt_ceiling _ _ _ _ _ f e) by (done || lia).
      hunt_stop (EndCeiling plat server f st 0%nat).
    + rewrite (hunt_other _ _ _ _ _ f e) by done.
      hunt_stop (EndOther plat server f st 0%nat).
  - destruct (plat (port (clo st))) as [|e] eqn:Hp.
    { rewrite (hunt_free _ _ _ _ _ f) by done. hunt_stop EndBound. }
    destruct (bool_decide (code e = Some "EADDRINUSE")) eqn:He.
    + destruct (Z_le_gt_dec (port (clo st) + 1) (max (clo st))) as [Hm|Hm].
      * rewrite (hunt_retry _ _ _ _ _ f e) by done.
        set (st1 := set_port (port (clo st) + 1) st).
        destruct (IH st1) as (k & Hatt & Huse & Hk & Hmax & Hnext & Hend).
        { by apply set_port_registered. }
        { rewrite (retries_left_S st) in Hfuel by done. subst st1. lia. }
        exists (S k). simpl in *. split_and!; try done.
        { rewrite Hatt. rewrite (seqZ_cons (port (clo st) + 1) (S k)) by lia.
          do 2 f_equal; lia. }
        { intros p Hr. destruct (decide (p = port (clo st))) as [->|Hne].
          - unfold in_use. by rewrite Hp.
          - apply Huse. lia. }
        { right; lia. }
        destruct Hend as [H1 H2 H3 H4 H5|e' H1 H2 H3 H4 H5 H6|e' H1 H2 H3 H4 H5 H6 H7];
          simpl in *;
          [ apply EndBound | apply (EndOther _ _ _ _ _ _ e')
          | apply (EndCeiling _ _ _ _ _ _ e') ];
          simpl; try done; try lia; rewrite <- H1; f_equal; lia.
      * rewrite (hunt_ceiling _ _ _ _ _ f e) by (done || lia).
        hunt_stop (EndCeiling plat server f st 0%nat).
    + rewrite (hunt_other _ _ _ _ _ f e) by done.
      hunt_stop (EndOther plat server f st 0%nat).
Qed.

Lemma attempts_app l1 l2 : attempts (l1 ++ l2) = attempts l1 ++ attempts l2.
Proof. apply omap_app. Qed.

Lemma callbacks_app l1 l2 : callbacks (l1 ++ l2) = callbacks l1 ++ callbacks l2.
Proof. apply omap_app. Qed.

Lemma HuntEnd_transfer plat server f st k run run' :
  HuntEnd plat server f st k run →
  outcome run' = outcome run → final run' = final run →
  callbacks (trace run') = callbacks (trace run) →
  HuntEnd plat server f st k run'.
Proof.
  intros [H1 H2 H3 H4 H5|e H1 H2 H3 H4 H5 H6|e H1 H2 H3 H4 H5 H6 H7] Ho Hf Hc;
    [ apply EndBound | apply (EndOther _ _ _ _ _ _ e)
    | apply (EndCeiling _ _ _ _ _ _ e) ]; congruence.
Qed.

(** The shape of every run of the bind procedure that passes the check of
    its callback argument. *)
Lemma bind_shape SO plat inv st f :
  callback_of inv = Some f →
  let run := bind SO plat inv st in
  state (invoke SO inv st) = started f st
  ∧ ∃ k : nat,
    attempts (trace run) = seqZ (port (clo st)) (S k)
    ∧ (∀ p, port (clo st) <= p < port (clo st) + k → in_use (plat p) = true)
    ∧ (k = 0%nat ∨ port (clo st) + k <= max (clo st))
    ∧ max (clo (final run)) = max (clo st)
    ∧ next_server (final run) = S (next_server st)
    ∧ HuntEnd plat (next_server st) f (started f st) k run.
Proof.
  intros Hcb run. subst run. unfold bind.
  destruct (invoke_valid SO inv st f Hcb) as [opts ->].
  split; [done|].
  unfold drive. rewrite listening_on_start.
  change (completion (start SO st opts f)) with Normal. cbv iota.
  set (st0 := state (start SO st opts f)).
  destruct (hunt_shape plat (next_server st) f (retries_left st) st0)
    as (k & Hatt & Huse & Hk & Hmax & Hnext & Hend).
  { apply registered_start. }
  { done. }
  exists k. cbn [trace final outcome]. split_and!; try done.
  - rewrite attempts_app, attempts_start.
    change (port (clo st0)) with (port (clo st)) in Hatt. rewrite Hatt.
    rewrite (seqZ_cons (port (clo st)) (S k)) by lia.
    do 2 f_equal; lia.
  - eapply HuntEnd_transfer; [exact Hend|done|done|].
    cbn [trace]. by rewrite callbacks_app, callbacks_start.
Qed.

Lemma bind_invalid SO plat inv st :
  callback_of inv = None →
  ∃ e, bind SO plat inv st = mkRun (Failed e) st [].
Proof.
  intros Hcb. destruct (invoke_invalid SO inv st Hcb) as [e He].
  exists e. unfold bind. by rewrite He.
Qed.

Lemma factory_configured P M ho ad ex c :
  factory [VObject (mkOptions (Some P) (Some M) ho ad ex)] = inr c →
  port c = P ∧ max c = M.
Proof. simpl. intros [= <-]. done. Qed.

Lemma factory_configured_listener P M ho ad ex l c :
  factory [VObject (mkOptions (Some P) (Some M) ho ad ex); VFunction l] = inr c →
  port c = P ∧ max c = M.
Proof. simpl. intros [= <-]. done. Qed.

Lemma factory_default_max P ho ad ex c :
  factory [VObject (mkOptions (Some P) None ho ad ex)] = inr c →
  port c = P ∧ max c = P.
Proof. simpl. intros [= <-]. done. Qed.

(** C1: from a freshly configured factory with port [P] and maxport [M],
    (a) if [P <= M], the ports [P..M-1] answer address-in-use and [M] is
    free, the bind procedure binds on [M] after exactly [M-P+1] listen calls
    on [P, P+1, ..., M] in this order; (b) if [M < P] there is exactly one
    listen call, on [P], and an address-in-use answer there is thrown at
    once. *)
Theorem C1_port_hunt_attempts SO plat args c inv f :
  factory args = inr c →
  callback_of inv = Some f →
  let P := port c in
  let M := max c in
  let run := bind SO plat inv (init c) in
  (P <= M → (∀ p, P <= p < M → in_use (plat p) = true) → plat M = Free →
     outcome run = Bound 0%nat
     ∧ attempts (trace run) = seqZ P (M - P + 1)
     ∧ length (attempts (trace run)) = Z.to_nat (M - P + 1)
     ∧ last (attempts (trace run)) = Some M
     ∧ port (clo (final run)) = M
     ∧ callbacks (trace run) = [(f, None, 0%nat)])
  ∧ (M < P →
     attempts (trace run) = [P]
     ∧ ∀ e, plat P = Fails e → code e = Some "EADDRINUSE" →
         outcome run = Failed e ∧ callbacks (trace run) = []).
Proof.
  intros _ Hcb P M run.
  destruct (bind_shape SO plat inv (init c) f Hcb)
    as (_ & k & Hatt & Huse & Hk & _ & _ & Hend).
  fold run in Hatt, Hend.
  change (port (clo (init c))) with P in *.
  change (max (clo (init c))) with M in *.
  change (next_server (init c)) with 0%nat in *.
  split.
  - intros HPM Hocc Hfree.
    assert (P + k = M) as HkM.
    { destruct Hend as [H1 _ _ _ _|e H1 H2 _ _ _ _|e H1 H2 H3 _ _ _ _];
        simpl in *; fold P in H1.
      - destruct (decide (P + k < M)) as [Hlt|]; [|lia].
        specialize (Hocc (P + k) ltac:(lia)). rewrite H1 in Hocc. done.
      - destruct (decide (P + k < M)) as [Hlt|].
        + specialize (Hocc (P + k) ltac:(lia)).
          rewrite H1 in Hocc. simpl in Hocc. congruence.
        + assert (P + k = M) as HE by lia. rewrite HE in H1. congruence.
      - fold P M in H3. assert (P + k = M) as HE by lia.
        rewrite HE in H1. congruence. }
    assert (attempts (trace run) = seqZ P (M - P + 1)) as Hseq.
    { rewrite Hatt. f_equal. lia. }
    destruct Hend as [H1 H2 H3 H4 H5|e H1 H2 _ _ _ _|e H1 H2 H3 _ _ _ _];
      simpl in *; fold P in H1; rewrite HkM in H1; [|congruence..].
    split_and!; try done.
    + by rewrite Hseq, length_seqZ.
    + rewrite Hatt, seqZ_S, last_snoc. by rewrite HkM.
    + fold P in H3. lia.
  - intros HMP.
    assert (k = 0%nat) as -> by (destruct Hk; lia).
    split; [by rewrite Hatt|].
    intros e He Hcode. apply (bool_decide_eq_true_2 _) in Hcode.
    destruct Hend as [H1 _ _ _ _|e' H1 H2 _ _ _ _|e' H1 H2 H3 H4 _ _ H7];
      simpl in *; fold P in H1; rewrite Z.add_0_r in H1;
      rewrite He in H1; simplify_eq; [congruence|done].
Qed.

(** A platform on which every port but 8082 is in use. *)
Definition plat_8082 (p : Z) : ListenResult :=
  if decide (p = 8082) then Free else Fails (SystemError "EADDRINUSE" "in use").

(** C1 at 8080..8082 with 8080 and 8081 occupied, and at port 9000 with
    maxport 8000 and 9000 occupied. *)
Lemma C1_port_hunt_attempts_witness :
  (let c := mkClosure None [] "127.0.0.1" 8080 8082 in
   let run := bind true plat_8082 (Call1 (VFunction 7)) (init c) in
   outcome run = Bound 0%nat
   ∧ attempts (trace run) = [8080; 8081; 8082]
   ∧ callbacks (trace run) = [(7%nat, None, 0%nat)])
  ∧ (let c := mkClosure None [] "127.0.0.1" 9000 8000 in
     let run := bind true plat_8082 (Call2 [VFunction 7]) (init c) in
     outcome run = Failed (SystemError "EADDRINUSE" "in use")
     ∧ attempts (trace run) = [9000]
     ∧ callbacks (trace run) = []).
Proof.
  split.
  - intros c run.
    destruct (C1_port_hunt_attempts true plat_8082
                [VObject (mkOptions (Some 8080) (Some 8082) None None [])]
                c (Call1 (VFunction 7)) 7%nat eq_refl eq_refl) as [Hup _].
    destruct Hup as (H1 & H2 & _ & _ & _ & H6).
    + simpl; lia.
    + intros p Hp. simpl in Hp. unfold plat_8082.
      rewrite decide_False by lia. done.
    + reflexivity.
    + split_and!; [exact H1|exact H2|exact H6].
  - intros c run.
    destruct (C1_port_hunt_attempts true plat_8082
                [VObject (mkOptions (Some 9000) (Some 8000) None None [])]
                c (Call2 [VFunction 7]) 7%nat eq_refl eq_refl) as [_ Hdown].
    destruct Hdown as [H1 H2]; [simpl; lia|].
    destruct (H2 (SystemError "EADDRINUSE" "in use") eq_refl eq_refl) as [H3 H4].
    split_and!; [exact H3|exact H1|exact H4].
Defined.

(** When [errorListener] retries. *)
Definition retries (error : JsError) (st : State) : Prop :=
  code error = Some "EADDRINUSE" ∧ port (clo st) < max (clo st).

Global Instance retries_dec error st : Decision (retries error st).
Proof. unfold retries. apply _. Defined.

Lemma errorListener_retry server error st :
  retries error st →
  errorListener server error st
  = mkResult Normal (set_port (port (clo st) + 1) st)
      [Listen server (port (clo st) + 1) (hostname (clo st))].
Proof.
  intros [Hc Hp]. unfold errorListener.
  rewrite (bool_decide_eq_true_2 _ Hc). simpl.
  by rewrite (proj2 (Z.leb_le _ _)) by lia.
Qed.

Lemma errorListener_throw server error st :
  ¬ retries error st →
  completion (errorListener server error st) = Throw error
  ∧ effects (errorListener server error st) = [].
Proof.
  intros Hn. unfold errorListener.
  destruct (bool_decide (code error = Some "EADDRINUSE")) eqn:Hc; [|done].
  apply bool_decide_eq_true in Hc. simpl.
  destruct (Z.leb_spec (port (clo st) + 1) (max (clo st))); [|done].
  destruct Hn. split; [done|lia].
Qed.

Lemma emit_callback_null ev st c :
  c ∈ callbacks (effects (emit ev st)) → c.1.2 = None.
Proof.
  destruct ev as [server|server error]; simpl.
  - destruct (servers st !! server) as [[f []]|]; simpl;
      rewrite ?list_elem_of_singleton; [by intros ->|inversion 1..].
  - destruct (servers st !! server); simpl; [|inversion 1].
    unfold errorListener.
    destruct (bool_decide _); simpl; [|inversion 1].
    destruct (_ <=? _); simpl; inversion 1.
Qed.

(** The ports [server.listen] accepts; on any other it throws a
    [RangeError] instead of answering with an event, which the [Listen]
    effect does not show. *)
Definition accepted_port (p : Z) : Prop := 0 <= p <= 65535.

(** C2 (amended): an error event reaches a server that is still hunting
    (its ['listening'] has not been emitted); [p] is the value of the
    shared [port] as the listener runs, and [p+1] is a port the platform
    accepts.  Then the listener issues a listen call on [p+1], and makes
    [p+1] the shared port, if and only if the error code is EADDRINUSE and
    [p < max]; in every other case the very error it received is thrown,
    with no listen call and no callback; and no callback of the package
    ever carries an error.  A bind procedure that hunts alone attempts
    consecutive ports from the shared [port] on, so that there [p] is the
    port of the failed attempt. *)
Theorem C2_retry_iff_in_use_below_max server f error st :
  registered f server st →
  accepted_port (port (clo st) + 1) →
  let p := port (clo st) in
  let r := emit (EvError server error) st in
  (retries error st ↔
     completion r = Normal
     ∧ effects r = [Listen server (p + 1) (hostname (clo st))]
     ∧ port (clo (state r)) = p + 1)
  ∧ (¬ retries error st ↔
     completion r = Throw error ∧ attempts (effects r) = []
     ∧ callbacks (effects r) = [])
  ∧ (∀ ev st' c, c ∈ callbacks (effects (emit ev st')) → c.1.2 = None)
  ∧ (∀ SO plat inv st0 f0,
       callback_of inv = Some f0 →
       ∃ k : nat,
         attempts (trace (bind SO plat inv st0)) = seqZ (port (clo st0)) (S k)).
Proof.
  intros Hreg _ p r.
  assert (r = errorListener server error st) as ->.
  { subst r. simpl. unfold registered in Hreg. by rewrite Hreg. }
  subst p. split_and!.
  - split.
    + intros H. by rewrite (errorListener_retry _ _ _ H).
    + intros (Hc & _ & _). destruct (decide (retries error st)) as [|Hn]; [done|].
      destruct (errorListener_throw server error st Hn) as [Ht _]. congruence.
  - split.
    + intros Hn. destruct (errorListener_throw server error st Hn) as [-> ->].
      done.
    + intros (Hc & _ & _) H. rewrite (errorListener_retry _ _ _ H) in Hc. done.
  - apply emit_callback_null.
  - intros SO plat inv st0 f0 Hcb.
    destruct (bind_shape SO plat inv st0 f0 Hcb) as (_ & k & Hatt & _).
    by exists k.
Qed.

(** C2 on both sides of the ceiling, on a server that has just been
    started on 8080 with ceiling 8081. *)
Lemma C2_retry_iff_in_use_below_max_witness :
  let st := started 7 (init (mkClosure None [] "127.0.0.1" 8080 8081)) in
  let e := SystemError "EADDRINUSE" "in use" in
  effects (emit (EvError 0 e) st) = [Listen 0%nat 8081 "127.0.0.1"]
  ∧ completion (emit (EvError 0 e) (set_port 8081 st)) = Throw e
  ∧ completion (emit (EvError 0 (SystemError "EACCES" "denied")) st)
    = Throw (SystemError "EACCES" "denied").
Proof.
  intros st e. split_and!.
  - destruct (C2_retry_iff_in_use_below_max 0%nat 7%nat e st) as ([H _] & _).
    + reflexivity.
    + unfold accepted_port. simpl. lia.
    + apply H. split; [reflexivity|simpl; lia].
  - destruct (C2_retry_iff_in_use_below_max 0%nat 7%nat e (set_port 8081 st))
      as (_ & [H _] & _).
    + reflexivity.
    + unfold accepted_port. simpl. lia.
    + apply H. intros [_ Hlt]. simpl in Hlt. lia.
  - destruct (C2_retry_iff_in_use_below_max 0%nat 7%nat
                (SystemError "EACCES" "denied") st) as (_ & [H _] & _).
    + reflexivity.
    + unfold accepted_port. simpl. lia.
    + apply H. intros [Hc _]. discriminate Hc.
Defined.

(** C2 as stated fails when two invocations of one bind procedure hunt at
    once.  Both servers attempt 8080, with ceiling 8081, and 8080 is in
    use.  The first error moves the shared port to 8081; the second server,
    whose failed attempt was on 8080, below the ceiling, then finds the
    shared port at the ceiling: its error is thrown and it does not go on
    to 8081. *)
Lemma C2_counterexample_overlapping_invocations :
  let e := SystemError "EADDRINUSE" "in use" in
  let st0 := init (mkClosure None [] "127.0.0.1" 8080 8081) in
  let r1 := invoke true (Call1 (VFunction 1)) st0 in
  let r2 := invoke true (Call1 (VFunction 2)) (state r1) in
  let r3 := emit (EvError 0 e) (state r2) in
  let r4 := emit (EvError 1 e) (state r3) in
  listening_on 1 (effects r1 ++ effects r2 ++ effects r3) = Some 8080
  ∧ registered 2 1 (state r3)
  ∧ code e = Some "EADDRINUSE"
  ∧ 8080 < max (clo (state r3))
  ∧ effects r3 = [Listen 0%nat 8081 "127.0.0.1"]
  ∧ completion r4 = Throw e
  ∧ attempts (effects r4) = [].
Proof.
  split_and!; reflexivity.
Qed.

(** Once [onListen] has run it is detached: no later event reaches the
    callback of that server again. *)
Lemma emit_detached ev st server f :
  servers st !! server = Some (mkServer f false) →
  servers (state (emit ev st)) !! server = Some (mkServer f false)
  ∧ Forall (λ c, c.2 ≠ server) (callbacks (effects (emit ev st))).
Proof.
  intros Hs. destruct ev as [s|s error]; simpl.
  - destruct (decide (s = server)) as [->|Hne].
    + rewrite Hs. done.
    + destruct (servers st !! s) as [[g []]|] eqn:Hg; simpl; try done.
      rewrite lookup_insert_ne by done. split; [done|].
      by apply Forall_singleton.
  - destruct (servers st !! s); simpl; [|done].
    unfold errorListener. destruct (bool_decide _); simpl; [|done].
    destruct (_ <=? _); simpl; done.
Qed.

Lemma deliver_detached evs : ∀ st server f,
  servers st !! server = Some (mkServer f false) →
  Forall (λ c, c.2 ≠ server) (callbacks (deliver evs st).2).
Proof.
  induction evs as [|ev evs IH]; intros st server f Hs; simpl; [done|].
  destruct (emit_detached ev st server f Hs) as [Hs' Hc].
  specialize (IH (state (emit ev st)) server f Hs').
  destruct (deliver evs (state (emit ev st))) as [st' effs]. simpl in *.
  rewrite callbacks_app. by apply Forall_app.
Qed.

(** C5: every invocation of the bind procedure ends bound or failed.  When
    it ends bound, the platform answered the last listen call with
    ['listening'] and the callback was invoked exactly once, with [null]
    and the server, and no later event invokes it again; when it ends
    failed (ceiling exceeded, another error, or a rejected argument), the
    error is thrown and the callback was not invoked at all.  And the
    success path is taken: an invocation with a callback, whose hunt
    passes [k] ports in use and then reaches, at or below the ceiling, a
    port that answers ['listening'], ends bound to its server with that
    one call of the callback; one that finds every port up to the ceiling
    in use ends failed with the last error and no call. *)
Theorem C5_callback_once_on_success SO plat inv st :
  let run := bind SO plat inv st in
  match outcome run with
  | Bound s =>
      s = next_server st
      ∧ (∃ f, callback_of inv = Some f
              ∧ callbacks (trace run) = [(f, None, s)])
      ∧ (∃ p, last (attempts (trace run)) = Some p ∧ plat p = Free)
      ∧ ∀ evs, Forall (λ c, c.2 ≠ s) (callbacks (deliver evs (final run)).2)
  | Failed e => callbacks (trace run) = []
  | Stalled | OutOfFuel => False
  end
  ∧ (∀ f (k : nat),
       callback_of inv = Some f →
       (∀ p, port (clo st) <= p < port (clo st) + k → in_use (plat p) = true) →
       plat (port (clo st) + k) = Free →
       k = 0%nat ∨ port (clo st) + k <= max (clo st) →
       outcome run = Bound (next_server st)
       ∧ callbacks (trace run) = [(f, None, next_server st)]
       ∧ last (attempts (trace run)) = Some (port (clo st) + k))
  ∧ (∀ f,
       callback_of inv = Some f →
       port (clo st) <= max (clo st) →
       (∀ p, port (clo st) <= p <= max (clo st) → in_use (plat p) = true) →
       ∃ e, plat (max (clo st)) = Fails e
            ∧ outcome run = Failed e
            ∧ callbacks (trace run) = []).
Proof.
  intros run. split_and!.
  - destruct (callback_of inv) as [f|] eqn:Hcb.
    + destruct (bind_shape SO plat inv st f Hcb)
        as (_ & k & Hatt & _ & _ & _ & _ & Hend).
      fold run in Hatt, Hend.
      destruct Hend as [H1 H2 H3 H4 H5|e H1 H2 H3 H4 H5 H6|e H1 H2 H3 H4 H5 H6 H7];
        rewrite ?H2, ?H3, ?H4; try done.
      split_and!; [done|by exists f| |].
      * exists (port (clo st) + k). split; [|done].
        by rewrite Hatt, seqZ_S, last_snoc.
      * intros evs. apply (deliver_detached evs _ _ f).
        rewrite H4. apply lookup_insert_eq.
    + destruct (bind_invalid SO plat inv st Hcb) as [e He].
      subst run. by rewrite He.
  - intros f k Hcb Huse Hfree Hk.
    destruct (bind_shape SO plat inv st f Hcb)
      as (_ & k' & Hatt & Huse' & Hk' & _ & _ & Hend).
    fold run in Hatt, Hend.
    assert (in_use (plat (port (clo st) + k)) = false) as Hnot
      by (by rewrite Hfree).
    assert (k' = k) as ->.
    { destruct (decide (k' < k)%nat) as [Hlt|Hge].
      - assert (in_use (plat (port (clo st) + k')) = true) as Hin
          by (apply Huse; lia).
        destruct Hend as [H1 _ _ _ _|e H1 H2 _ _ _ _|e H1 H2 H3 _ _ _ _];
          cbn [started clo port max] in *.
        + by rewrite H1 in Hin.
        + rewrite H1 in Hin. simpl in Hin. congruence.
        + lia.
      - destruct (decide (k' = k)) as [|Hne]; [done|].
        rewrite Huse' in Hnot by lia. done. }
    destruct Hend as [H1 H2 H3 H4 H5|e H1 _ _ _ _ _|e H1 _ _ _ _ _ _];
      cbn [started clo port max] in *; [|congruence|congruence].
    split_and!; [done|done|].
    by rewrite Hatt, seqZ_S, last_snoc.
  - intros f Hcb Hle Huse.
    destruct (bind_shape SO plat inv st f Hcb)
      as (_ & k & _ & _ & Hk & _ & _ & Hend).
    fold run in Hend.
    assert (in_use (plat (port (clo st) + k)) = true) as Hin
      by (apply Huse; lia).
    destruct Hend as [H1 _ _ _ _|e H1 H2 _ _ _ _|e H1 H2 H3 H4 _ _ H7];
      cbn [started clo port max] in *.
    + by rewrite H1 in Hin.
    + rewrite H1 in Hin. simpl in Hin. congruence.
    + assert (port (clo st) + k = max (clo st)) as Heq by lia.
      rewrite Heq in H1. by exists e.
Qed.

(** C5 at 8080..8082 with 8080 and 8081 in use, and at 8080..8081 with
    both in use. *)
Lemma C5_callback_once_on_success_witness :
  (let run := bind true plat_8082 (Call1 (VFunction 7))
                (init (mkClosure None [] "127.0.0.1" 8080 8082)) in
   outcome run = Bound 0%nat
   ∧ callbacks (trace run) = [(7%nat, None, 0%nat)]
   ∧ last (attempts (trace run)) = Some 8082)
  ∧ (let run := bind true plat_8082 (Call1 (VFunction 7))
                  (init (mkClosure None [] "127.0.0.1" 8080 8081)) in
     outcome run = Failed (SystemError "EADDRINUSE" "in use")
     ∧ callbacks (trace run) = []).
Proof.
  split.
  - destruct (C5_callback_once_on_success true plat_8082 (Call1 (VFunction 7))
                (init (mkClosure None [] "127.0.0.1" 8080 8082)))
      as (_ & H & _).
    apply (H 7%nat 2%nat); [reflexivity| |reflexivity|right; simpl; lia].
    intros p Hp. simpl in Hp. unfold plat_8082. by rewrite decide_False by lia.
  - destruct (C5_callback_once_on_success true plat_8082 (Call1 (VFunction 7))
                (init (mkClosure None [] "127.0.0.1" 8080 8081)))
      as (_ & _ & H).
    destruct (H 7%nat) as (e & He & Ho & Hc); [reflexivity|simpl; lia| |].
    + intros p Hp. simpl in Hp. unfold plat_8082. by rewrite decide_False by lia.
    + cbv zeta. split; [|exact Hc]. rewrite Ho. f_equal.
      unfold plat_8082 in He. simpl in He. by injection He as <-.
Defined.

(** The number of address-in-use answers among the listen calls of a trace. *)
Definition conflicts (plat : Z → ListenResult) (effs : list Effect) : nat :=
  length (filter (λ p, in_use (plat p) = true) (attempts effs)).

Lemma filter_all_seqZ (plat : Z → ListenResult) m (k : nat) :
  (∀ p, m <= p < m + k → in_use (plat p) = true) →
  filter (λ p, in_use (plat p) = true) (seqZ m k) = seqZ m k.
Proof.
  intros H. apply (proj2 (Forall_seqZ _ _ _)) in H.
  induction H as [|p l Hp Hl IH]; [done|].
  rewrite filter_cons_True by done. by f_equal.
Qed.

Lemma errorListener_port_mono server error st :
  port (clo st) <= port (clo (state (errorListener server error st))).
Proof.
  unfold errorListener. destruct (bool_decide _); simpl; [|lia].
  destruct (_ <=? _); simpl; lia.
Qed.

Lemma emit_port_mono ev st : port (clo st) <= port (clo (state (emit ev st))).
Proof.
  destruct ev as [s|s error]; simpl.
  - destruct (servers st !! s) as [[g []]|]; simpl; lia.
  - destruct (servers st !! s); simpl; [|lia]. apply errorListener_port_mono.
Qed.

Lemma deliver_port_mono evs : ∀ st,
  port (clo st) <= port (clo (deliver evs st).1).
Proof.
  induction evs as [|ev evs IH]; intros st; simpl; [lia|].
  specialize (IH (state (emit ev st))). pose proof (emit_port_mono ev st).
  destruct (deliver evs (state (emit ev st))). simpl in *. lia.
Qed.

Lemma invoke_clo SO inv st : clo (state (invoke SO inv st)) = clo st.
Proof.
  destruct (callback_of inv) as [f|] eqn:Hcb.
  - by destruct (invoke_valid SO inv st f Hcb) as [opts ->].
  - by destruct (invoke_invalid SO inv st Hcb) as [e ->].
Qed.

(** C10: [port] belongs to the closure of the factory.  A run of the bind
    procedure leaves it at its initial value plus the number of
    address-in-use answers it handled; no event and no invocation ever
    lowers or resets it; and the next invocation of the same bind procedure
    makes its first listen call on that value. *)
Theorem C10_port_shared_across_invocations SO plat inv1 inv2 st f1 f2 :
  callback_of inv1 = Some f1 →
  callback_of inv2 = Some f2 →
  let run1 := bind SO plat inv1 st in
  let r2 := invoke SO inv2 (final run1) in
  port (clo (final run1)) = port (clo st) + conflicts plat (trace run1)
  ∧ attempts (effects r2) = [port (clo st) + conflicts plat (trace run1)]
  ∧ (conflicts plat (trace run1) ≠ 0%nat → attempts (effects r2) ≠ [port (clo st)])
  ∧ (∀ inv s, clo (state (invoke SO inv s)) = clo s)
  ∧ (∀ evs s, port (clo s) <= port (clo (deliver evs s).1)).
Proof.
  intros Hcb1 Hcb2 run1 r2.
  destruct (bind_shape SO plat inv1 st f1 Hcb1)
    as (_ & k & Hatt & Huse & _ & _ & _ & Hend).
  fold run1 in Hatt, Hend.
  assert (port (clo (final run1)) = port (clo st) + conflicts plat (trace run1))
    as Hport.
  { unfold conflicts. rewrite Hatt, seqZ_S, filter_app, length_app.
    rewrite filter_all_seqZ by done. rewrite length_seqZ, Nat2Z.id.
    destruct Hend as [H1 _ Hp _ _|e H1 H2 _ Hp _ _|e H1 H2 _ _ Hp _ _];
      simpl in *; rewrite Hp.
    - rewrite filter_cons_False, filter_nil; [simpl; lia|].
      rewrite H1. done.
    - rewrite filter_cons_False, filter_nil; [simpl; lia|].
      rewrite H1. simpl. congruence.
    - rewrite filter_cons_True, filter_nil; [simpl; lia|].
      rewrite H1. done. }
  assert (attempts (effects r2) = [port (clo (final run1))]) as Hatt2.
  { subst r2. destruct (invoke_valid SO inv2 (final run1) f2 Hcb2) as [opts ->].
    apply attempts_start. }
  split_and!.
  - done.
  - by rewrite Hatt2, Hport.
  - rewrite Hatt2, Hport. intros Hne [=]. lia.
  - apply invoke_clo.
  - intros evs s. apply deliver_port_mono.
Qed.

(** C10 at 8080..8090 with 8080 and 8081 occupied: the second invocation
    starts on 8082. *)
Lemma C10_port_shared_across_invocations_witness :
  let st := init (mkClosure None [] "127.0.0.1" 8080 8090) in
  let run1 := bind true plat_8082 (Call1 (VFunction 1)) st in
  attempts (effects (invoke true (Call1 (VFunction 2)) (final run1))) = [8082].
Proof.
  intros st run1.
  destruct (C10_port_shared_across_invocations true plat_8082
              (Call1 (VFunction 1)) (Call1 (VFunction 2)) st 1%nat 2%nat
              eq_refl eq_refl) as (_ & H & _).
  exact H.
Defined.

End HttpServerSpec.

(** * Properties of the disposable server *)

Module DisposableSpec.
Import Disposable.

Definition is_bundle (url : string) : bool := String.eqb url "/bundle.js".

Definition is_html (url : string) : bool :=
  String.eqb url "/" || String.eqb url "/index.html".

Definition task_response (t : Task) : nat :=
  match t with Next _ response => response end.

(** The actions of the transition from Serving to Finishing. *)
Definition finishing (server : nat) : list Effect :=
  [Close server; SetTimeout (DestroyConnections 5000)].

(** The number of times [server.close()] was called. *)
Definition closes (effs : list Effect) : nat :=
  length (omap (λ e, match e with Close s => Some s | _ => None end) effs).

(** The response object as [requestListener] leaves it when it returns. *)
Definition arrival (st : State) (url : string) : Response :=
  if isClosing st then mkResponse url 503 [] Undefined true [] false
  else if is_bundle url then mkResponse url 200 [] Undefined false [OnFinish] false
  else if is_html url then
    mkResponse url 200 [] Undefined false
      (if truthy (opts_javascript st) then [] else [OnFinish]) false
  else mkResponse url 404 [] Undefined true [] false.

(** The task [requestListener] hands to [nextTick], if any. *)
Definition queued (st : State) (url : string) : list Task :=
  if isClosing st then []
  else if is_bundle url then [Next SendJavaScript (length (responses st))]
  else if is_html url then [Next SendHTML (length (responses st))]
  else [].

Lemma is_html_bundle url : is_bundle url = true → is_html url = false.
Proof.
  unfold is_bundle, is_html. intros ->%String.eqb_eq. reflexivity.
Qed.

Lemma alter_snoc {A} (f : A → A) (l : list A) x :
  alter f (length l) (l ++ [x]) = l ++ [f x].
Proof. induction l as [|y l IH]; simpl; [done|]. by f_equal. Qed.

Lemma alter_compose_list {A} (f g : A → A) i (l : list A) :
  alter f i (alter g i l) = alter (f ∘ g) i l.
Proof.
  revert i. induction l as [|y l IH]; intros [|i]; simpl; try done.
  f_equal. apply IH.
Qed.

(** A turn that receives a request, in full. *)
Lemma step_request SB url st :
  step SB (EvRequest url) st
  = mkResult Normal
      (set_ticks (ticks st ++ queued st url)
         (set_responses (responses st ++ [arrival st url]) st))
      (if isClosing st || negb (is_bundle url || is_html url)
       then [End (length (responses st))]
       else NextTick <$> queued st url).
Proof.
  destruct st as [h j o c cl s cn rs q tm].
  unfold step, requestListener, arrival, queued, is_bundle, is_html,
    unavailable, notFound, update, nextTick, onTick, set_ticks, set_responses.
  cbn [isClosing responses ticks opts_html opts_javascript opts_open clbk
       server connections timers].
  destruct cl; cbn [orb negb].
  { rewrite alter_compose_list, alter_snoc, app_nil_r. done. }
  destruct (String.eqb url "/bundle.js") eqn:Hb; cbn [orb negb andb].
  { rewrite alter_snoc. done. }
  destruct (String.eqb url "/") eqn:H1; cbn [orb negb andb].
  { destruct (truthy j); cbn [negb]; rewrite ?alter_snoc; done. }
  destruct (String.eqb url "/index.html") eqn:H2; cbn [orb negb andb].
  { destruct (truthy j); cbn [negb]; rewrite ?alter_snoc; done. }
  rewrite alter_compose_list, alter_snoc, app_nil_r. done.
Qed.

(** *** What each handler leaves alone *)

(** The variables of [httpServer] that no handler assigns, and the
    monotone ones. *)
Record Frame (st st' : State) : Prop := mkFrame {
  frame_html : opts_html st' = opts_html st;
  frame_javascript : opts_javascript st' = opts_javascript st;
  frame_closing : isClosing st = true → isClosing st' = true;
  frame_server : is_Some (server st) → is_Some (server st')
}.

Lemma Frame_refl st : Frame st st.
Proof. by split. Qed.

Lemma Frame_trans st1 st2 st3 : Frame st1 st2 → Frame st2 st3 → Frame st1 st3.
Proof.
  intros [] []. split; [congruence|congruence|auto|auto].
Qed.

Lemma update_update rid f g st :
  update rid f (update rid g st) = update rid (f ∘ g) st.
Proof.
  unfold update, set_responses. cbn. by rewrite alter_compose_list.
Qed.

(** The response as [send] leaves it when the length is computed. *)
Definition sending (type : string) (n : Z) (content : Content)
  : Response → Response :=
  end_with content ∘ setHeader "Content-Length" (HNumber n)
  ∘ setHeader "Content-Type" (HString type) ∘ set_statusCode 200.

(** The response as [send] leaves it when computing the length throws. *)
Definition failing (type : string) : Response → Response :=
  setHeader "Content-Type" (HString type) ∘ set_statusCode 200.

Lemma send_ok SB type content rid st n :
  byteLength SB content = inr n →
  send SB type content rid st
  = mkResult Normal (update rid (sending type n content) st) [End rid].
Proof.
  intros H. unfold send. rewrite H. by rewrite !update_update.
Qed.

Lemma send_throw SB type content rid st e :
  byteLength SB content = inl e →
  send SB type content rid st
  = mkResult (Throw e) (update rid (failing type) st) [].
Proof.
  intros H. unfold send. rewrite H. by rewrite !update_update.
Qed.

(** [url], the listeners of ['finish'] and whether it was emitted. *)
Definition arming (r : Response) : string * list Listener * bool :=
  (url r, finish_once r, finished r).

Lemma arming_sending type n content r : arming (sending type n content r) = arming r.
Proof. done. Qed.

Lemma arming_failing type r : arming (failing type r) = arming r.
Proof. done. Qed.

Lemma send_cases SB type content rid st :
  ∃ f, state (send SB type content rid st) = update rid f st
       ∧ (∀ r, arming (f r) = arming r)
       ∧ closes (effects (send SB type content rid st)) = 0.
Proof.
  destruct (byteLength SB content) as [e|n] eqn:H.
  - rewrite (send_throw _ _ _ _ _ e H). by exists (failing type).
  - rewrite (send_ok _ _ _ _ _ n H). by exists (sending type n content).
Qed.

Lemma next_cases SB t st :
  ∃ f, state (next SB t st) = update (task_response t) f st
       ∧ (∀ r, arming (f r) = arming r)
       ∧ closes (effects (next SB t st)) = 0.
Proof. destruct t as [[] rid]; apply send_cases. Qed.

Lemma onFinish_cases st :
  isClosing (state (onFinish st)) = true
  ∧ opts_html (state (onFinish st)) = opts_html st
  ∧ opts_javascript (state (onFinish st)) = opts_javascript st
  ∧ server (state (onFinish st)) = server st
  ∧ responses (state (onFinish st)) = responses st
  ∧ ticks (state (onFinish st)) = ticks st
  ∧ (∀ s, server st = Some s →
       completion (onFinish st) = Normal
       ∧ effects (onFinish st) = finishing s).
Proof.
  unfold onFinish. cbn.
  destruct (server st) as [s|] eqn:Hs; cbn; rewrite ?Hs; split_and!; try done.
  by intros ? [= <-].
Qed.

Lemma closes_app l1 l2 : closes (l1 ++ l2) = (closes l1 + closes l2)%nat.
Proof. unfold closes. by rewrite omap_app, length_app. Qed.

Lemma closes_onFinish st : (closes (effects (onFinish st)) ≤ 1)%nat.
Proof. unfold onFinish. cbn. destruct (server st); cbn; lia. Qed.

Lemma run_listeners_cases ls : ∀ st,
  let r := run_listeners ls st in
  (ls ≠ [] → isClosing (state r) = true)
  ∧ (isClosing st = true → isClosing (state r) = true)
  ∧ opts_html (state r) = opts_html st
  ∧ opts_javascript (state r) = opts_javascript st
  ∧ server (state r) = server st
  ∧ responses (state r) = responses st
  ∧ ticks (state r) = ticks st
  ∧ (closes (effects r) ≤ length ls)%nat
  ∧ (∀ s, server st = Some s →
       completion r = Normal ∧ effects r = mbind (λ _, finishing s) ls).
Proof.
  induction ls as [|[] ls IH]; intros st; cbn zeta.
  { simpl. split_and!; done || lia. }
  destruct (onFinish_cases st) as (Hc & Hh & Hj & Hs & Hr & Ht & Hok).
  pose proof (closes_onFinish st) as Hn.
  cbn [run_listeners run_listener]. unfold andThen.
  destruct (completion (onFinish st)) eqn:Hcomp.
  - destruct (IH (state (onFinish st)))
      as (_ & Hc' & Hh' & Hj' & Hs' & Hr' & Ht' & Hn' & Hok').
    cbn [state effects completion].
    split_and!; try congruence; try (intros; by apply Hc').
    + rewrite closes_app. simpl. lia.
    + intros s Hsv. destruct (Hok s Hsv) as [_ ->].
      rewrite Hs in Hs'. destruct (Hok' s) as [-> ->]; [congruence|]. done.
  - split_and!; try done.
    + simpl. lia.
    + intros s Hsv. destruct (Hok s Hsv) as [? _]. congruence.
Qed.

(** *** One turn, field by field *)

Lemma step_tick_nil SB st :
  ticks st = [] → step SB EvTick st = mkResult Normal st [].
Proof. intros H. simpl. by rewrite H. Qed.

Lemma step_tick_cons SB st t q :
  ticks st = t :: q → step SB EvTick st = next SB t (set_ticks q st).
Proof. intros H. simpl. by rewrite H. Qed.

Lemma step_finish_fires SB st rid r :
  responses st !! rid = Some r → ended r = true → finished r = false →
  step SB (EvFinish rid) st
  = run_listeners (finish_once r) (update rid mark_finished st).
Proof. intros H He Hf. simpl. by rewrite H, He, Hf. Qed.

Lemma step_finish_idle SB st rid :
  (∀ r, responses st !! rid = Some r → ended r = false ∨ finished r = true) →
  step SB (EvFinish rid) st = mkResult Normal st [].
Proof.
  intros H. simpl. destruct (responses st !! rid) as [r|]; [|done].
  destruct (H r eq_refl) as [-> | ->]; [done|]. by rewrite andb_false_r.
Qed.

Lemma step_frame SB ev st : Frame st (state (step SB ev st)).
Proof.
  destruct ev as [err s a p|a p sk|k|u| |rid| |].
  - destruct err; by split.
  - by split.
  - by split.
  - rewrite step_request. by split.
  - destruct (ticks st) as [|t q] eqn:Hq.
    + rewrite step_tick_nil by done. apply Frame_refl.
    + rewrite (step_tick_cons _ _ t q) by done.
      destruct (next_cases SB t (set_ticks q st)) as (f & -> & _). by split.
  - simpl. destruct (responses st !! rid) as [r|]; [|apply Frame_refl].
    destruct (ended r && negb (finished r)); [|apply Frame_refl].
    destruct (run_listeners_cases (finish_once r) (update rid mark_finished st))
      as (_ & Hc & Hh & Hj & Hs & _).
    split; [done|done|auto|]. by rewrite Hs.
  - simpl. destruct (timers st) as [|[] ?]; by split.
  - by split.
Qed.

(** Every turn but its own ['finish'] leaves the arming of a response as
    it is, and no turn removes a response. *)
Lemma step_arming SB ev st rid r :
  responses st !! rid = Some r →
  ev ≠ EvFinish rid →
  ∃ r', responses (state (step SB ev st)) !! rid = Some r' ∧ arming r' = arming r.
Proof.
  intros Hr Hev.
  destruct ev as [err s a p|a p sk|k|u| |rid'| |].
  - destruct err; by exists r.
  - by exists r.
  - by exists r.
  - rewrite step_request. cbn. exists r. split; [|done].
    by apply lookup_app_l_Some.
  - destruct (ticks st) as [|t q] eqn:Hq.
    + rewrite step_tick_nil by done. by exists r.
    + rewrite (step_tick_cons _ _ t q) by done.
      destruct (next_cases SB t (set_ticks q st)) as (f & -> & Hf & _). cbn.
      destruct (decide (task_response t = rid)) as [->|Hne].
      * exists (f r). split; [|by apply Hf].
        by rewrite list_lookup_alter_eq, Hr.
      * exists r. split; [|done]. by rewrite list_lookup_alter_ne.
  - assert (rid' ≠ rid) as Hne by congruence.
    simpl. destruct (responses st !! rid') as [r0|]; [|by exists r].
    destruct (ended r0 && negb (finished r0)); [|by exists r].
    destruct (run_listeners_cases (finish_once r0) (update rid' mark_finished st))
      as (_ & _ & _ & _ & _ & -> & _).
    cbn. exists r. split; [|done]. by rewrite list_lookup_alter_ne.
  - simpl. destruct (timers st) as [|[] ?]; by exists r.
  - by exists r.
Qed.

Lemma run_app SB evs1 evs2 st :
  run SB (evs1 ++ evs2) st
  = (let '(st1, effs1) := run SB evs1 st in
     let '(st2, effs2) := run SB evs2 st1 in
     (st2, effs1 ++ effs2)).
Proof.
  revert st. induction evs1 as [|ev evs1 IH]; intros st; simpl.
  { by destruct (run SB evs2 st). }
  rewrite IH. destruct (run SB evs1 (state (step SB ev st))) as [st1 effs1].
  destruct (run SB evs2 st1) as [st2 effs2]. by rewrite app_assoc.
Qed.

Lemma run_cons SB ev evs st :
  (run SB (ev :: evs) st).1 = (run SB evs (state (step SB ev st))).1.
Proof. simpl. by destruct (run SB evs (state (step SB ev st))). Qed.

Lemma run_frame SB evs : ∀ st, Frame st (run SB evs st).1.
Proof.
  induction evs as [|ev evs IH]; intros st.
  - apply Frame_refl.
  - rewrite run_cons. eapply Frame_trans; [apply step_frame|apply IH].
Qed.

Lemma run_arming SB evs : ∀ st rid r,
  responses st !! rid = Some r →
  Forall (λ ev, ev ≠ EvFinish rid) evs →
  ∃ r', responses (run SB evs st).1 !! rid = Some r' ∧ arming r' = arming r.
Proof.
  induction evs as [|ev evs IH]; intros st rid r Hr Hevs.
  - by exists r.
  - apply Forall_cons in Hevs as [Hev Hevs]. rewrite run_cons.
    destruct (step_arming SB ev st rid r Hr Hev) as (r1 & Hr1 & Ha1).
    destruct (IH _ rid r1 Hr1 Hevs) as (r2 & Hr2 & Ha2).
    exists r2. split; [done|congruence].
Qed.

(** *** Invariants of a server's life *)

Definition armed_ok (js : Content) (r : Response) : Prop :=
  finish_once r = []
  ∨ is_bundle (url r) = true
  ∨ (is_html (url r) = true ∧ truthy js = false).

Record Inv (st : State) : Prop := mkInv {
  inv_html : ∃ b, opts_html st = Buf b;
  inv_server : is_Some (server st);
  inv_ticks : Forall (λ t, task_response t < length (responses st)) (ticks st);
  inv_armed : Forall (armed_ok (opts_javascript st)) (responses st)
}.

Lemma armed_ok_arming js r r' : arming r' = arming r → armed_ok js r → armed_ok js r'.
Proof. unfold arming, armed_ok. intros [= -> -> _]. done. Qed.

Lemma armed_ok_arrival st url : armed_ok (opts_javascript st) (arrival st url).
Proof.
  unfold arrival, armed_ok. destruct (isClosing st); [by left|].
  destruct (is_bundle url) eqn:Hb; [by right; left|].
  destruct (is_html url) eqn:Hh; [|by left].
  destruct (truthy (opts_javascript st)); [by left|by right; right].
Qed.

Lemma Forall_alter_same {A} (P : A → Prop) (f : A → A) i (l : list A) :
  (∀ x, P x → P (f x)) → Forall P l → Forall P (alter f i l).
Proof. intros Hf Hl. apply Forall_alter; auto. Qed.

Lemma step_inv SB ev st : Inv st → Inv (state (step SB ev st)).
Proof.
  intros [Hh Hs Ht Ha].
  pose proof (step_frame SB ev st) as [Fh Fj _ Fs].
  split; [by rewrite Fh|by apply Fs| |]; rewrite ?Fj.
  - destruct ev as [err s a p|a p sk|k|u| |rid| |].
    + by destruct err.
    + done.
    + done.
    + rewrite step_request. cbn. rewrite length_app. simpl.
      apply Forall_app. split.
      * eapply Forall_impl; [exact Ht|]. simpl. intros; lia.
      * unfold queued. repeat case_match; repeat constructor; simpl; lia.
    + destruct (ticks st) as [|t q] eqn:Hq.
      * rewrite step_tick_nil by done. cbn. by rewrite Hq.
      * rewrite (step_tick_cons _ _ t q) by done.
        destruct (next_cases SB t (set_ticks q st)) as (f & -> & _). cbn.
        rewrite length_alter. by apply Forall_cons in Ht as [_ ?].
    + simpl. destruct (responses st !! rid) as [r|]; [|done].
      destruct (ended r && negb (finished r)); [|done].
      destruct (run_listeners_cases (finish_once r) (update rid mark_finished st))
        as (_ & _ & _ & _ & _ & -> & -> & _).
      cbn. by rewrite length_alter.
    + simpl. by destruct (timers st) as [|[] ?].
    + done.
  - destruct ev as [err s a p|a p sk|k|u| |rid| |].
    + by destruct err.
    + done.
    + done.
    + rewrite step_request. cbn. apply Forall_app. split; [done|].
      constructor; [apply armed_ok_arrival|constructor].
    + destruct (ticks st) as [|t q] eqn:Hq.
      * by rewrite step_tick_nil.
      * rewrite (step_tick_cons _ _ t q) by done.
        destruct (next_cases SB t (set_ticks q st)) as (f & -> & Hf & _). cbn.
        apply Forall_alter_same; [|done].
        intros r. apply armed_ok_arming, Hf.
    + simpl. destruct (responses st !! rid) as [r|]; [|done].
      destruct (ended r && negb (finished r)); [|done].
      destruct (run_listeners_cases (finish_once r) (update rid mark_finished st))
        as (_ & _ & _ & _ & _ & -> & _).
      cbn. apply Forall_alter_same; [|done]. intros r0 _. by left.
    + simpl. by destruct (timers st) as [|[] ?].
    + done.
Qed.

Lemma run_inv SB evs : ∀ st, Inv st → Inv (run SB evs st).1.
Proof.
  induction evs as [|ev evs IH]; intros st H; [done|].
  rewrite run_cons. by apply IH, step_inv.
Qed.

(** [javascript] and [html] after the conversion of strings and the
    loading of the boilerplate. *)
Definition configured_javascript (options : Options) : Content :=
  if truthy (javascript options) && isString (javascript options)
  then string2buffer (javascript options) else javascript options.

Definition configured_html (boilerplate : list byte) (options : Options) : Content :=
  let h := if truthy (html options) && isString (html options)
           then string2buffer (html options) else html options in
  if negb (truthy h) then Buf boilerplate else h.

Lemma configured_html_Buf boilerplate options :
  ∃ b, configured_html boilerplate options = Buf b.
Proof.
  unfold configured_html. destruct (html options) as [|[|]|]; simpl; eauto.
Qed.

Lemma truthy_configured_javascript options :
  truthy (configured_javascript options) = truthy (javascript options).
Proof.
  unfold configured_javascript. by destruct (javascript options) as [|[|]|].
Qed.

Lemma configured_javascript_Undefined options :
  configured_javascript options = Undefined ↔ javascript options = Undefined.
Proof.
  unfold configured_javascript. by destruct (javascript options) as [|[|]|].
Qed.

(** The callback [httpServer] keeps: [None] stands for [noop]. *)
Definition kept (clbk : Argument) : option nat :=
  match clbk with Function f => Some f | _ => None end.

Lemma httpServer_inr boilerplate options clbk st0 effs0 :
  httpServer boilerplate options clbk = inr (st0, effs0) →
  st0 = mkState (configured_html boilerplate options)
          (configured_javascript options) (open options) (kept clbk)
          false None ∅ [] [] [].
Proof.
  unfold httpServer. destruct clbk; intros [= <- _]; eauto.
Qed.

Lemma lifetime_run SB boilerplate options clbk s a p evs st effs :
  lifetime SB boilerplate options clbk s a p evs = Some (st, effs) →
  ∃ effs',
    let st0 := mkState (configured_html boilerplate options)
                 (configured_javascript options) (open options) (kept clbk)
                 false (Some s) ∅ [] [] [] in
    st = (run SB evs st0).1
    ∧ effs = Boot :: ListenConnections s
               :: (if open options then [OpenURL a p] else [])
               ++ [Clbk (kept clbk) s] ++ effs'
    ∧ effs' = (run SB evs st0).2.
Proof.
  unfold lifetime.
  destruct (httpServer boilerplate options clbk) as [e|[st0 effs0]] eqn:Hc;
    [done|].
  rewrite (httpServer_inr _ _ _ _ _ Hc) in *.
  assert (effs0 = [Boot]) as ->.
  { unfold httpServer in Hc. by destruct clbk; simplify_eq. }
  simpl.
  match goal with |- context [run SB evs ?st1] =>
    destruct (run SB evs st1) as [st' effs'] eqn:Hrun end.
  unfold set_server in Hrun. simpl in Hrun.
  intros [= <- <-]. exists effs'. simpl. rewrite Hrun. split_and!; [done| |done].
  by rewrite <- !app_assoc.
Qed.

(** What is known of every state a server passes through. *)
Lemma lifetime_inv SB boilerplate options clbk s a p evs st effs :
  lifetime SB boilerplate options clbk s a p evs = Some (st, effs) →
  Inv st
  ∧ opts_html st = configured_html boilerplate options
  ∧ opts_javascript st = configured_javascript options.
Proof.
  intros H. destruct (lifetime_run _ _ _ _ _ _ _ _ _ _ H) as (effs' & -> & _).
  match goal with |- context [run SB evs ?st1] =>
    pose proof (run_inv SB evs st1) as Hinv;
    pose proof (run_frame SB evs st1) as [Fh Fj _ _] end.
  split_and!; [|done|done].
  apply Hinv. split; simpl;
    [apply configured_html_Buf|by eexists|constructor|constructor].
Qed.

(** *** Routing *)

(** Tasks queued for other exchanges leave an exchange alone. *)
Lemma drain_others SB q : ∀ st rest rid,
  ticks st = q ++ rest →
  Forall (λ t, task_response t ≠ rid) q →
  let st' := (run SB (replicate (length q) EvTick) st).1 in
  ticks st' = rest
  ∧ responses st' !! rid = responses st !! rid
  ∧ length (responses st') = length (responses st).
Proof.
  induction q as [|t q IH]; intros st rest rid Hq Hne; cbn zeta.
  { done. }
  cbn [length replicate]. rewrite run_cons.
  rewrite (step_tick_cons _ _ t (q ++ rest)) by done.
  destruct (next_cases SB t (set_ticks (q ++ rest) st)) as (f & Hst & _).
  apply Forall_cons in Hne as [Ht Hne].
  destruct (IH (state (next SB t (set_ticks (q ++ rest) st))) rest rid)
    as (H1 & H2 & H3); [by rewrite Hst|done|].
  rewrite Hst in H1, H2, H3 |- *. cbn in H2, H3.
  split_and!; [done| |].
  - by rewrite H2, list_lookup_alter_ne.
  - by rewrite H3, length_alter.
Qed.

(** The response to a request for [url] received in [st], after the tasks
    queued before it and its own task have run. *)
Definition response_to (SB : bool) (st : State) (url : string) : option Response :=
  responses
    (run SB (EvRequest url :: replicate (S (length (ticks st))) EvTick) st).1
  !! length (responses st).

(** A response that was sent with [status] and [payload]; with a content
    type it also carries the computed length. *)
Definition served (SB : bool) (status : Z) (type : option string)
    (payload : Content) (r : Response) : Prop :=
  ended r = true ∧ statusCode r = status ∧ body r = payload
  ∧ match type with
    | Some t =>
        ∃ n, byteLength SB payload = inr n
             ∧ headers r = [("Content-Length", HNumber n);
                            ("Content-Type", HString t)]
    | None => headers r = []
    end.

(** The routing policy, for one request. *)
Definition routed (SB : bool) (st : State) (url : string) : Prop :=
  ∃ r, response_to SB st url = Some r
       ∧ Disposable.url r = url
       ∧ if is_html url then served SB 200 (Some "text/html") (opts_html st) r
         else if is_bundle url
         then served SB 200 (Some "text/javascript") (opts_javascript st) r
         else served SB 404 None Undefined r.

Lemma response_to_arrival SB st url :
  Inv st →
  let st1 := state (step SB (EvRequest url) st) in
  let st2 := (run SB (replicate (length (ticks st)) EvTick) st1).1 in
  response_to SB st url
  = responses (state (step SB EvTick st2)) !! length (responses st)
  ∧ ticks st2 = queued st url
  ∧ responses st2 !! length (responses st) = Some (arrival st url)
  ∧ Frame st st2.
Proof.
  intros [_ _ Ht _] st1 st2. unfold response_to.
  rewrite run_cons. fold st1.
  rewrite replicate_S_end, run_app. fold (replicate (length (ticks st)) EvTick).
  destruct (drain_others SB (ticks st) st1 (queued st url) (length (responses st)))
    as (H1 & H2 & H3).
  { subst st1. by rewrite step_request. }
  { eapply Forall_impl; [exact Ht|]. simpl. intros; lia. }
  fold st2 in H1, H2, H3.
  split_and!.
  - destruct (run SB (replicate (length (ticks st)) EvTick) st1) as [sta ea] eqn:Ha.
    subst st2. simpl. by destruct (step SB EvTick sta).
  - done.
  - rewrite H2. subst st1. rewrite step_request. cbn.
    by rewrite lookup_app_r, Nat.sub_diag.
  - eapply Frame_trans; [apply step_frame|apply run_frame].
Qed.

Lemma byteLength_present SB c : c ≠ Undefined → ∃ n, byteLength SB c = inr n.
Proof.
  unfold byteLength. destruct SB, c; simpl; intros; try done; eauto.
Qed.

Lemma routed_content SB st url fcn type content :
  Inv st → isClosing st = false →
  queued st url = [Next fcn (length (responses st))] →
  (∀ st', Frame st st' →
     next SB (Next fcn (length (responses st))) st'
     = send SB type content (length (responses st)) st') →
  content ≠ Undefined →
  ∃ r, response_to SB st url = Some r ∧ Disposable.url r = url
       ∧ served SB 200 (Some type) content r.
Proof.
  intros HI Hc Hq Hn Hp.
  destruct (response_to_arrival SB st url HI) as (-> & Hq2 & Hr2 & HF).
  set (st2 := (run SB _ _).1) in *.
  rewrite Hq in Hq2. rewrite (step_tick_cons _ _ _ [] Hq2), Hn.
  2:{ destruct HF. by split. }
  destruct (byteLength_present SB content Hp) as [n Hlen].
  rewrite (send_ok _ _ _ _ _ n Hlen). cbn.
  rewrite list_lookup_alter_eq, Hr2. simpl.
  eexists. split; [done|].
  unfold arrival in *. rewrite Hc. unfold queued in Hq. rewrite Hc in Hq.
  destruct (is_bundle url); [by split; [|split_and!; eauto]|].
  destruct (is_html url); [|done].
  by split; [|split_and!; eauto].
Qed.

Lemma is_bundle_html url : is_html url = true → is_bundle url = false.
Proof.
  intros H. destruct (is_bundle url) eqn:Hb; [|done].
  by rewrite (is_html_bundle url Hb) in H.
Qed.

(** C6 (amended): a request received while serving is answered by its
    path: ['/'] and ['/index.html'] with status 200, the HTML payload, the
    content type [text/html] and the computed content length;
    ['/bundle.js'] with status 200, the JavaScript payload and the content
    type [text/javascript] when a JavaScript option was supplied; every
    other path with status 404 and no body. *)
Theorem C6_routing_policy SB boilerplate options clbk s a p evs st effs url :
  lifetime SB boilerplate options clbk s a p evs = Some (st, effs) →
  isClosing st = false →
  (is_bundle url = true → javascript options ≠ Undefined) →
  routed SB st url.
Proof.
  intros Hlife Hc Hjs.
  destruct (lifetime_inv _ _ _ _ _ _ _ _ _ _ Hlife) as (HI & Hh & Hj).
  unfold routed.
  destruct (is_html url) eqn:Hhtml.
  - pose proof (is_bundle_html url Hhtml) as Hb.
    apply (routed_content SB st url SendHTML); try done.
    + unfold queued. by rewrite Hc, Hb, Hhtml.
    + intros st' [Fh _ _ _]. simpl. unfold sendHTML. by rewrite Fh.
    + destruct HI as [[b ->] _ _ _]. done.
  - destruct (is_bundle url) eqn:Hb.
    + apply (routed_content SB st url SendJavaScript); try done.
      * unfold queued. by rewrite Hc, Hb.
      * intros st' [_ Fj _ _]. simpl. unfold sendJavaScript. by rewrite Fj.
      * rewrite Hj. intros HU. apply configured_javascript_Undefined in HU.
        by apply Hjs.
    + destruct (response_to_arrival SB st url HI) as (-> & Hq2 & Hr2 & _).
      set (st2 := (run SB _ _).1) in *.
      unfold queued in Hq2. rewrite Hc, Hb, Hhtml in Hq2.
      rewrite (step_tick_nil _ _ Hq2). cbn. rewrite Hr2.
      unfold arrival. rewrite Hc, Hb, Hhtml. eexists. split; [done|]. done.
Qed.

(** A server for [<h1>Beep</h1>] without JavaScript, just bound. *)
Definition beep_options : Options :=
  mkOptions (Str (Buffer.ascii "<h1>Beep</h1>")) Undefined false.

Definition beep : State :=
  mkState (Buf (String.list_byte_of_string "<h1>Beep</h1>")) Undefined false
    None false (Some 0) ∅ [] [] [].

Lemma beep_lifetime SB :
  lifetime SB [] beep_options Absent 0 "0.0.0.0" 8000 []
  = Some (beep, [Boot; ListenConnections 0; Clbk None 0]).
Proof. reflexivity. Qed.

(** The same server with a script. *)
Definition script_options : Options :=
  mkOptions (Str (Buffer.ascii "<h1>Beep</h1>"))
    (Str (Buffer.ascii "console.log( 'Boop' );")) false.

Definition script : State :=
  mkState (Buf (String.list_byte_of_string "<h1>Beep</h1>"))
    (Buf (String.list_byte_of_string "console.log( 'Boop' );")) false
    None false (Some 0) ∅ [] [] [].

Lemma script_lifetime SB :
  lifetime SB [] script_options Absent 0 "0.0.0.0" 8000 []
  = Some (script, [Boot; ListenConnections 0; Clbk None 0]).
Proof. reflexivity. Qed.

(** C6 on the server for [<h1>Beep</h1>], at ['/'] and at ['/nope'], and
    on the server with a script, at ['/bundle.js']. *)
Lemma C6_routing_policy_witness :
  routed false beep "/" ∧ routed false beep "/nope"
  ∧ routed false script "/bundle.js".
Proof.
  split_and!.
  - apply (C6_routing_policy false [] beep_options Absent 0 "0.0.0.0" 8000 []
             beep _ "/" (beep_lifetime false)); [reflexivity|].
    intros H. discriminate H.
  - apply (C6_routing_policy false [] beep_options Absent 0 "0.0.0.0" 8000 []
             beep _ "/nope" (beep_lifetime false)); [reflexivity|].
    intros H. discriminate H.
  - apply (C6_routing_policy false [] script_options Absent 0 "0.0.0.0" 8000 []
             script _ "/bundle.js" (script_lifetime false)); [reflexivity|].
    intros _ H. discriminate H.
Defined.

(** C6 as stated fails on a server without JavaScript: the request for
    ['/bundle.js'] is received while serving, and no response is sent. *)
Lemma C6_counterexample_bundle_without_javascript :
  lifetime false [] beep_options Absent 0 "0.0.0.0" 8000 []
  = Some (beep, [Boot; ListenConnections 0; Clbk None 0])
  ∧ isClosing beep = false
  ∧ ¬ routed false beep "/bundle.js".
Proof.
  split_and!; [reflexivity|reflexivity|].
  intros (r & Hr & _ & Hs). vm_compute in Hr.
  injection Hr as <-. destruct Hs as [He _]. discriminate He.
Qed.

(** *** Arming of the transition to Finishing *)

(** Whether the completion of the response to a request for [url], received
    while serving, is to start the shutdown. *)
Definition qualifies (javascript : Content) (url : string) : bool :=
  is_bundle url || (is_html url && negb (truthy javascript)).

Lemma finish_once_arrival st url :
  isClosing st = false →
  finish_once (arrival st url)
  = if qualifies (opts_javascript st) url then [OnFinish] else [].
Proof.
  intros Hc. unfold arrival, qualifies. rewrite Hc.
  destruct (is_bundle url); [done|]. destruct (is_html url); [|done].
  by destruct (truthy (opts_javascript st)).
Qed.

Lemma finish_unarmed SB st rid r :
  responses st !! rid = Some r → finish_once r = [] →
  effects (step SB (EvFinish rid) st) = []
  ∧ isClosing (state (step SB (EvFinish rid) st)) = isClosing st.
Proof.
  intros Hr Hf. simpl. rewrite Hr.
  destruct (ended r && negb (finished r)); [|done]. by rewrite Hf.
Qed.

Lemma finish_armed SB st rid r s :
  responses st !! rid = Some r → ended r = true → finished r = false →
  finish_once r = [OnFinish] → server st = Some s →
  effects (step SB (EvFinish rid) st) = finishing s
  ∧ isClosing (state (step SB (EvFinish rid) st)) = true.
Proof.
  intros Hr He Hf Hl Hs. rewrite (step_finish_fires _ _ _ r) by done.
  destruct (run_listeners_cases (finish_once r) (update rid mark_finished st))
    as (Hc & _ & _ & _ & _ & _ & _ & _ & Hok).
  destruct (Hok s Hs) as [_ ->]. rewrite Hl in *. split; [done|].
  by apply Hc.
Qed.

(** C3: with JavaScript configured, the completion of a response to ['/']
    or ['/index.html'] never starts the shutdown, and a completion that
    starts it is that of a response to ['/bundle.js']; for a request
    received while serving, whatever happens before its response
    completes, the completion starts the shutdown exactly when the path is
    ['/bundle.js'], or is ['/'] or ['/index.html'] and no JavaScript is
    configured. *)
Theorem C3_arming_by_configuration SB boilerplate options clbk s a p evs st effs :
  lifetime SB boilerplate options clbk s a p evs = Some (st, effs) →
  (truthy (javascript options) = true →
   ∀ rid r, responses st !! rid = Some r →
     let fin := step SB (EvFinish rid) st in
     (is_html (url r) = true →
        effects fin = [] ∧ isClosing (state fin) = isClosing st)
     ∧ (effects fin ≠ [] ∨ isClosing (state fin) ≠ isClosing st →
        url r = "/bundle.js"))
  ∧ (isClosing st = false →
     ∀ path evs',
       let rid := length (responses st) in
       Forall (λ ev, ev ≠ EvFinish rid) evs' →
       let st' := (run SB (EvRequest path :: evs') st).1 in
       (∃ r, responses st' !! rid = Some r ∧ ended r = true) →
       let fin := step SB (EvFinish rid) st' in
       if qualifies (javascript options) path
       then isClosing (state fin) = true
            ∧ ∃ s', server st' = Some s' ∧ effects fin = finishing s'
       else effects fin = [] ∧ isClosing (state fin) = isClosing st').
Proof.
  intros Hlife.
  destruct (lifetime_inv _ _ _ _ _ _ _ _ _ _ Hlife) as (HI & Hh & Hj).
  split.
  - intros Hjs rid r Hr fin.
    assert (armed_ok (opts_javascript st) r) as Hok.
    { destruct HI as [_ _ _ Ha]. rewrite Forall_forall in Ha. apply Ha.
      by eapply list_elem_of_lookup_2. }
    unfold armed_ok in Hok. rewrite Hj, truthy_configured_javascript, Hjs in Hok.
    split.
    + intros Hhtml. apply (finish_unarmed SB st rid r Hr).
      destruct Hok as [?|[Hb|[_ ?]]]; [done| |done].
      by rewrite (is_bundle_html _ Hhtml) in Hb.
    + intros Hfire. destruct Hok as [Hnil|[Hb|[_ ?]]]; [|by apply String.eqb_eq|done].
      destruct (finish_unarmed SB st rid r Hr Hnil) as [He Hc].
      subst fin. destruct Hfire; congruence.
  - intros Hc path evs' rid Hevs st' [r [Hr He]] fin.
    assert (Inv st') as HI' by (by apply run_inv).
    assert (responses (state (step SB (EvRequest path) st)) !! rid
            = Some (arrival st path)) as Hr1.
    { rewrite step_request. cbn. by rewrite lookup_app_r, Nat.sub_diag. }
    destruct (run_arming SB evs' _ rid _ Hr1 Hevs) as (r' & Hr' & Harm).
    subst st'. rewrite run_cons in Hr, HI' |- *. subst fin.
    rewrite run_cons. set (st' := (run SB evs' _).1) in *.
    assert (r' = r) as -> by congruence.
    unfold arming in Harm. injection Harm as _ Hl Hf.
    rewrite finish_once_arrival in Hl by done.
    assert (finished r = false) as Hfin.
    { rewrite Hf. unfold arrival. rewrite Hc. by repeat case_match. }
    rewrite Hj in Hl.
    assert (qualifies (configured_javascript options) path
            = qualifies (javascript options) path) as Hq.
    { unfold qualifies. by rewrite truthy_configured_javascript. }
    rewrite Hq in Hl.
    destruct (qualifies (javascript options) path).
    + destruct HI' as [_ [s' Hs'] _ _].
      destruct (finish_armed SB st' rid r s' Hr He Hfin Hl Hs') as [H1 H2].
      split; [done|]. by exists s'.
    + by apply (finish_unarmed SB st' rid r).
Qed.

(** C3 on the server for [<h1>Beep</h1>], which has no JavaScript: the
    completion of the response to ['/'] starts the shutdown; and on the
    server with a script, where it does not. *)
Lemma C3_arming_by_configuration_witness :
  (let st' := (run false [EvRequest "/"; EvTick] beep).1 in
   isClosing (state (step false (EvFinish 0) st')) = true)
  ∧ (let st' := (run false [EvRequest "/"; EvTick] script).1 in
     effects (step false (EvFinish 0) st') = []
     ∧ isClosing (state (step false (EvFinish 0) st')) = false).
Proof.
  split.
  - intros st'.
    destruct (C3_arming_by_configuration false [] beep_options Absent 0
                "0.0.0.0" 8000 [] beep _ (beep_lifetime false)) as [_ H].
    specialize (H eq_refl "/" [EvTick]). simpl in H.
    destruct H as [H _].
    + repeat constructor; discriminate.
    + eexists. split; reflexivity.
    + exact H.
  - intros st'.
    destruct (C3_arming_by_configuration false [] script_options Absent 0
                "0.0.0.0" 8000 [] script _ (script_lifetime false)) as [_ H].
    specialize (H eq_refl "/" [EvTick]). simpl in H.
    apply H.
    + repeat constructor; discriminate.
    + eexists. split; reflexivity.
Defined.

(** *** How often the shutdown starts *)

(** The listeners of ['finish'] still attached. *)
Definition pending (st : State) : nat :=
  sum_list_with (λ r, length (finish_once r)) (responses st).

(** Whether a turn receives, while serving, a request whose response is
    armed. *)
Definition accepts (st : State) (ev : Event) : nat :=
  match ev with
  | EvRequest url =>
      if negb (isClosing st) && qualifies (opts_javascript st) url then 1 else 0
  | _ => 0
  end.

(** The number of such requests over a sequence of turns. *)
Fixpoint accepted (SB : bool) (evs : list Event) (st : State) : nat :=
  match evs with
  | [] => 0
  | ev :: evs' => accepts st ev + accepted SB evs' (state (step SB ev st))
  end.

Lemma pending_alter_arming f i l :
  (∀ r, arming (f r) = arming r) →
  sum_list_with (λ r, length (finish_once r)) (alter f i l)
  = sum_list_with (λ r, length (finish_once r)) l.
Proof.
  intros Hf. revert i. induction l as [|r l IH]; intros [|i]; simpl; try done.
  - specialize (Hf r). unfold arming in Hf. injection Hf as _ -> _. done.
  - f_equal. apply IH.
Qed.

Lemma pending_alter_mark i l r :
  l !! i = Some r →
  sum_list_with (λ r, length (finish_once r)) (alter mark_finished i l)
  + length (finish_once r)
  = sum_list_with (λ r, length (finish_once r)) l.
Proof.
  revert i. induction l as [|r0 l IH]; intros [|i]; simpl; try done.
  - intros [= ->]. lia.
  - intros H. specialize (IH i H).
    change (list_alter mark_finished i l) with (alter mark_finished i l).
    lia.
Qed.

Lemma closes_destroy (l : list (string * nat)) :
  closes ((λ kv, Destroy kv.1 kv.2) <$> l) = 0.
Proof. unfold closes. induction l as [|? l IH]; simpl; done. Qed.

(** One turn starts the shutdown at most as often as it detaches
    listeners, and attaches a listener only for a request it accepts. *)
Lemma step_account SB ev st :
  closes (effects (step SB ev st)) + pending (state (step SB ev st))
  ≤ pending st + accepts st ev.
Proof.
  destruct ev as [err s a p|a p sk|k|u| |rid| |]; simpl accepts.
  - destruct err; simpl; unfold closes, pending; simpl.
    + lia.
    + destruct (opts_open st); simpl; lia.
  - simpl. unfold closes. simpl. unfold pending. simpl. lia.
  - simpl. unfold closes. simpl. unfold pending. simpl. lia.
  - rewrite step_request. cbn [effects state].
    assert (closes (if isClosing st || negb (is_bundle u || is_html u)
                    then [End (length (responses st))]
                    else NextTick <$> queued st u) = 0) as ->.
    { unfold queued. by repeat case_match. }
    unfold pending. cbn. rewrite sum_list_with_app. simpl.
    unfold arrival, qualifies.
    destruct (isClosing st); simpl; [lia|].
    destruct (is_bundle u); simpl; [lia|].
    destruct (is_html u); simpl; [|lia].
    destruct (truthy (opts_javascript st)); simpl; lia.
  - destruct (ticks st) as [|t q] eqn:Hq.
    + rewrite step_tick_nil by done. simpl. unfold closes. simpl. lia.
    + rewrite (step_tick_cons _ _ t q) by done.
      destruct (next_cases SB t (set_ticks q st)) as (f & -> & Hf & ->).
      unfold pending. cbn. rewrite pending_alter_arming by done. lia.
  - simpl. destruct (responses st !! rid) as [r|] eqn:Hr;
      [|unfold closes; simpl; lia].
    destruct (ended r && negb (finished r)); [|unfold closes; simpl; lia].
    destruct (run_listeners_cases (finish_once r) (update rid mark_finished st))
      as (_ & _ & _ & _ & _ & Hrs & _ & Hn & _).
    unfold pending. rewrite Hrs. cbn.
    pose proof (pending_alter_mark rid (responses st) r Hr). lia.
  - simpl. destruct (timers st) as [|[] ?]; simpl.
    + unfold closes. simpl. lia.
    + rewrite closes_destroy. unfold pending. simpl. lia.
  - simpl. unfold closes. simpl. lia.
Qed.

Lemma run_account SB evs : ∀ st,
  closes (run SB evs st).2 + pending (run SB evs st).1
  ≤ pending st + accepted SB evs st.
Proof.
  induction evs as [|ev evs IH]; intros st; simpl.
  { unfold closes. simpl. lia. }
  specialize (IH (state (step SB ev st))).
  pose proof (step_account SB ev st).
  destruct (run SB evs (state (step SB ev st))) as [st' effs']. simpl in *.
  rewrite closes_app. lia.
Qed.

(** Once emitted, ['finish'] stays emitted. *)
Lemma step_finished SB ev st rid r :
  responses st !! rid = Some r → finished r = true →
  ∃ r', responses (state (step SB ev st)) !! rid = Some r' ∧ finished r' = true.
Proof.
  intros Hr Hf.
  assert (ev ≠ EvFinish rid ∨ ev = EvFinish rid) as [Hne| ->].
  { destruct ev as [| | | | |rid'| |]; try (by left).
    destruct (decide (rid' = rid)) as [->|]; [by right|left; congruence]. }
  - destruct (step_arming SB ev st rid r Hr Hne) as (r' & Hr' & Ha).
    exists r'. split; [done|]. unfold arming in Ha. by injection Ha as _ _ ->.
  - rewrite step_finish_idle; [by exists r|].
    intros r0 Hr0. right. congruence.
Qed.

Lemma run_finished SB evs : ∀ st rid r,
  responses st !! rid = Some r → finished r = true →
  ∃ r', responses (run SB evs st).1 !! rid = Some r' ∧ finished r' = true.
Proof.
  induction evs as [|ev evs IH]; intros st rid r Hr Hf; [by exists r|].
  rewrite run_cons.
  destruct (step_finished SB ev st rid r Hr Hf) as (r1 & Hr1 & Hf1). eauto.
Qed.

(** C4 (amended): the shutdown starts once for each armed response that
    completes: over the life of a server no more often than requests whose
    response is armed were received while serving, and never twice for one
    response; and once the server is closing it stays so, and every
    further request, whatever its path, is answered at once with status
    503 and no body. *)
Theorem C4_shutdown_once_per_armed_response
    SB boilerplate options clbk s a p evs st0 effs0 st effs :
  lifetime SB boilerplate options clbk s a p [] = Some (st0, effs0) →
  lifetime SB boilerplate options clbk s a p evs = Some (st, effs) →
  closes effs ≤ accepted SB evs st0
  ∧ (∀ rid evs',
       let fin := step SB (EvFinish rid) st in
       effects fin ≠ [] →
       effects (step SB (EvFinish rid) (run SB evs' (state fin)).1) = [])
  ∧ (isClosing st = true →
     ∀ path evs',
       let st' := (run SB evs' st).1 in
       let r := step SB (EvRequest path) st' in
       isClosing st' = true
       ∧ effects r = [End (length (responses st'))]
       ∧ responses (state r) !! length (responses st')
         = Some (mkResponse path 503 [] Undefined true [] false)
       ∧ ticks (state r) = ticks st'
       ∧ isClosing (state r) = true).
Proof.
  intros H0 H.
  destruct (lifetime_run _ _ _ _ _ _ _ _ _ _ H0) as (e0 & -> & _ & _).
  destruct (lifetime_run _ _ _ _ _ _ _ _ _ _ H) as (e & -> & -> & ->).
  cbn zeta. split_and!.
  - match goal with |- context [run SB evs ?st1] =>
      pose proof (run_account SB evs st1) as Hacc end.
    unfold pending in Hacc at 2. simpl in Hacc.
    change (Boot :: ListenConnections s :: ?l)
      with ([Boot; ListenConnections s] ++ l).
    rewrite !closes_app.
    assert (closes [Boot; ListenConnections s] = 0) as -> by done.
    assert (closes (if open options then [OpenURL a p] else []) = 0) as ->
      by (by destruct (open options)).
    assert (closes [Clbk (kept clbk) s] = 0) as -> by done.
    simpl. lia.
  - intros rid evs' Hfire.
    set (st := (run SB evs _).1) in *.
    simpl in Hfire.
    destruct (responses st !! rid) as [r|] eqn:Hr; [|done].
    destruct (ended r && negb (finished r)) eqn:Hen; [|done].
    assert (responses (state (step SB (EvFinish rid) st)) !! rid
            = Some (mark_finished r)) as Hr1.
    { simpl. rewrite Hr, Hen.
      destruct (run_listeners_cases (finish_once r) (update rid mark_finished st))
        as (_ & _ & _ & _ & _ & -> & _).
      cbn. by rewrite list_lookup_alter_eq, Hr. }
    destruct (run_finished SB evs' _ rid _ Hr1 eq_refl) as (r' & Hr' & Hf').
    rewrite step_finish_idle; [done|].
    intros r0 Hr0. right. congruence.
  - intros Hc path evs'.
    set (st := (run SB evs _).1) in *.
    pose proof (run_frame SB evs' st) as [_ _ Fc _].
    specialize (Fc Hc). rewrite step_request. cbn.
    unfold arrival, queued. rewrite Fc. simpl.
    split_and!; try done.
    + by rewrite lookup_app_r, Nat.sub_diag.
    + by rewrite app_nil_r.
Qed.

(** C4 on the server for [<h1>Beep</h1>] after one exchange. *)
Lemma C4_shutdown_once_per_armed_response_witness :
  closes (run false [EvRequest "/"; EvTick; EvFinish 0; EvRequest "/"] beep).2 ≤ 1.
Proof.
  destruct (C4_shutdown_once_per_armed_response false [] beep_options Absent 0
              "0.0.0.0" 8000 [EvRequest "/"; EvTick; EvFinish 0; EvRequest "/"]
              beep _ _ _ (beep_lifetime false) eq_refl) as [H _].
  exact H.
Defined.

(** C4 as stated fails: two requests for ['/'] are received before either
    response completes, and the shutdown starts twice. *)
Lemma C4_counterexample_two_requests_in_flight :
  ∃ st effs,
    lifetime false [] beep_options Absent 0 "0.0.0.0" 8000
      [EvRequest "/"; EvRequest "/"; EvTick; EvTick; EvFinish 0; EvFinish 1]
    = Some (st, effs)
    ∧ closes effs = 2
    ∧ ¬ closes effs ≤ 1.
Proof.
  eexists _, _. split; [reflexivity|]. split; [reflexivity|].
  vm_compute. lia.
Qed.

(** *** When a response is emitted *)

(** The response to a request for [url] received in [st] is not emitted
    within the turn that receives the request. *)
Definition deferred (SB : bool) (st : State) (url : string) : Prop :=
  End (length (responses st)) ∉ effects (step SB (EvRequest url) st).

(** What a task sends. *)
Definition payload (fcn : Sender) (st : State) : Content :=
  match fcn with
  | SendHTML => opts_html st
  | SendJavaScript => opts_javascript st
  end.

(** C7 (amended): the response to a request for ['/'], ['/index.html'] or
    ['/bundle.js'] received while serving is not emitted in the turn that
    receives the request: that turn only queues a task for the next tick,
    [sendHTML] for the page and [sendJavaScript] for the bundle.  The task
    emits the response when it runs if the payload it sends is present;
    when it is absent the task throws (on Node.js 6 and later, where
    [SUPPORTS_BUFFER] is false) and emits nothing.  In every state of a
    server's life the HTML payload is present, and the JavaScript payload
    is present exactly when the option was supplied.  The 404 response to
    any other path and the 503 response of a closing server are emitted
    within the turn that receives the request. *)
Theorem C7_content_deferred_errors_immediate SB st path :
  let rid := length (responses st) in
  let r := step SB (EvRequest path) st in
  (if negb (isClosing st) && (is_bundle path || is_html path)
   then deferred SB st path
        ∧ (∃ resp, responses (state r) !! rid = Some resp ∧ ended resp = false)
        ∧ ∃ fcn, fcn = (if is_bundle path then SendJavaScript else SendHTML)
                 ∧ effects r = [NextTick (Next fcn rid)]
                 ∧ ticks (state r) = ticks st ++ [Next fcn rid]
                 ∧ (∀ st', payload fcn st' ≠ Undefined →
                           effects (next SB (Next fcn rid) st') = [End rid])
                 ∧ (∀ st', payload fcn st' = Undefined →
                           effects (next false (Next fcn rid) st') = []
                           ∧ ∃ e, completion (next false (Next fcn rid) st')
                                  = Throw e)
   else ¬ deferred SB st path
        ∧ effects r = [End rid]
        ∧ ticks (state r) = ticks st
        ∧ ∃ resp, responses (state r) !! rid = Some resp ∧ ended resp = true
                  ∧ body resp = Undefined
                  ∧ statusCode resp = (if isClosing st then 503 else 404)%Z)
  ∧ (∀ boilerplate options clbk s a p evs st0 effs0,
       lifetime SB boilerplate options clbk s a p evs = Some (st0, effs0) →
       payload SendHTML st0 ≠ Undefined
       ∧ (payload SendJavaScript st0 ≠ Undefined
          ↔ javascript options ≠ Undefined)).
Proof.
  intros rid r. subst r. split.
  2:{ intros boilerplate options clbk s a p evs st0 effs0 H.
      destruct (lifetime_inv _ _ _ _ _ _ _ _ _ _ H) as ([[b Hb] _ _ _] & _ & Hj).
      simpl. rewrite Hb, Hj. split; [done|].
      by rewrite configured_javascript_Undefined. }
  unfold deferred. rewrite step_request. cbn.
  rewrite lookup_app_r, Nat.sub_diag by done. cbn.
  assert (∀ fcn st', payload fcn st' ≠ Undefined →
            effects (next SB (Next fcn rid) st') = [End rid]) as Hnext.
  { intros fcn st' Hp.
    destruct (byteLength_present SB _ Hp) as [n Hn].
    destruct fcn; simpl in *.
    - unfold sendHTML. by rewrite (send_ok _ _ _ _ _ n Hn).
    - unfold sendJavaScript. by rewrite (send_ok _ _ _ _ _ n Hn). }
  assert (∀ fcn st', payload fcn st' = Undefined →
            effects (next false (Next fcn rid) st') = []
            ∧ ∃ e, completion (next false (Next fcn rid) st') = Throw e)
    as Hthrow.
  { intros fcn st' Hp. destruct fcn; simpl in *.
    - unfold sendHTML. rewrite Hp.
      rewrite (send_throw false _ Undefined _ _ _ eq_refl). eauto.
    - unfold sendJavaScript. rewrite Hp.
      rewrite (send_throw false _ Undefined _ _ _ eq_refl). eauto. }
  unfold arrival, queued. fold rid.
  destruct (isClosing st); cbn.
  { split_and!; [|done|by rewrite app_nil_r|eexists; split_and!; reflexivity].
    intros H. apply H. by apply list_elem_of_singleton. }
  destruct (is_bundle path); cbn.
  { split_and!;
      [|eexists; split_and!; reflexivity
       |exists SendJavaScript; split_and!;
          [done|done|done|apply Hnext|apply Hthrow]].
    intros ?%list_elem_of_singleton. done. }
  destruct (is_html path); cbn.
  { split_and!;
      [|eexists; split_and!; reflexivity
       |exists SendHTML; split_and!;
          [done|done|done|apply Hnext|apply Hthrow]].
    intros ?%list_elem_of_singleton. done. }
  split_and!; [|done|by rewrite app_nil_r|eexists; split_and!; reflexivity].
  intros H. apply H. by apply list_elem_of_singleton.
Qed.

(** C7 on the server for [<h1>Beep</h1>], which has no JavaScript: the
    page is sent by its task, the bundle is not. *)
Lemma C7_content_deferred_errors_immediate_witness :
  effects (step false (EvRequest "/") beep) = [NextTick (Next SendHTML 0)]
  ∧ effects (next false (Next SendHTML 0) beep) = [End 0]
  ∧ effects (step false (EvRequest "/bundle.js") beep)
    = [NextTick (Next SendJavaScript 0)]
  ∧ effects (next false (Next SendJavaScript 0) beep) = []
  ∧ payload SendHTML beep ≠ Undefined.
Proof.
  destruct (C7_content_deferred_errors_immediate false beep "/")
    as [(_ & _ & fcn & -> & H1 & _ & H2 & _) Hlife].
  destruct (C7_content_deferred_errors_immediate false beep "/bundle.js")
    as [(_ & _ & fcn & -> & H3 & _ & _ & H4) _].
  split_and!.
  - exact H1.
  - apply (H2 beep). discriminate.
  - exact H3.
  - apply (H4 beep). reflexivity.
  - apply (Hlife [] beep_options Absent 0%nat "0.0.0.0" 8000%Z [] beep _
             (beep_lifetime false)).
Defined.

(** C7 as stated fails: the 404 response is emitted within the turn that
    receives the request. *)
Lemma C7_counterexample_404_is_immediate :
  isClosing beep = false
  ∧ effects (step false (EvRequest "/nope") beep) = [End 0]
  ∧ ¬ deferred false beep "/nope".
Proof.
  split_and!; [reflexivity|reflexivity|].
  intros H. apply H. vm_compute. by apply list_elem_of_singleton.
Qed.

(** *** A request for ['/bundle.js'] *)

(** C9: a request for ['/bundle.js'] received while serving queues the
    routine that sends the JavaScript and attaches the listener that
    starts the shutdown to its response, whether or not JavaScript is
    configured; the queued routine is [sendJavaScript] on whatever
    [opts.javascript] holds, and without JavaScript (on Node.js 6 and
    later) it sets status 200 and the JavaScript content type and throws
    on the absent payload: no 404 is sent. *)
Theorem C9_bundle_armed_without_javascript SB st :
  isClosing st = false →
  let rid := length (responses st) in
  let r := step SB (EvRequest "/bundle.js") st in
  completion r = Normal
  ∧ effects r = [NextTick (Next SendJavaScript rid)]
  ∧ ticks (state r) = ticks st ++ [Next SendJavaScript rid]
  ∧ responses (state r) !! rid
    = Some (mkResponse "/bundle.js" 200 [] Undefined false [OnFinish] false)
  ∧ (∀ st', next SB (Next SendJavaScript rid) st'
            = send SB "text/javascript" (opts_javascript st') rid st')
  ∧ (SB = false → opts_javascript st = Undefined →
     let r2 := next SB (Next SendJavaScript rid) (state r) in
     (∃ e, completion r2 = Throw e)
     ∧ effects r2 = []
     ∧ responses (state r2) !! rid
       = Some (mkResponse "/bundle.js" 200
                 [("Content-Type", HString "text/javascript")] Undefined false
                 [OnFinish] false)).
Proof.
  intros Hc rid r. subst r. rewrite step_request. cbn.
  unfold arrival, queued. rewrite Hc. cbn. fold rid.
  rewrite lookup_app_r, Nat.sub_diag by done. cbn.
  split_and!; try done.
  intros -> Hj. unfold sendJavaScript. cbn. rewrite Hj.
  assert (∃ e, byteLength false Undefined = inl e) as [e He].
  { unfold byteLength. simpl. eauto. }
  rewrite (send_throw _ _ _ _ _ e He). cbn.
  split_and!; [by exists e|done|].
  fold rid. by rewrite list_lookup_alter_eq, lookup_app_r, Nat.sub_diag.
Qed.

(** C9 on the server for [<h1>Beep</h1>], which has no JavaScript. *)
Lemma C9_bundle_armed_without_javascript_witness :
  effects (step false (EvRequest "/bundle.js") beep)
  = [NextTick (Next SendJavaScript 0)]
  ∧ (finish_once <$> responses (state (step false (EvRequest "/bundle.js") beep)) !! 0%nat)
    = Some [OnFinish].
Proof.
  destruct (C9_bundle_armed_without_javascript false beep eq_refl)
    as (_ & H1 & _ & H2 & _).
  split; [exact H1|].
  change (length (responses beep)) with 0%nat in H2. by rewrite H2.
Defined.

(** *** The content length *)

(** A server whose HTML is the single byte E9, [é] in ISO-8859-1. *)
Definition latin1_options : Options := mkOptions (Buf [xe9]) Undefined false.

(** C8 does not hold on Node.js 6 and later, where [SUPPORTS_BUFFER] is
    false: the one-byte payload E9 is served with a content length of 3. *)
Theorem C8_content_length_of_ill_formed_buffer :
  ∃ st effs r,
    lifetime false [] latin1_options Absent 0 "0.0.0.0" 8000 [] = Some (st, effs)
    ∧ response_to false st "/" = Some r
    ∧ body r = Buf [xe9]
    ∧ length [xe9] = 1
    ∧ headers r = [("Content-Length", HNumber 3);
                   ("Content-Type", HString "text/html")].
Proof.
  eexists _, _, _. split; [reflexivity|]. split; [reflexivity|]. done.
Qed.

(** Where the content length is right: for every payload that is
    well-formed UTF-8, in particular for every payload supplied as a
    string. *)
Lemma byteLength_Buf SB b :
  Buffer.well_formed b = true →
  byteLength SB (Buf b) = inr (Z.of_nat (length b)).
Proof.
  unfold byteLength. intros Hw.
  destruct SB; simpl; [done|]. by rewrite BufferSpec.byteLength_toString.
Qed.

Lemma served_content_length SB status type b r :
  served SB status (Some type) (Buf b) r →
  Buffer.well_formed b = true →
  headers r = [("Content-Length", HNumber (Z.of_nat (length b)));
               ("Content-Type", HString type)].
Proof.
  intros (_ & _ & _ & n & Hn & ->) Hw.
  rewrite byteLength_Buf in Hn by done. by injection Hn as <-.
Qed.

Lemma configured_html_string boilerplate s a js o :
  BufferSpec.code_units (a :: s) →
  ∃ b, configured_html boilerplate (mkOptions (Str (a :: s)) js o) = Buf b
       ∧ Buffer.well_formed b = true.
Proof.
  intros Hs. exists (Buffer.from_string (a :: s)). split; [done|].
  by apply BufferSpec.well_formed_from_string.
Qed.

End DisposableSpec.

(** * Further properties of the bind procedure *)

Module HttpServerExtra.
Import HttpServer HttpServerSpec.

Local Open Scope Z_scope.
Local Coercion Z.of_nat : nat >-> Z.

(** The hosts of the [listen] calls of a trace, in order. *)
Definition listen_hosts (effs : list Effect) : list string :=
  omap (fun e => match e with Listen _ _ h => Some h | _ => None end) effs.

(** What one event does to the closure and which [listen] call it issues:
    nothing, a retry on the next port, or an increment past the ceiling. *)
Lemma emit_closure ev st :
  let r := emit ev st in
  let p := port (clo st) in
  (clo (state r) = clo st ∧ attempts (effects r) = []
   ∧ listen_hosts (effects r) = [])
  ∨ (clo (state r) = clo (set_port (p + 1) st) ∧ p + 1 <= max (clo st)
     ∧ attempts (effects r) = [p + 1]
     ∧ listen_hosts (effects r) = [hostname (clo st)]
     ∧ completion r = Normal)
  ∨ (clo (state r) = clo (set_port (p + 1) st) ∧ max (clo st) < p + 1
     ∧ effects r = [] ∧ ∃ e, completion r = Throw e).
Proof.
  destruct ev as [s|s error]; simpl.
  - destruct (servers st !! s) as [[f []]|]; simpl; by left.
  - destruct (servers st !! s); simpl; [|by left].
    unfold errorListener. destruct (bool_decide _); simpl; [|by left].
    destruct (Z.leb_spec (port (clo st) + 1) (max (clo st))); simpl.
    + right; left. done.
    + right; right. split_and!; eauto.
Qed.

Lemma listen_hosts_app l1 l2 :
  listen_hosts (l1 ++ l2) = listen_hosts l1 ++ listen_hosts l2.
Proof. apply omap_app. Qed.

Lemma deliver_cons ev evs st :
  deliver (ev :: evs) st
  = (let r := emit ev st in
     ((deliver evs (state r)).1, effects r ++ (deliver evs (state r)).2)).
Proof. simpl. by destruct (deliver evs (state (emit ev st))). Qed.

Lemma deliver_retries evs : ∀ st,
  ∃ k : nat,
    attempts (deliver evs st).2 = seqZ (port (clo st) + 1) k
    ∧ listen_hosts (deliver evs st).2 = replicate k (hostname (clo st))
    ∧ (k ≠ 0%nat → port (clo st) + k <= max (clo st))
    ∧ port (clo st) + k <= port (clo (deliver evs st).1)
    ∧ max (clo (deliver evs st).1) = max (clo st)
    ∧ hostname (clo (deliver evs st).1) = hostname (clo st).
Proof.
  induction evs as [|ev evs IH]; intros st.
  { exists 0%nat. simpl. split_and!; try done; lia. }
  rewrite deliver_cons. cbn zeta. cbn [fst snd].
  destruct (IH (state (emit ev st))) as (k & Ha & Hh & Hk & Hp & Hm & Hn).
  rewrite attempts_app, listen_hosts_app.
  destruct (emit_closure ev st)
    as [(Hc & -> & ->)|[(Hc & Hle & -> & -> & _)|(Hc & Hgt & -> & _)]];
    rewrite Hc in *; simpl in *.
  - exists k. done.
  - exists (S k). split_and!; try done.
    + rewrite Ha, (seqZ_cons (port (clo st) + 1) (S k)) by lia.
      do 2 f_equal; lia.
    + by rewrite Hh.
    + intros _. destruct (decide (k = 0%nat)) as [->|Hne]; [lia|].
      specialize (Hk Hne). lia.
    + lia.
  - assert (k = 0%nat) as -> by (destruct (decide (k = 0%nat)); [done|lia]).
    exists 0%nat. split_and!; try done; lia.
Qed.

(** Retries never repeat a port: whatever events reach the servers of one
    factory, and for whichever of them, the retried [listen] calls are on
    the consecutive ports after the current one, each once, none above
    [max], all on the same host; and [port] ends at or above the last of
    them. *)
Theorem retries_are_consecutive evs st :
  ∃ k : nat,
    attempts (deliver evs st).2 = seqZ (port (clo st) + 1) k
    ∧ listen_hosts (deliver evs st).2 = replicate k (hostname (clo st))
    ∧ Forall (λ p, port (clo st) < p <= max (clo st)) (attempts (deliver evs st).2)
    ∧ NoDup (attempts (deliver evs st).2)
    ∧ port (clo st) + k <= port (clo (deliver evs st).1).
Proof.
  destruct (deliver_retries evs st) as (k & Ha & Hh & Hk & Hp & _ & _).
  exists k. split_and!; try done.
  - rewrite Ha. apply Forall_seqZ. intros p Hr.
    assert (k ≠ 0%nat) as Hne by lia. specialize (Hk Hne). lia.
  - rewrite Ha. apply NoDup_seqZ.
Qed.

(** Two servers that both found 8080 in use. *)
Lemma retries_are_consecutive_example :
  let st := (mkState (mkClosure None [] "127.0.0.1" 8080 8090)
               {[ 0%nat := mkServer 1 true; 1%nat := mkServer 2 true ]} 2) in
  let e := SystemError "EADDRINUSE" "in use" in
  attempts (deliver [EvError 0 e; EvError 1 e; EvError 0 e] st).2
  = [8081; 8082; 8083].
Proof. reflexivity. Qed.

Lemma emit_hostname ev st :
  hostname (clo (state (emit ev st))) = hostname (clo st)
  ∧ Forall (λ h, h = hostname (clo st)) (listen_hosts (effects (emit ev st))).
Proof.
  destruct (emit_closure ev st)
    as [(Hc & _ & ->)|[(Hc & _ & _ & -> & _)|(Hc & _ & -> & _)]];
    rewrite Hc; simpl; split; try done; by repeat constructor.
Qed.

Lemma hunt_hosts fuel : ∀ plat s p st,
  Forall (λ h, h = hostname (clo st)) (listen_hosts (trace (hunt fuel plat s p st))).
Proof.
  induction fuel as [|fuel IH]; intros plat s p st; cbn [hunt];
    destruct (emit_hostname (answer plat s p) st) as [Hn Hh];
    destruct (completion (emit (answer plat s p) st)); try done;
    destruct (plat p); try done;
    destruct (listening_on s (effects (emit (answer plat s p) st))); try done.
  cbn [trace]. rewrite listen_hosts_app. apply Forall_app. split; [done|].
  rewrite <- Hn. apply IH.
Qed.

(** The host an options object resolves to: a non-empty [hostname], else a
    non-empty [address], else the default. *)
Definition resolved_host (o : Options) : string :=
  match opt_hostname o with
  | Some (String a h) => String a h
  | _ =>
      match opt_address o with
      | Some (String a h) => String a h
      | _ => DEFAULTS_address
      end
  end.

(** Every [listen] call of the bind procedure, the first one and each
    retry, is on the host the factory resolved from its options:
    [hostname] when it is a non-empty string, else [address] when it is a
    non-empty string, else 127.0.0.1. *)
Theorem every_listen_on_resolved_host SO plat o args c inv f :
  args = [VObject o] ∨ (∃ l, args = [VObject o; VFunction l]) →
  factory args = inr c →
  callback_of inv = Some f →
  let run := bind SO plat inv (init c) in
  listen_hosts (trace run) ≠ []
  ∧ Forall (λ h, h = resolved_host o) (listen_hosts (trace run)).
Proof.
  intros Hargs Hc Hcb run.
  assert (hostname c = resolved_host o) as Hhost.
  { unfold resolved_host.
    destruct Hargs as [->|[l ->]]; simpl in Hc; injection Hc as <-; simpl;
      destruct (opt_hostname o) as [[|? ?]|]; simpl; try done;
      destruct (opt_address o) as [[|? ?]|]; simpl; done. }
  subst run. unfold bind, drive.
  destruct (invoke_valid SO inv (init c) f Hcb) as [opts ->].
  rewrite listening_on_start. change (completion (start _ _ _ _)) with Normal.
  cbn iota. cbn [trace]. rewrite listen_hosts_app.
  assert (listen_hosts (effects (start SO (init c) opts f)) = [hostname c]) as ->.
  { unfold start, createServer. simpl. by destruct (requestListener c), SO. }
  split; [done|]. rewrite <- Hhost. constructor; [done|].
  apply (hunt_hosts _ plat _ _ (state (start SO (init c) opts f))).
Qed.

Lemma every_listen_on_resolved_host_witness :
  let o := mkOptions (Some 8080) (Some 8082) (Some "localhost") (Some "0.0.0.0") [] in
  let c := mkClosure None [] "localhost" 8080 8082 in
  let run := bind true plat_8082 (Call1 (VFunction 7)) (init c) in
  listen_hosts (trace run) ≠ []
  ∧ Forall (λ h, h = "localhost") (listen_hosts (trace run)).
Proof.
  intros o c.
  exact (every_listen_on_resolved_host true plat_8082 o [VObject o] c
           (Call1 (VFunction 7)) 7%nat (or_introl eq_refl) eq_refl eq_refl).
Defined.

(** Whether the arguments of [factory] leave [maxport] out. *)
Definition maxport_absent (args : list Value) : Prop :=
  match args with
  | [] => True
  | [VFunction _] => True
  | VObject o :: _ => opt_maxport o = None
  | _ => False
  end.

Lemma factory_maxport_absent args c :
  factory args = inr c → maxport_absent args → max c = port c.
Proof.
  destruct args as [|[f|o|r] [|[g|o'|r'] rest]]; simpl; intros H Ho;
    try done; try (by injection H as <-);
    injection H as <-; simpl; by rewrite Ho.
Qed.

(** Without a [maxport] option there is no port hunting: the bind
    procedure makes exactly one [listen] call, on [port], whatever the
    platform answers; no later event leads to another [listen] call; and
    every error event of a server, before or after it is bound, is
    thrown. *)
Theorem no_maxport_no_retry SO plat args c inv f evs :
  factory args = inr c →
  maxport_absent args →
  callback_of inv = Some f →
  let run := bind SO plat inv (init c) in
  let st' := (deliver evs (final run)).1 in
  attempts (trace run) = [port c]
  ∧ attempts (deliver evs (final run)).2 = []
  ∧ ∀ s e, is_Some (servers st' !! s) →
           completion (emit (EvError s e) st') = Throw e
           ∧ effects (emit (EvError s e) st') = [].
Proof.
  intros Hc Ho Hcb run st'.
  pose proof (factory_maxport_absent args c Hc Ho) as Hmax.
  destruct (bind_shape SO plat inv (init c) f Hcb)
    as (_ & k & Hatt & _ & Hk & Hm & _ & Hend).
  fold run in Hatt, Hm, Hend. simpl in Hatt, Hk, Hm.
  assert (k = 0%nat) as -> by (destruct Hk; [done|lia]).
  assert (max c <= port (clo (final run))) as Hport.
  { destruct Hend as [_ _ Hp _ _|e _ _ _ Hp _ _|e _ _ _ _ Hp _ _];
      simpl in Hp; lia. }
  destruct (deliver_retries evs (final run)) as (k & Ha & _ & Hk' & Hp & Hm' & _).
  fold st' in Hp, Hm'.
  assert (k = 0%nat) as -> by (destruct (decide (k = 0%nat)); [done|lia]).
  split_and!; [done|done|].
  intros s e [sv Hs]. simpl. rewrite Hs.
  apply errorListener_throw. intros [_ Hlt]. lia.
Qed.

Lemma no_maxport_no_retry_witness :
  let c := mkClosure None [] "127.0.0.1" 10000 10000 in
  let run := bind true (λ _, Free) (Call1 (VFunction 7)) (init c) in
  let e := SystemError "EADDRINUSE" "Server address already in use." in
  outcome run = Bound 0
  ∧ completion (emit (EvError 0 e) (final run)) = Throw e.
Proof.
  intros c run e.
  destruct (no_maxport_no_retry true (λ _, Free)
              [VObject (mkOptions (Some 10000) None None None [])] c
              (Call1 (VFunction 7)) 7%nat [] eq_refl eq_refl eq_refl)
    as (_ & _ & H).
  split; [reflexivity|]. apply (H 0%nat e). by eexists.
Defined.

(** A bind procedure called without a callback, with a callback that is
    not a function, or (second variant) with options that are not an
    object, throws a [TypeError] before anything is created: no server, no
    [listen] call, and the closure is as it was, so the invocations that
    follow are not affected. *)
Theorem rejected_invocation_leaves_no_trace SO plat inv st :
  callback_of inv = None →
  ∃ e, invoke SO inv st = mkResult (Throw e) st []
       ∧ name e = "TypeError" ∧ code e = None
       ∧ bind SO plat inv st = mkRun (Failed e) st [].
Proof.
  intros Hcb.
  assert (∃ e, invoke SO inv st = mkResult (Throw e) st []
               ∧ name e = "TypeError" ∧ code e = None) as (e & He & Hn & Hc).
  { destruct inv as [[]|[|[] [|[] ?]]]; simpl in *; simplify_eq; eauto. }
  exists e. split_and!; try done. unfold bind. by rewrite He.
Qed.

Lemma rejected_invocation_leaves_no_trace_witness :
  ∃ e, bind true plat_8082 (Call2 [VOther "null"; VFunction 1])
         (init (mkClosure None [] "127.0.0.1" 8080 8082))
       = mkRun (Failed e) (init (mkClosure None [] "127.0.0.1" 8080 8082)) [].
Proof.
  destruct (rejected_invocation_leaves_no_trace true plat_8082
              (Call2 [VOther "null"; VFunction 1])
              (init (mkClosure None [] "127.0.0.1" 8080 8082)) eq_refl)
    as (e & _ & _ & _ & H).
  by exists e.
Defined.

(** After a hunt that found every port up to [max] in use, [port] is left
    at [max + 1]: the next invocation of the same bind procedure makes one
    [listen] call, on [max + 1], above the configured ceiling, binds there
    if that port is free, and does not retry. *)
Theorem exhausted_hunt_leaves_port_above_max SO plat inv1 inv2 f1 f2 st :
  callback_of inv1 = Some f1 →
  callback_of inv2 = Some f2 →
  port (clo st) <= max (clo st) →
  (∀ p, port (clo st) <= p <= max (clo st) → in_use (plat p) = true) →
  let run1 := bind SO plat inv1 st in
  let run2 := bind SO plat inv2 (final run1) in
  (∃ e, outcome run1 = Failed e ∧ plat (max (clo st)) = Fails e)
  ∧ port (clo (final run1)) = max (clo st) + 1
  ∧ attempts (trace run2) = [max (clo st) + 1]
  ∧ (plat (max (clo st) + 1) = Free → outcome run2 = Bound (S (next_server st))).
Proof.
  intros Hcb1 Hcb2 Hle Hocc run1 run2.
  destruct (bind_shape SO plat inv1 st f1 Hcb1)
    as (_ & k & _ & _ & Hk & Hm & Hn & Hend).
  fold run1 in Hm, Hn, Hend.
  assert (port (clo st) + k <= max (clo st)) as Hk' by (destruct Hk; lia).
  pose proof (Hocc (port (clo st) + k) ltac:(lia)) as Hin.
  assert ((∃ e, outcome run1 = Failed e ∧ plat (max (clo st)) = Fails e)
          ∧ port (clo (final run1)) = max (clo st) + 1) as [Hfail Hport].
  { destruct Hend as [H1 _ _ _ _|e H1 H2 _ _ _ _|e H1 H2 H3 H4 H5 _ _];
      simpl in *.
    - rewrite H1 in Hin. done.
    - rewrite H1 in Hin. simpl in Hin. congruence.
    - assert (port (clo st) + k = max (clo st)) as HE by lia.
      rewrite HE in H1. split; [by exists e|lia]. }
  split; [done|]. split; [done|].
  destruct (bind_shape SO plat inv2 (final run1) f2 Hcb2)
    as (_ & k2 & Hatt2 & _ & Hk2 & _ & _ & Hend2).
  fold run2 in Hatt2, Hend2. rewrite Hport, Hm in *.
  assert (k2 = 0%nat) as -> by (destruct Hk2; [done|lia]).
  split; [done|].
  intros Hfree.
  destruct Hend2 as [_ H2 _ _ _|e H1 _ _ _ _ _|e H1 _ _ _ _ _ _];
    simpl in *; rewrite ?Hport, ?Z.add_0_r in *; [by rewrite H2, Hn|congruence..].
Qed.

(** A platform on which the ports up to 8082 are in use. *)
Definition plat_above_8082 (p : Z) : ListenResult :=
  if decide (p <= 8082) then Fails (SystemError "EADDRINUSE" "in use") else Free.

Lemma exhausted_hunt_leaves_port_above_max_witness :
  let st := init (mkClosure None [] "127.0.0.1" 8080 8082) in
  let run1 := bind true plat_above_8082 (Call1 (VFunction 1)) st in
  let run2 := bind true plat_above_8082 (Call1 (VFunction 2)) (final run1) in
  attempts (trace run2) = [8083] ∧ outcome run2 = Bound 1.
Proof.
  intros st run1 run2.
  destruct (exhausted_hunt_leaves_port_above_max true plat_above_8082
              (Call1 (VFunction 1)) (Call1 (VFunction 2)) 1%nat 2%nat st
              eq_refl eq_refl) as (_ & _ & H1 & H2).
  - simpl. lia.
  - intros p Hp. simpl in Hp. unfold plat_above_8082.
    rewrite decide_True by lia. done.
  - split; [exact H1|]. apply H2. reflexivity.
Defined.

(** *** Several servers of one factory *)

(** What happens to the servers of one factory: the bind procedure is
    invoked, or the platform delivers an event to a server. *)
Inductive Action :=
| Invoke (inv : Invocation)
| Deliver (ev : Event).

Definition act (SO : bool) (a : Action) (st : State) : Result :=
  match a with
  | Invoke inv => invoke SO inv st
  | Deliver ev => emit ev st
  end.

Fixpoint play (SO : bool) (acts : list Action) (st : State) : State * list Effect :=
  match acts with
  | [] => (st, [])
  | a :: acts' =>
      let r := act SO a st in
      let '(st', effs) := play SO acts' (state r) in
      (st', effects r ++ effs)
  end.

(** The callbacks of a trace that were handed [server]. *)
Definition callbacks_with (server : nat) (effs : list Effect)
  : list (nat * option JsError * nat) :=
  filter (λ c, c.2 = server) (callbacks effs).

(** Each server is absent and never called back, or waits for
    ['listening'] and was never called back, or was called back once with
    the callback of its invocation. *)
Definition Ledger (st : State) (effs : list Effect) : Prop :=
  ∀ s,
    match servers st !! s with
    | None => callbacks_with s effs = []
    | Some (mkServer f true) => s < next_server st ∧ callbacks_with s effs = []
    | Some (mkServer f false) =>
        s < next_server st ∧ callbacks_with s effs = [(f, None, s)]
    end%nat.

Lemma callbacks_with_app s l1 l2 :
  callbacks_with s (l1 ++ l2) = callbacks_with s l1 ++ callbacks_with s l2.
Proof. unfold callbacks_with. by rewrite callbacks_app, filter_app. Qed.

Lemma callbacks_with_one_eq f s :
  callbacks_with s [Callback f None s] = [(f, None, s)].
Proof.
  unfold callbacks_with.
  change (callbacks [Callback f None s]) with [(f, @None JsError, s)].
  by rewrite filter_cons_True, filter_nil.
Qed.

Lemma callbacks_with_one_ne f s s0 :
  s ≠ s0 → callbacks_with s [Callback f None s0] = [].
Proof.
  intros Hne. unfold callbacks_with.
  change (callbacks [Callback f None s0]) with [(f, @None JsError, s0)].
  rewrite filter_cons_False, filter_nil; [done|]. simpl. congruence.
Qed.

Lemma Ledger_act SO a st effs :
  Ledger st effs → Ledger (state (act SO a st)) (effs ++ effects (act SO a st)).
Proof.
  intros HL. destruct a as [inv|[s0|s0 error]]; cbn [act emit].
  - destruct (callback_of inv) as [f|] eqn:Hcb.
    + destruct (invoke_valid SO inv st f Hcb) as [opts ->].
      intros s. rewrite callbacks_with_app.
      assert (callbacks_with s (effects (start SO st opts f)) = []) as ->.
      { unfold callbacks_with. by rewrite callbacks_start. }
      rewrite app_nil_r. specialize (HL s).
      unfold start. cbn [state servers next_server].
      destruct (decide (s = next_server st)) as [->|Hne].
      * rewrite lookup_insert_eq. split; [lia|].
        destruct (servers st !! next_server st) as [[g []]|]; [lia..|done].
      * rewrite lookup_insert_ne by done.
        destruct (servers st !! s) as [[g []]|]; [split; [lia|tauto]..|done].
    + destruct (invoke_invalid SO inv st Hcb) as [e ->]. simpl.
      by rewrite app_nil_r.
  - destruct (servers st !! s0) as [[f []]|] eqn:Hs0;
      cbn [onListen state effects servers next_server];
      rewrite ?app_nil_r; try done.
    intros s. rewrite callbacks_with_app. specialize (HL s).
    cbn [servers next_server].
    destruct (decide (s = s0)) as [->|Hne].
    + rewrite lookup_insert_eq. rewrite Hs0 in HL. destruct HL as [? ->].
      split; [done|]. by rewrite callbacks_with_one_eq.
    + rewrite lookup_insert_ne by done.
      rewrite callbacks_with_one_ne by done. by rewrite app_nil_r.
  - destruct (servers st !! s0) as [sv|]; cbn [state effects];
      [|by rewrite app_nil_r].
    unfold errorListener.
    destruct (bool_decide _); cbn [state effects]; [|by rewrite app_nil_r].
    cbn zeta.
    destruct (_ <=? _); cbn [state effects]; intros s'; specialize (HL s');
      rewrite ?app_nil_r; rewrite ?callbacks_with_app;
      unfold set_port; cbn [servers next_server];
      [assert (∀ p h, callbacks_with s' [Listen s0 p h] = []) as -> by done;
       by rewrite app_nil_r|done].
Qed.

Lemma Ledger_play SO acts : ∀ st effs,
  Ledger st effs → Ledger (play SO acts st).1 (effs ++ (play SO acts st).2).
Proof.
  induction acts as [|a acts IH]; intros st effs HL; simpl.
  { by rewrite app_nil_r. }
  specialize (IH _ _ (Ledger_act SO a st effs HL)).
  destruct (play SO acts (state (act SO a st))) as [st' effs'].
  simpl in *. by rewrite app_assoc.
Qed.

(** However invocations of one bind procedure and the events of their
    servers interleave, the callback of an invocation is called at most
    once, with [null] and the server of that same invocation, and no
    callback is ever called with the server of another invocation. *)
Theorem each_server_calls_back_its_own_callback_once SO acts c s :
  let st' := (play SO acts (init c)).1 in
  let effs := (play SO acts (init c)).2 in
  (length (callbacks_with s effs) ≤ 1)%nat
  ∧ ∀ f err, (f, err, s) ∈ callbacks effs →
      err = None ∧ servers st' !! s = Some (mkServer f false)
      ∧ callbacks_with s effs = [(f, None, s)].
Proof.
  intros st' effs.
  assert (Ledger st' effs) as HL.
  { apply (Ledger_play SO acts (init c) []). intros s'. simpl.
    by rewrite lookup_empty. }
  specialize (HL s).
  split.
  - destruct (servers st' !! s) as [[g []]|]; [destruct HL as [_ ->]..|rewrite HL];
      simpl; lia.
  - intros f err Hin.
    assert ((f, err, s) ∈ callbacks_with s effs) as Hin'.
    { unfold callbacks_with. apply list_elem_of_filter. done. }
    destruct (servers st' !! s) as [[g []]|].
    + destruct HL as [_ HL]. rewrite HL in Hin'. by apply elem_of_nil in Hin'.
    + destruct HL as [_ HL]. rewrite HL in Hin' |- *.
      apply list_elem_of_singleton in Hin'. by injection Hin' as -> ->.
    + rewrite HL in Hin'. by apply elem_of_nil in Hin'.
Qed.

(** Two invocations whose servers bind in the opposite order. *)
Lemma each_server_calls_back_its_own_callback_once_example :
  callbacks
    (play true [Invoke (Call1 (VFunction 10)); Invoke (Call1 (VFunction 20));
                Deliver (EvListening 1); Deliver (EvListening 0);
                Deliver (EvListening 1)]
       (init (mkClosure None [] "127.0.0.1" 0 0))).2
  = [(20%nat, None, 1%nat); (10%nat, None, 0%nat)].
Proof. reflexivity. Qed.

End HttpServerExtra.

(** * Further properties of the disposable server *)

Module DisposableExtra.
Import Disposable DisposableSpec.

(** *** One response per request *)

(** The number of calls of [end] on a response in a trace. *)
Definition ends (response : nat) (effs : list Effect) : nat :=
  length (omap (λ e, match e with
                     | End r => if decide (r = response) then Some r else None
                     | _ => None
                     end) effs).

(** Whether [end] was called on a response. *)
Definition ended_at (response : nat) (st : State) : bool :=
  match responses st !! response with
  | Some r => ended r
  | None => false
  end.

(** Queued tasks are for distinct responses, none of them ended. *)
Definition Queue_ok (st : State) : Prop :=
  NoDup (task_response <$> ticks st)
  ∧ Forall (λ t, ended_at (task_response t) st = false
                 ∧ task_response t < length (responses st)) (ticks st).

Lemma ends_app rid l1 l2 : ends rid (l1 ++ l2) = ends rid l1 + ends rid l2.
Proof. unfold ends. by rewrite omap_app, length_app. Qed.

Lemma ends_End_eq rid : ends rid [End rid] = 1.
Proof. unfold ends. simpl. by rewrite decide_True. Qed.

Lemma ends_End_ne rid r : r ≠ rid → ends rid [End r] = 0.
Proof. intros H. unfold ends. simpl. by rewrite decide_False. Qed.

Lemma ends_run_listeners rid ls : ∀ st, ends rid (effects (run_listeners ls st)) = 0.
Proof.
  induction ls as [|[] ls IH]; intros st; [done|].
  cbn [run_listeners run_listener]. unfold andThen.
  assert (ends rid (effects (onFinish st)) = 0) as H0.
  { unfold onFinish. cbn. by destruct (server st). }
  destruct (completion (onFinish st)); [|done].
  cbn [effects]. by rewrite ends_app, H0, IH.
Qed.

Lemma ended_at_update_eq rid f st r :
  responses st !! rid = Some r → ended_at rid (update rid f st) = ended (f r).
Proof. intros H. unfold ended_at. cbn. by rewrite list_lookup_alter_eq, H. Qed.

Lemma ended_at_update_ne rid rid' f st :
  rid' ≠ rid → ended_at rid (update rid' f st) = ended_at rid st.
Proof. intros H. unfold ended_at. cbn. by rewrite list_lookup_alter_ne. Qed.

Lemma ended_at_update_same rid rid' f st :
  (∀ r, ended (f r) = ended r) →
  ended_at rid (update rid' f st) = ended_at rid st.
Proof.
  intros Hf. destruct (decide (rid' = rid)) as [->|Hne].
  - unfold ended_at. cbn. rewrite list_lookup_alter_eq.
    destruct (responses st !! rid); simpl; [apply Hf|done].
  - by apply ended_at_update_ne.
Qed.

(** A task ends its response, or throws and leaves it open. *)
Lemma next_ended SB t st :
  (effects (next SB t st) = [End (task_response t)]
   ∧ ∃ f, state (next SB t st) = update (task_response t) f st
          ∧ ∀ r, ended (f r) = true)
  ∨ (effects (next SB t st) = []
     ∧ ∃ f, state (next SB t st) = update (task_response t) f st
            ∧ ∀ r, ended (f r) = ended r).
Proof.
  destruct t as [[] rid]; simpl; unfold sendHTML, sendJavaScript.
  - destruct (byteLength SB (opts_html st)) as [e|n] eqn:H.
    + rewrite (send_throw _ _ _ _ _ e H). right. split; [done|]. by eexists.
    + rewrite (send_ok _ _ _ _ _ n H). left. split; [done|]. by eexists.
  - destruct (byteLength SB (opts_javascript st)) as [e|n] eqn:H.
    + rewrite (send_throw _ _ _ _ _ e H). right. split; [done|]. by eexists.
    + rewrite (send_ok _ _ _ _ _ n H). left. split; [done|]. by eexists.
Qed.

Lemma ended_arrival st url :
  ended (arrival st url) = isClosing st || negb (is_bundle url || is_html url).
Proof.
  unfold arrival. destruct (isClosing st); [done|].
  destruct (is_bundle url); [done|]. by destruct (is_html url).
Qed.

Lemma queued_cases st url :
  (isClosing st || negb (is_bundle url || is_html url) = true ∧ queued st url = [])
  ∨ (isClosing st || negb (is_bundle url || is_html url) = false
     ∧ ∃ fcn, queued st url = [Next fcn (length (responses st))]).
Proof.
  unfold queued. destruct (isClosing st); [by left|].
  destruct (is_bundle url); [right; eauto|].
  destruct (is_html url); [right; eauto|by left].
Qed.

Lemma ends_destroy rid (l : list (string * nat)) :
  ends rid ((λ kv, Destroy kv.1 kv.2) <$> l) = 0.
Proof. unfold ends. by induction l. Qed.

Lemma ends_NextTick rid (q : list Task) : ends rid (NextTick <$> q) = 0.
Proof. unfold ends. by induction q. Qed.

Lemma Queue_ok_ext st st' :
  responses st' = responses st → ticks st' = ticks st →
  Queue_ok st → Queue_ok st'.
Proof.
  unfold Queue_ok, ended_at. intros -> ->. done.
Qed.

Lemma ended_at_ext rid st st' :
  responses st' = responses st → ended_at rid st' = ended_at rid st.
Proof. unfold ended_at. by intros ->. Qed.

Lemma ended_at_beyond rid st :
  length (responses st) ≤ rid → ended_at rid st = false.
Proof.
  intros H. unfold ended_at. by rewrite lookup_ge_None_2.
Qed.

(** One turn keeps the queue in order and ends a response at most once. *)
Lemma step_ended SB ev st :
  Queue_ok st →
  Queue_ok (state (step SB ev st))
  ∧ ∀ rid, ends rid (effects (step SB ev st)) + Nat.b2n (ended_at rid st)
           = Nat.b2n (ended_at rid (state (step SB ev st))).
Proof.
  intros [Hnd Hq].
  destruct ev as [err s a p|a p sk|k|u| |rid0| |].
  - destruct err; simpl; [done|]. split; [done|]. intros rid.
    by destruct (opts_open st).
  - done.
  - done.
  - rewrite step_request. cbn [state effects].
    assert (∀ rid, rid < length (responses st) →
              ended_at rid (set_ticks (ticks st ++ queued st u)
                 (set_responses (responses st ++ [arrival st u]) st))
              = ended_at rid st) as Hold.
    { intros rid Hlt. unfold ended_at. cbn. by rewrite lookup_app_l. }
    assert (ended_at (length (responses st))
              (set_ticks (ticks st ++ queued st u)
                 (set_responses (responses st ++ [arrival st u]) st))
            = ended (arrival st u)) as Hnew.
    { unfold ended_at. cbn. by rewrite lookup_app_r, Nat.sub_diag. }
    assert (Forall (λ t, ended_at (task_response t)
                (set_ticks (ticks st ++ queued st u)
                   (set_responses (responses st ++ [arrival st u]) st)) = false
              ∧ task_response t < length (responses st ++ [arrival st u]))
              (ticks st)) as Hq'.
    { eapply Forall_impl; [exact Hq|]. cbn beta. intros t [He Hlt].
      rewrite Hold by done. rewrite length_app. simpl. split; [done|lia]. }
    destruct (queued_cases st u) as [[Hc Hno]|[Hc [fcn Hyes]]];
      rewrite Hc.
    + split.
      * split; cbn; rewrite Hno, app_nil_r; done.
      * intros rid. destruct (decide (rid = length (responses st))) as [->|Hne].
        -- rewrite ends_End_eq, Hnew, ended_arrival, Hc.
           by rewrite ended_at_beyond.
        -- rewrite ends_End_ne by done. rewrite Nat.add_0_l.
           destruct (decide (rid < length (responses st))) as [Hlt|Hge].
           ++ by rewrite Hold.
           ++ rewrite (ended_at_beyond rid st) by lia.
              rewrite ended_at_beyond; [done|].
              cbn. rewrite length_app. simpl. lia.
    + split.
      * split; cbn [ticks responses set_ticks set_responses]; rewrite Hyes.
        -- rewrite fmap_app. apply NoDup_app. split_and!; [done| |].
           ++ intros x Hx. simpl. rewrite list_elem_of_singleton. intros ->.
              apply list_elem_of_fmap in Hx as (t & Ht & Hin).
              rewrite Forall_forall in Hq. destruct (Hq t Hin) as [_ Hlt]. lia.
           ++ simpl. apply NoDup_singleton.
        -- apply Forall_app. split; [exact Hq'|].
           constructor; [|constructor]. cbn [task_response].
           rewrite Hyes in Hnew. rewrite Hnew, ended_arrival, Hc.
           split; [done|]. rewrite length_app. simpl. lia.
      * intros rid. rewrite ends_NextTick, Nat.add_0_l.
        destruct (decide (rid < length (responses st))) as [Hlt|Hge].
        -- by rewrite Hold.
        -- destruct (decide (rid = length (responses st))) as [->|Hne].
           ++ rewrite Hnew, ended_arrival, Hc. by rewrite ended_at_beyond.
           ++ rewrite (ended_at_beyond rid st) by lia.
              rewrite ended_at_beyond; [done|].
              cbn. rewrite length_app. simpl. lia.
  - destruct (ticks st) as [|t q] eqn:Hticks.
    { rewrite step_tick_nil by done.
      split; [split; cbn [state]; rewrite Hticks; constructor|done]. }
    rewrite (step_tick_cons _ _ t q) by done.
    simpl in Hnd. apply NoDup_cons in Hnd as [Hnot Hnd].
    apply Forall_cons in Hq as [[Het Hlt] Hq].
    destruct (lookup_lt_is_Some_2 _ _ Hlt) as [r Hr].
    assert (Forall (λ t', task_response t' ≠ task_response t) q) as Hne.
    { apply Forall_forall. intros t' Hin Heq. apply Hnot. rewrite <- Heq.
      apply list_elem_of_fmap. eauto. }
    assert (∀ f, Queue_ok (update (task_response t) f (set_ticks q st))) as HQ.
    { intros f. split; cbn [ticks update set_responses set_ticks]; [done|].
      rewrite Forall_forall in Hq, Hne. apply Forall_forall. intros t' Hin.
      destruct (Hq t' Hin) as [He' Hlt'].
      split.
      - change (ended_at (task_response t')
                  (update (task_response t) f (set_ticks q st)) = false).
        rewrite ended_at_update_ne by (intros ?; by eapply Hne).
        by rewrite (ended_at_ext _ st (set_ticks q st)).
      - cbn. by rewrite length_alter. }
    destruct (next_ended SB t (set_ticks q st))
      as [[-> (f & -> & Hf)]|[-> (f & -> & Hf)]].
    + split; [apply HQ|]. intros rid.
      destruct (decide (rid = task_response t)) as [->|Hrid].
      * rewrite ends_End_eq, Het. rewrite (ended_at_update_eq _ _ _ r) by done.
        by rewrite Hf.
      * rewrite ends_End_ne by done. rewrite ended_at_update_ne by done.
        by rewrite (ended_at_ext _ st (set_ticks q st)).
    + split; [apply HQ|]. intros rid. rewrite ended_at_update_same by done.
      by rewrite (ended_at_ext _ st (set_ticks q st)).
  - simpl. destruct (responses st !! rid0) as [r|]; [|done].
    destruct (ended r && negb (finished r)); [|done].
    destruct (run_listeners_cases (finish_once r) (update rid0 mark_finished st))
      as (_ & _ & _ & _ & _ & Hr & Ht & _).
    assert (∀ rid, ended_at rid (update rid0 mark_finished st) = ended_at rid st)
      as Hsame by (intros; by apply ended_at_update_same).
    split.
    + eapply Queue_ok_ext; [exact Hr|exact Ht|].
      split; cbn [ticks update set_responses]; [done|].
      eapply Forall_impl; [exact Hq|]. cbn beta. intros t [He Hlt].
      rewrite Hsame. cbn. by rewrite length_alter.
    + intros rid. rewrite ends_run_listeners.
      by rewrite (ended_at_ext _ _ _ Hr), Hsame.
  - simpl. destruct (timers st) as [|[] tm]; [done|].
    cbn [state effects destroyConnections]. split; [done|].
    intros rid. by rewrite ends_destroy.
  - done.
Qed.

Lemma run_ended SB evs : ∀ st,
  Queue_ok st →
  Queue_ok (run SB evs st).1
  ∧ ∀ rid, ends rid (run SB evs st).2 + Nat.b2n (ended_at rid st)
           = Nat.b2n (ended_at rid (run SB evs st).1).
Proof.
  induction evs as [|ev evs IH]; intros st HQ; [done|].
  destruct (step_ended SB ev st HQ) as [HQ1 H1].
  destruct (IH _ HQ1) as [HQ2 H2].
  simpl. destruct (run SB evs (state (step SB ev st))) as [st' effs'].
  simpl in *. split; [done|]. intros rid.
  rewrite ends_app, <- H2, <- H1. lia.
Qed.

(** In the life of a server, [end] is called at most once on each
    response: the trace holds one call for a response that was ended and
    none for any other. *)
Theorem response_ended_at_most_once
    SB boilerplate options clbk s a p evs st effs response :
  lifetime SB boilerplate options clbk s a p evs = Some (st, effs) →
  ends response effs = (if ended_at response st then 1 else 0).
Proof.
  intros H. destruct (lifetime_run _ _ _ _ _ _ _ _ _ _ H) as (effs' & -> & -> & ->).
  match goal with |- context [run SB evs ?st1] =>
    destruct (run_ended SB evs st1) as [_ Hn] end.
  { split; constructor. }
  specialize (Hn response). unfold ended_at at 1 in Hn. simpl in Hn.
  rewrite Nat.add_0_r in Hn.
  change (Boot :: ListenConnections s :: ?l) with ([Boot; ListenConnections s] ++ l).
  rewrite !ends_app, Hn.
  assert (ends response (if open options then [OpenURL a p] else []) = 0) as ->
    by by destruct (open options).
  by destruct (ended_at response _).
Qed.

(** A request for the page, one for an unknown path, the page sent and
    finished, and a request refused while closing. *)
Definition busy_events : list Event :=
  [EvRequest "/"; EvRequest "/nope"; EvTick; EvFinish 0; EvRequest "/"].

Lemma response_ended_at_most_once_witness :
  ∃ st effs,
    lifetime false [] beep_options Absent 0 "0.0.0.0" 8000 busy_events
    = Some (st, effs)
    ∧ ends 0 effs = 1 ∧ ends 1 effs = 1 ∧ ends 2 effs = 1 ∧ ends 3 effs = 0.
Proof.
  eexists _, _. split; [reflexivity|].
  split_and!;
    match goal with |- ends ?r ?e = _ =>
      rewrite (response_ended_at_most_once false [] beep_options Absent 0
                 "0.0.0.0" 8000 busy_events _ e r eq_refl) end; reflexivity.
Defined.

(** *** The sweep of lingering connections *)

Lemma run_effects_cons SB ev evs st :
  (run SB (ev :: evs) st).2
  = effects (step SB ev st) ++ (run SB evs (state (step SB ev st))).2.
Proof. simpl. by destruct (run SB evs (state (step SB ev st))). Qed.

(** Where an element of a concatenation sits. *)
Lemma split_before {A} (E R l1 l2 : list A) x :
  E ++ R = l1 ++ x :: l2 →
  x ∈ E ∨ ∃ k, l1 = E ++ k ∧ R = k ++ x :: l2.
Proof.
  intros [[k [-> Hk]]|[k [-> ->]]]%app_eq_inv; [|right; by exists k].
  destruct k as [|y k]; simpl in Hk.
  - right. exists []. rewrite !app_nil_r. by subst R.
  - injection Hk as <- _. left. apply elem_of_app. right. by left.
Qed.

(** Settles membership in a list written out. *)
Local Ltac absent H :=
  simpl in H;
  repeat (apply elem_of_cons in H as [?|H]; [done|]);
  by apply elem_of_nil in H.

Lemma run_listeners_timers ls : ∀ st,
  (∀ key so, Destroy key so ∉ effects (run_listeners ls st))
  ∧ (timers (state (run_listeners ls st)) ≠ timers st →
     ∃ sv, Close sv ∈ effects (run_listeners ls st)).
Proof.
  induction ls as [|[] ls IH]; intros st.
  { split; [intros ?? H; by apply elem_of_nil in H|done]. }
  cbn [run_listeners run_listener]. unfold andThen, onFinish. cbn zeta.
  cbn [server set_isClosing].
  destruct (server st) as [sv|]; cbn [completion state effects].
  - split.
    + intros key so [H|H]%elem_of_app.
      * apply elem_of_cons in H as [?|H]; [done|].
        apply elem_of_cons in H as [?|H]; [done|]. by apply elem_of_nil in H.
      * by eapply IH.
    + intros _. exists sv. apply elem_of_app. left. by left.
  - split; [intros ?? H; by apply elem_of_nil in H|done].
Qed.

(** A turn sweeps only when a timer is pending. *)
Lemma step_sweep SB ev st key so :
  Destroy key so ∈ effects (step SB ev st) → timers st ≠ [].
Proof.
  destruct ev as [err s a p|a p sk|k|u| |rid| |]; simpl.
  - destruct err; cbn; [by intros ?%elem_of_nil|].
    intros H. destruct (opts_open st); absent H.
  - by intros ?%elem_of_nil.
  - by intros ?%elem_of_nil.
  - change (requestListener u _ _) with (step SB (EvRequest u) st).
    rewrite step_request. cbn [effects].
    destruct (_ || _); [intros H; absent H|].
    unfold queued. intros H. repeat case_match; absent H.
  - destruct (ticks st) as [|t q]; [by intros ?%elem_of_nil|].
    destruct (next_ended SB t (set_ticks q st)) as [[-> _]|[-> _]];
      intros H; absent H.
  - destruct (responses st !! rid) as [r|]; [|by intros ?%elem_of_nil].
    destruct (ended r && negb (finished r)); [|by intros ?%elem_of_nil].
    intros H. by apply run_listeners_timers in H.
  - destruct (timers st) as [|[] tm]; [by intros ?%elem_of_nil|done].
  - by intros ?%elem_of_nil.
Qed.

(** A timer is set only as the server is closed. *)
Lemma step_timer SB ev st :
  timers st = [] → timers (state (step SB ev st)) ≠ [] →
  ∃ sv, Close sv ∈ effects (step SB ev st).
Proof.
  intros H0.
  destruct ev as [err s a p|a p sk|k|u| |rid| |]; simpl.
  - by destruct err.
  - done.
  - done.
  - change (requestListener u _ _) with (step SB (EvRequest u) st).
    rewrite step_request. done.
  - destruct (ticks st) as [|t q]; [done|].
    destruct (next_cases SB t (set_ticks q st)) as (f & -> & _). done.
  - destruct (responses st !! rid) as [r|]; [|done].
    destruct (ended r && negb (finished r)); [|done].
    intros H. apply run_listeners_timers. cbn. by rewrite H0 in *.
  - by rewrite H0.
  - done.
Qed.

Lemma run_sweep SB evs : ∀ st l1 key so l2,
  (run SB evs st).2 = l1 ++ Destroy key so :: l2 →
  timers st ≠ [] ∨ ∃ sv, Close sv ∈ l1.
Proof.
  induction evs as [|ev evs IH]; intros st l1 key so l2 H.
  { simpl in H. by destruct l1. }
  rewrite run_effects_cons in H.
  apply split_before in H as [H|(k & -> & H)].
  { left. by eapply step_sweep. }
  destruct (IH _ _ _ _ _ H) as [Ht|[sv Hsv]].
  - destruct (timers st) as [|t tm] eqn:Htm; [|by left].
    right. destruct (step_timer SB ev st Htm Ht) as [sv Hsv].
    exists sv. apply elem_of_app. by left.
  - right. exists sv. apply elem_of_app. by right.
Qed.

(** Connections are destroyed only after [server.close()] was called:
    in the trace of a server's life every [destroy] of a socket comes after
    a [close] of the server. *)
Theorem connections_destroyed_only_after_close
    SB boilerplate options clbk s a p evs st effs l1 key socket l2 :
  lifetime SB boilerplate options clbk s a p evs = Some (st, effs) →
  effs = l1 ++ Destroy key socket :: l2 →
  ∃ sv, Close sv ∈ l1.
Proof.
  intros H Heq.
  destruct (lifetime_run _ _ _ _ _ _ _ _ _ _ H) as (effs' & _ & -> & ->).
  cbn zeta in Heq.
  match type of Heq with context [run SB evs ?st0] =>
    assert ((Boot :: ListenConnections s
               :: (if open options then [OpenURL a p] else [])
               ++ [Clbk (kept clbk) s]) ++ (run SB evs st0).2
            = l1 ++ Destroy key socket :: l2) as Heq'
      by (rewrite <- Heq; simpl; by rewrite <- app_assoc)
  end.
  apply split_before in Heq' as [Hin|(k & -> & Hrun)].
  { destruct (open options); absent Hin. }
  apply run_sweep in Hrun as [?|[sv Hsv]]; [done|].
  exists sv. apply elem_of_app. by right.
Qed.

(** A client connects and is served the page; the timer fires while its
    connection is still open. *)
Definition lingering_events : list Event :=
  [EvConnection "10.0.0.1" 5000 7; EvRequest "/"; EvTick; EvFinish 0; EvTimeout].

Lemma connections_destroyed_only_after_close_witness :
  ∃ st,
    lifetime false [] beep_options Absent 0 "0.0.0.0" 8000 lingering_events
    = Some (st, [Boot; ListenConnections 0; Clbk None 0;
                 NextTick (Next SendHTML 0); End 0; Close 0;
                 SetTimeout (DestroyConnections 5000)]
                ++ [Destroy "10.0.0.1:5000" 7])
    ∧ ∃ sv, Close sv ∈ [Boot; ListenConnections 0; Clbk None 0;
                         NextTick (Next SendHTML 0); End 0; Close 0;
                         SetTimeout (DestroyConnections 5000)].
Proof.
  eexists. split; [vm_compute; reflexivity|].
  eapply (connections_destroyed_only_after_close false [] beep_options Absent 0
            "0.0.0.0" 8000 lingering_events _ _ _ "10.0.0.1:5000" 7 []);
    [vm_compute; reflexivity|reflexivity].
Defined.

(** The connections that are open after a turn: a connection is entered
    under its remote address and port, and leaves as its socket closes. *)
Definition track (open : gmap string nat) (ev : Event) : gmap string nat :=
  match ev with
  | EvConnection remoteAddress remotePort socket =>
      <[remoteAddress +:+ ":" +:+ pretty remotePort := socket]> open
  | EvSocketClose key => delete key open
  | _ => open
  end.

Lemma run_listeners_connections ls : ∀ st,
  connections (state (run_listeners ls st)) = connections st.
Proof.
  induction ls as [|[] ls IH]; intros st; [done|].
  cbn [run_listeners run_listener]. unfold andThen, onFinish. cbn zeta.
  cbn [server set_isClosing].
  destruct (server st); cbn [completion state]; [|done].
  by rewrite IH.
Qed.

Lemma step_connections SB ev st :
  connections (state (step SB ev st)) = track (connections st) ev.
Proof.
  destruct ev as [err s a p|a p sk|k|u| |rid| |]; simpl.
  - by destruct err.
  - done.
  - done.
  - change (requestListener u _ _) with (step SB (EvRequest u) st).
    by rewrite step_request.
  - destruct (ticks st) as [|t q]; [done|].
    by destruct (next_cases SB t (set_ticks q st)) as (f & -> & _).
  - destruct (responses st !! rid) as [r|]; [|done].
    destruct (ended r && negb (finished r)); [|done].
    by rewrite run_listeners_connections.
  - by destruct (timers st) as [|[] tm].
  - done.
Qed.

Lemma run_connections SB evs : ∀ st,
  connections (run SB evs st).1 = foldl track (connections st) evs.
Proof.
  induction evs as [|ev evs IH]; intros st; [done|].
  by rewrite run_cons, IH, step_connections.
Qed.

(** When the timer fires, the sockets destroyed are exactly the
    connections still open: those entered by a connection since the
    server started and not removed by the close of their socket; each is
    destroyed once, and the table is left as it is. *)
Theorem timeout_destroys_the_open_connections SB evs st :
  timers (run SB evs st).1 ≠ [] →
  let r := step SB EvTimeout (run SB evs st).1 in
  NoDup (effects r)
  ∧ (∀ e, e ∈ effects r
          ↔ ∃ key socket, e = Destroy key socket
              ∧ foldl track (connections st) evs !! key = Some socket)
  ∧ connections (state r) = foldl track (connections st) evs.
Proof.
  intros Ht r. subst r. rewrite <- (run_connections SB).
  simpl. destruct (timers (run SB evs st).1) as [|[ms] tm]; [done|].
  cbn [destroyConnections effects state connections set_timers].
  split_and!; [| |done].
  - apply (NoDup_fmap_2_strong _); [|apply NoDup_map_to_list].
    intros [k1 s1] [k2 s2] _ _ [= -> ->]. done.
  - intros e. rewrite list_elem_of_fmap. split.
    + intros ([key so] & -> & Hin%elem_of_map_to_list). by exists key, so.
    + intros (key & so & -> & Hin). exists (key, so).
      split; [done|]. by apply elem_of_map_to_list.
Qed.

(** Two clients connect, the second leaves, and the page is served and
    finished: the timer finds the first connection only. *)
Definition two_clients : list Event :=
  [EvConnection "10.0.0.1" 5000 7; EvConnection "10.0.0.2" 5001 8;
   EvSocketClose "10.0.0.2:5001"; EvRequest "/"; EvTick; EvFinish 0].

Lemma timeout_destroys_the_open_connections_witness :
  let r := step false EvTimeout (run false two_clients beep).1 in
  effects r = [Destroy "10.0.0.1:5000" 7]
  ∧ NoDup (effects r)
  ∧ (∀ e, e ∈ effects r
          ↔ ∃ key socket, e = Destroy key socket
              ∧ foldl track (connections beep) two_clients !! key = Some socket)
  ∧ connections (state r) = foldl track (connections beep) two_clients.
Proof.
  split; [vm_compute; reflexivity|].
  apply (timeout_destroys_the_open_connections false two_clients beep).
  vm_compute. discriminate.
Defined.

(** *** What the page is *)

(** HTML supplied as a non-empty string is served as its UTF-8
    encoding, with a content length that counts the bytes of that
    encoding, whatever the version of the platform. *)
Theorem string_page_is_served_as_utf8
    SB boilerplate c s js o clbk sv a p evs st effs url :
  BufferSpec.code_units (c :: s) →
  lifetime SB boilerplate (mkOptions (Str (c :: s)) js o) clbk sv a p evs
  = Some (st, effs) →
  isClosing st = false →
  is_html url = true →
  ∃ r, response_to SB st url = Some r
       ∧ statusCode r = 200%Z
       ∧ body r = Buf (Buffer.from_string (c :: s))
       ∧ headers r = [("Content-Length", HNumber (Buffer.byteLength (c :: s)));
                      ("Content-Type", HString "text/html")].
Proof.
  intros Hs H Hc Hu.
  destruct (lifetime_inv _ _ _ _ _ _ _ _ _ _ H) as (HI & Hh & _).
  destruct (configured_html_string boilerplate s c js o Hs) as (b & Hb & Hw).
  assert (b = Buffer.from_string (c :: s)) as -> by (by injection Hb).
  rewrite Hb in Hh.
  destruct (routed_content SB st url SendHTML "text/html"
              (Buf (Buffer.from_string (c :: s)))) as (r & Hr & _ & Hserved);
    [done|done| | |done|].
  - unfold queued. by rewrite Hc, (is_bundle_html url Hu), Hu.
  - intros st' [Fh _ _ _]. simpl. unfold sendHTML. by rewrite Fh, Hh.
  - exists r. split; [done|].
    pose proof (served_content_length _ _ _ _ _ Hserved Hw) as Hlen.
    destruct Hserved as (_ & Hst & Hbody & _).
    split_and!; [done|done|].
    by rewrite BufferSpec.byteLength_from_string.
Qed.

(** A server whose page is the single character U+00E9. *)
Definition e_acute_options : Options := mkOptions (Str [0xE9%Z]) Undefined false.

Definition e_acute : State :=
  mkState (Buf [xc3; xa9]) Undefined false None false (Some 0) ∅ [] [] [].

Lemma string_page_is_served_as_utf8_witness :
  ∃ r, response_to true e_acute "/" = Some r
       ∧ statusCode r = 200%Z
       ∧ body r = Buf [xc3; xa9]
       ∧ headers r = [("Content-Length", HNumber 2);
                      ("Content-Type", HString "text/html")].
Proof.
  apply (string_page_is_served_as_utf8 true [] 0xE9%Z [] Undefined false Absent
           0 "0.0.0.0" 8000%Z [] e_acute [Boot; ListenConnections 0; Clbk None 0]
           "/").
  - repeat constructor; lia.
  - reflexivity.
  - reflexivity.
  - reflexivity.
Defined.

(** Without HTML, or with the empty string for it, the page is the
    boilerplate [static/index.html]. *)
Theorem boilerplate_page_when_html_is_falsy
    SB boilerplate options clbk sv a p evs st effs url :
  truthy (html options) = false →
  lifetime SB boilerplate options clbk sv a p evs = Some (st, effs) →
  isClosing st = false →
  is_html url = true →
  ∃ r, response_to SB st url = Some r
       ∧ served SB 200 (Some "text/html") (Buf boilerplate) r.
Proof.
  intros Hf H Hc Hu.
  destruct (lifetime_inv _ _ _ _ _ _ _ _ _ _ H) as (HI & Hh & _).
  assert (configured_html boilerplate options = Buf boilerplate) as Hb.
  { unfold configured_html. by destruct (html options) as [|[|]|]. }
  rewrite Hb in Hh.
  destruct (routed_content SB st url SendHTML "text/html" (Buf boilerplate))
    as (r & Hr & _ & Hserved); [done|done| | |done|by exists r].
  - unfold queued. by rewrite Hc, (is_bundle_html url Hu), Hu.
  - intros st' [Fh _ _ _]. simpl. unfold sendHTML. by rewrite Fh, Hh.
Qed.

(** The page that stands in for [static/index.html] below. *)
Definition hello : list byte := String.list_byte_of_string "<h1>Hello</h1>".

Definition bare : State :=
  mkState (Buf hello) Undefined false None false (Some 0) ∅ [] [] [].

Lemma boilerplate_page_when_html_is_falsy_witness :
  ∃ r, response_to false bare "/index.html" = Some r
       ∧ served false 200 (Some "text/html") (Buf hello) r.
Proof.
  apply (boilerplate_page_when_html_is_falsy false hello
           (mkOptions (Str []) Undefined false) Absent 0 "0.0.0.0" 8000%Z []
           bare [Boot; ListenConnections 0; Clbk None 0] "/index.html");
    reflexivity.
Defined.

(** *** What happens at boot only *)

Definition at_boot (e : Effect) : bool :=
  match e with
  | Boot | ListenConnections _ | OpenURL _ _ | Clbk _ _ => true
  | _ => false
  end.

Definition is_server_event (ev : Event) : bool :=
  match ev with EvServer _ _ _ _ => true | _ => false end.

Lemma run_listeners_at_boot ls : ∀ st,
  Forall (λ e, at_boot e = false) (effects (run_listeners ls st)).
Proof.
  induction ls as [|[] ls IH]; intros st; [constructor|].
  cbn [run_listeners run_listener]. unfold andThen, onFinish. cbn zeta.
  cbn [server set_isClosing].
  destruct (server st); cbn [completion state effects]; [|constructor].
  apply Forall_app. split; [by repeat constructor|apply IH].
Qed.

Lemma step_at_boot SB ev st :
  is_server_event ev = false →
  Forall (λ e, at_boot e = false) (effects (step SB ev st)).
Proof.
  destruct ev as [err s a p|a p sk|k|u| |rid| |]; intros Hev;
    [done|by constructor|by constructor| | | | |by constructor].
  - rewrite step_request. cbn [effects].
    destruct (_ || _); [by repeat constructor|].
    unfold queued. repeat case_match; by repeat constructor.
  - simpl. destruct (ticks st) as [|t q]; [constructor|].
    destruct (next_ended SB t (set_ticks q st)) as [[-> _]|[-> _]];
      by repeat constructor.
  - simpl. destruct (responses st !! rid) as [r|]; [|constructor].
    destruct (ended r && negb (finished r)); [|constructor].
    apply run_listeners_at_boot.
  - simpl. destruct (timers st) as [|[] tm]; [constructor|].
    cbn [destroyConnections effects]. apply Forall_fmap, Forall_forall. done.
Qed.

Lemma filter_none {A} (f : A → bool) (l : list A) :
  Forall (λ x, f x = false) l → filter (λ x, f x = true) l = [].
Proof.
  induction 1 as [|x l Hx _ IH]; [done|].
  rewrite filter_cons_False; [done|]. by rewrite Hx.
Qed.

Lemma run_at_boot SB evs : ∀ st,
  Forall (λ ev, is_server_event ev = false) evs →
  Forall (λ e, at_boot e = false) (run SB evs st).2.
Proof.
  induction evs as [|ev evs IH]; intros st Hevs; [constructor|].
  apply Forall_cons in Hevs as [Hev Hevs]. rewrite run_effects_cons.
  apply Forall_app. split; [by apply step_at_boot|by apply IH].
Qed.

(** The callback is invoked once, with the server, as the server
    starts: after the listener for connections is attached and after the
    browser is opened, which happens if and only if [open] is set.  No
    later turn invokes it or opens a browser. *)
Theorem callback_invoked_once_at_boot
    SB boilerplate options clbk s a p evs st effs :
  lifetime SB boilerplate options clbk s a p evs = Some (st, effs) →
  Forall (λ ev, is_server_event ev = false) evs →
  filter (λ e, at_boot e = true) effs
  = Boot :: ListenConnections s
      :: (if open options then [OpenURL a p] else []) ++ [Clbk (kept clbk) s].
Proof.
  intros H Hevs.
  destruct (lifetime_run _ _ _ _ _ _ _ _ _ _ H) as (effs' & _ & -> & ->).
  cbn zeta.
  match goal with |- context [run SB evs ?st0] =>
    pose proof (filter_none _ _ (run_at_boot SB evs st0 Hevs)) as Hl end.
  rewrite !filter_cons_True by done. do 2 f_equal.
  rewrite !filter_app, Hl, app_nil_r.
  by destruct (open options).
Qed.

Lemma callback_invoked_once_at_boot_witness :
  ∃ st effs,
    lifetime false [] (mkOptions Undefined Undefined true) (Function 3) 0
      "0.0.0.0" 8000 busy_events = Some (st, effs)
    ∧ filter (λ e, at_boot e = true) effs
      = [Boot; ListenConnections 0; OpenURL "0.0.0.0" 8000; Clbk (Some 3) 0].
Proof.
  eexists _, _. split; [reflexivity|].
  apply (callback_invoked_once_at_boot false [] (mkOptions Undefined Undefined true)
           (Function 3) 0 "0.0.0.0" 8000%Z busy_events _ _ eq_refl).
  repeat constructor.
Defined.

(** *** Requests in flight as the server starts to close *)

Lemma run_app_fst SB evs1 evs2 st :
  (run SB (evs1 ++ evs2) st).1 = (run SB evs2 (run SB evs1 st).1).1.
Proof.
  rewrite run_app. destruct (run SB evs1 st) as [st1 effs1].
  cbn [fst]. by destruct (run SB evs2 st1).
Qed.

(** A turn other than a tick leaves an open response as it is, and the
    queue before it. *)
Lemma step_holds SB ev st rid r :
  responses st !! rid = Some r → ended r = false → ev ≠ EvTick →
  responses (state (step SB ev st)) !! rid = Some r
  ∧ ∃ more, ticks (state (step SB ev st)) = ticks st ++ more.
Proof.
  intros Hr He Hev.
  destruct ev as [err s a p|a p sk|k|u| |rid'| |].
  - destruct err; (split; [done|exists []; by rewrite app_nil_r]).
  - split; [done|exists []; by rewrite app_nil_r].
  - split; [done|exists []; by rewrite app_nil_r].
  - rewrite step_request. cbn. split; [by apply lookup_app_l_Some|eauto].
  - done.
  - simpl. destruct (responses st !! rid') as [r0|] eqn:Hr0;
      [|split; [done|exists []; by rewrite app_nil_r]].
    destruct (ended r0 && negb (finished r0)) eqn:Hfire;
      [|split; [done|exists []; by rewrite app_nil_r]].
    destruct (run_listeners_cases (finish_once r0) (update rid' mark_finished st))
      as (_ & _ & _ & _ & _ & -> & -> & _).
    cbn. split; [|exists []; by rewrite app_nil_r].
    rewrite list_lookup_alter_ne; [done|].
    intros ->. rewrite Hr in Hr0. injection Hr0 as <-. by rewrite He in Hfire.
  - simpl. destruct (timers st) as [|[] tm];
      (split; [done|exists []; by rewrite app_nil_r]).
  - split; [done|exists []; by rewrite app_nil_r].
Qed.

Lemma run_holds SB evs : ∀ st rid r,
  responses st !! rid = Some r → ended r = false →
  Forall (λ ev, ev ≠ EvTick) evs →
  responses (run SB evs st).1 !! rid = Some r
  ∧ ∃ more, ticks (run SB evs st).1 = ticks st ++ more.
Proof.
  induction evs as [|ev evs IH]; intros st rid r Hr He Hevs.
  { split; [done|exists []; by rewrite app_nil_r]. }
  apply Forall_cons in Hevs as [Hev Hevs]. rewrite run_cons.
  destruct (step_holds SB ev st rid r Hr He Hev) as (Hr1 & more1 & Hq1).
  destruct (IH _ rid r Hr1 He Hevs) as (Hr2 & more2 & Hq2).
  split; [done|]. exists (more1 ++ more2). by rewrite Hq2, Hq1, app_assoc.
Qed.

(** Whether a request is served is decided as it arrives.  A request
    for the page that arrives while the server is serving is answered with
    the page once its tick comes, whatever turns (other than ticks) come in
    between, among them the ['finish'] of an earlier response, which starts
    the shutdown. *)
Theorem accepted_request_is_served_while_closing SB st url evs :
  Inv st → isClosing st = false → is_html url = true →
  Forall (λ ev, ev ≠ EvTick) evs →
  let st' := (run SB (EvRequest url :: evs
                        ++ replicate (S (length (ticks st))) EvTick) st).1 in
  ∃ r, responses st' !! length (responses st) = Some r
       ∧ Disposable.url r = url
       ∧ served SB 200 (Some "text/html") (opts_html st) r.
Proof.
  intros HI Hc Hu Hevs st'. subst st'.
  pose proof HI as [[b Hb] _ Ht _].
  rewrite run_cons, run_app_fst, replicate_S_end, run_app_fst, run_cons.
  fold (replicate (length (ticks st)) EvTick).
  set (st1 := state (step SB (EvRequest url) st)).
  set (st2 := (run SB evs st1).1).
  set (st3 := (run SB (replicate (length (ticks st)) EvTick) st2).1).
  cbn [run fst].
  assert (responses st1 !! length (responses st) = Some (arrival st url)) as Hr1.
  { subst st1. rewrite step_request. cbn. by rewrite lookup_app_r, Nat.sub_diag. }
  assert (ticks st1 = ticks st ++ [Next SendHTML (length (responses st))]) as Hq1.
  { subst st1. rewrite step_request. cbn. unfold queued.
    by rewrite Hc, (is_bundle_html url Hu), Hu. }
  assert (arrival st url
          = mkResponse url 200 [] Undefined false
              (if truthy (opts_javascript st) then [] else [OnFinish]) false)
    as Harr.
  { unfold arrival. by rewrite Hc, (is_bundle_html url Hu), Hu. }
  destruct (run_holds SB evs st1 _ _ Hr1) as (Hr2 & more & Hq2);
    [by rewrite Harr|done|].
  fold st2 in Hr2, Hq2.
  pose proof (step_frame SB (EvRequest url) st) as [F1 _ _ _]. fold st1 in F1.
  pose proof (run_frame SB evs st1) as [F2 _ _ _]. fold st2 in F2.
  destruct (drain_others SB (ticks st) st2
              (Next SendHTML (length (responses st)) :: more)
              (length (responses st))) as (Hq3 & Hr3 & _).
  { by rewrite Hq2, Hq1, <- app_assoc. }
  { eapply Forall_impl; [exact Ht|]. simpl. intros; lia. }
  fold st3 in Hq3, Hr3.
  pose proof (run_frame SB (replicate (length (ticks st)) EvTick) st2)
    as [F3 _ _ _].
  fold st3 in F3.
  assert (opts_html st3 = Buf b) as Hh3 by congruence.
  rewrite (step_tick_cons _ _ _ _ Hq3). cbn [next]. unfold sendHTML.
  cbn [opts_html set_ticks]. rewrite Hh3.
  destruct (byteLength_present SB (Buf b)) as [n Hn]; [done|].
  rewrite (send_ok _ _ _ _ _ n Hn). cbn.
  rewrite list_lookup_alter_eq, Hr3, Hr2, Harr. simpl.
  eexists. split; [done|]. rewrite Hb. split; [done|].
  split_and!; eauto.
Qed.

(** The server for [<h1>Beep</h1>] after it sent the page once. *)
Definition beeped : State := (run false [EvRequest "/"; EvTick] beep).1.

Lemma Inv_beeped : Inv beeped.
Proof.
  apply run_inv. split; simpl; [by eexists|by eexists|constructor|constructor].
Qed.

(** A second request arrives before the first response has finished; the
    shutdown starts before the second is sent. *)
Lemma accepted_request_is_served_while_closing_witness :
  let st' := (run false (EvRequest "/" :: [EvFinish 0] ++ replicate 1 EvTick)
                beeped).1 in
  isClosing st' = true
  ∧ ∃ r, responses st' !! 1 = Some r
         ∧ Disposable.url r = "/"
         ∧ served false 200 (Some "text/html") (opts_html beeped) r.
Proof.
  split; [reflexivity|].
  apply (accepted_request_is_served_while_closing false beeped "/" [EvFinish 0]).
  - exact Inv_beeped.
  - reflexivity.
  - reflexivity.
  - repeat constructor. discriminate.
Defined.

(** *** A request that is never answered *)

(** A response that is open and has no task queued stays so. *)
Lemma step_unanswered SB ev st rid :
  rid < length (responses st) →
  ended_at rid st = false →
  rid ∉ (task_response <$> ticks st) →
  let st' := state (step SB ev st) in
  rid < length (responses st')
  ∧ ended_at rid st' = false
  ∧ (rid ∉ (task_response <$> ticks st'))
  ∧ ends rid (effects (step SB ev st)) = 0.
Proof.
  intros Hlt He Hq st'. subst st'.
  destruct ev as [err s a p|a p sk|k|u| |rid'| |].
  - destruct err; simpl; [done|]. split_and!; try done.
    by destruct (opts_open st).
  - done.
  - done.
  - rewrite step_request. cbn [state effects]. split_and!.
    + cbn. rewrite length_app. simpl. lia.
    + unfold ended_at in *. cbn. by rewrite lookup_app_l.
    + cbn. rewrite fmap_app. intros [H|H]%elem_of_app; [done|].
      unfold queued in H. repeat case_match; simpl in H;
        try (by apply elem_of_nil in H);
        apply list_elem_of_singleton in H; lia.
    + destruct (_ || _); [|apply ends_NextTick].
      apply ends_End_ne. lia.
  - destruct (ticks st) as [|t q] eqn:Hticks.
    { rewrite step_tick_nil by done. cbn [state effects]. by rewrite Hticks. }
    rewrite (step_tick_cons _ _ t q) by done.
    assert (task_response t ≠ rid) as Hne.
    { intros <-. apply Hq. simpl. by left. }
    assert (rid ∉ (task_response <$> q)) as Hq'.
    { intros H. apply Hq. simpl. by right. }
    destruct (next_ended SB t (set_ticks q st))
      as [[-> (f & -> & _)]|[-> (f & -> & _)]];
      (split_and!;
       [cbn; by rewrite length_alter
       |by rewrite ended_at_update_ne
       |done
       |by rewrite ?ends_End_ne]).
  - simpl. destruct (responses st !! rid') as [r|]; [|done].
    destruct (ended r && negb (finished r)); [|done].
    destruct (run_listeners_cases (finish_once r) (update rid' mark_finished st))
      as (_ & _ & _ & _ & _ & Hr & Ht & _).
    split_and!.
    + rewrite Hr. cbn. by rewrite length_alter.
    + rewrite (ended_at_ext _ _ _ Hr). by rewrite ended_at_update_same.
    + by rewrite Ht.
    + apply ends_run_listeners.
  - simpl. destruct (timers st) as [|[] tm]; [done|].
    cbn [state effects destroyConnections]. split_and!; try done.
    apply ends_destroy.
  - done.
Qed.

Lemma run_unanswered SB evs : ∀ st rid,
  rid < length (responses st) →
  ended_at rid st = false →
  rid ∉ (task_response <$> ticks st) →
  ended_at rid (run SB evs st).1 = false ∧ ends rid (run SB evs st).2 = 0.
Proof.
  induction evs as [|ev evs IH]; intros st rid Hlt He Hq; [done|].
  destruct (step_unanswered SB ev st rid Hlt He Hq) as (Hlt1 & He1 & Hq1 & Hn1).
  destruct (IH _ rid Hlt1 He1 Hq1) as [He2 Hn2].
  rewrite run_cons, run_effects_cons, ends_app. split; [done|lia].
Qed.

(** On Node.js 6 and later, where [SUPPORTS_BUFFER] is false, a request
    for ['/bundle.js'] that arrives while a server without JavaScript is
    serving is never answered: its task throws on the absent payload, and
    no later turn ends its response. *)
Theorem bundle_request_without_javascript_is_never_answered st evs :
  Inv st → isClosing st = false → opts_javascript st = Undefined →
  let n := length (responses st) in
  let st1 := (run false (EvRequest "/bundle.js"
                           :: replicate (S (length (ticks st))) EvTick) st).1 in
  ended_at n (run false evs st1).1 = false
  ∧ ends n (run false evs st1).2 = 0.
Proof.
  intros HI Hc Hj n st1.
  destruct (response_to_arrival false st "/bundle.js" HI) as (_ & Hq2 & Hr2 & HF).
  set (sta := state (step false (EvRequest "/bundle.js") st)) in *.
  set (st2 := (run false (replicate (length (ticks st)) EvTick) sta).1) in *.
  assert (st1 = state (step false EvTick st2)) as ->.
  { subst st1. rewrite run_cons, replicate_S_end, run_app_fst, run_cons. done. }
  assert (queued st "/bundle.js" = [Next SendJavaScript n]) as Hqd.
  { unfold queued. by rewrite Hc. }
  rewrite Hqd in Hq2. rewrite (step_tick_cons _ _ _ _ Hq2).
  cbn [next]. unfold sendJavaScript. cbn [opts_javascript set_ticks].
  destruct HF as [_ Fj _ _]. rewrite Fj, Hj.
  rewrite (send_throw false _ Undefined _ _ _ eq_refl). cbn [state].
  apply run_unanswered.
  - cbn. rewrite length_alter. by eapply lookup_lt_Some.
  - rewrite (ended_at_update_eq _ _ (set_ticks [] st2) _ Hr2). cbn.
    unfold arrival. by rewrite Hc.
  - cbn. apply not_elem_of_nil.
Qed.

Lemma Inv_beep : Inv beep.
Proof. split; simpl; [by eexists|by eexists|constructor|constructor]. Qed.

(** The request for the bundle is followed by a served page, its finish and
    the sweep. *)
Definition after_bundle : list Event :=
  [EvFinish 0; EvTick; EvRequest "/"; EvTick; EvFinish 1; EvFinish 0; EvTimeout].

Lemma bundle_request_without_javascript_is_never_answered_witness :
  let st1 := (run false (EvRequest "/bundle.js" :: replicate 1 EvTick) beep).1 in
  isClosing (run false after_bundle st1).1 = true
  ∧ ended_at 0 (run false after_bundle st1).1 = false
  ∧ ends 0 (run false after_bundle st1).2 = 0.
Proof.
  split; [reflexivity|].
  apply (bundle_request_without_javascript_is_never_answered beep after_bundle);
    [exact Inv_beep|reflexivity|reflexivity].
Defined.

(** *** The content length of well-formed payloads *)

(** A payload that is well-formed UTF-8 is served, while the server is
    serving, with a content length equal to its number of bytes, whatever
    the version of the platform: the page at ['/'] and ['/index.html'],
    the script at ['/bundle.js']. *)
Theorem well_formed_payload_has_its_length SB st url fcn b :
  Inv st → isClosing st = false →
  queued st url = [Next fcn (length (responses st))] →
  payload fcn st = Buf b →
  Buffer.well_formed b = true →
  ∃ r, response_to SB st url = Some r
       ∧ statusCode r = 200%Z
       ∧ body r = Buf b
       ∧ headers r
         = [("Content-Length", HNumber (Z.of_nat (length b)));
            ("Content-Type",
             HString (match fcn with
                      | SendHTML => "text/html"
                      | SendJavaScript => "text/javascript"
                      end))].
Proof.
  intros HI Hc Hq Hp Hw.
  destruct (routed_content SB st url fcn
              (match fcn with
               | SendHTML => "text/html"
               | SendJavaScript => "text/javascript"
               end) (Buf b)) as (r & Hr & _ & Hserved);
    [done|done|done| |done|].
  - intros st' [Fh Fj _ _]. destruct fcn; simpl in *.
    + unfold sendHTML. by rewrite Fh, Hp.
    + unfold sendJavaScript. by rewrite Fj, Hp.
  - exists r. split; [done|].
    pose proof (served_content_length _ _ _ _ _ Hserved Hw) as Hlen.
    by destruct Hserved as (_ & Hst & Hbody & _).
Qed.

Lemma well_formed_payload_has_its_length_witness :
  ∃ r, response_to false script "/bundle.js" = Some r
       ∧ statusCode r = 200%Z
       ∧ body r = Buf (String.list_byte_of_string "console.log( 'Boop' );")
       ∧ headers r = [("Content-Length", HNumber 22);
                      ("Content-Type", HString "text/javascript")].
Proof.
  apply (well_formed_payload_has_its_length false script "/bundle.js"
           SendJavaScript (String.list_byte_of_string "console.log( 'Boop' );")).
  - split; simpl; [by eexists|by eexists|constructor|constructor].
  - reflexivity.
  - reflexivity.
  - reflexivity.
  - reflexivity.
Defined.

End DisposableExtra.
